(** * Route optimisation engine: QUBO encoder, solver chain, decoder, metrics
      and traffic simulator, embedded from the Python sources.

    Part I holds the embedding, one module per source file, followed by the
    vocabulary in which the properties are stated.  Part II holds the
    properties the specification states, Part III further properties of the
    embedded code.

    Numbers.  The route times, the on-time metric, the searches that compare
    route times and the reports computed from them work on binary64 floats:
    a float is [nan], an infinity or the rational it denotes, every
    operation rounds its exact result to the nearest float (ties to even)
    and overflows to an infinity, and the two ways a float division by zero
    ends (Python's [ZeroDivisionError], numpy's [nan]/[inf]) are written out.
    The time matrix these functions read is a float64 array, [nan] and
    infinite entries included.  The QUBO encoder and the greedy solver are
    studied on exact rationals ([Q]): a coefficient, and a travel time the
    encoder copies into one, is the number it denotes, without rounding.
    The traffic simulators call [sin], [cos], [arcsin] and [sqrt]; there a
    number is a real, [nan] or (in the simplified simulator, whose [math]
    functions raise on it) an infinity, and rounding is not modelled. *)

From Stdlib Require Import List Arith ZArith QArith Qminmax Qround Lia Bool.
From Stdlib Require Import Permutation.
From Stdlib Require String Lqa.
Import String.StringSyntax.
From Stdlib Require Import Reals Lra.
Import ListNotations.

Set Implicit Arguments.

(* ================================================================== *)
(** * Part I: the embedding *)
(* ================================================================== *)

(** ** Python values shared by the modules *)
Module Py.

(** The exceptions the embedded code can raise. *)
Inductive exn : Set :=
| ValueError
| IndexError
| ZeroDivisionError
| UnboundLocalError.

(** A call either returns or raises. *)
Inductive exc (A : Type) : Type :=
| Ret (a : A)
| Raise (e : exn).
Arguments Ret {A} a.
Arguments Raise {A} e.

Definition bind {A B : Type} (m : exc A) (k : A -> exc B) : exc B :=
  match m with
  | Ret a => k a
  | Raise e => Raise e
  end.

(** [for x in l: s = body x s], stopping at the first exception. *)
Fixpoint for_each {A S : Type} (l : list A) (body : A -> S -> exc S) (s : S)
  : exc S :=
  match l with
  | [] => Ret s
  | x :: l' => bind (body x s) (for_each l' body)
  end.

(** [for i in range(n): s = body i s] for a body that cannot raise. *)
Definition for_range {S : Type} (n : nat) (body : nat -> S -> S) (s : S) : S :=
  fold_left (fun s i => body i s) (seq 0 n) s.

(** A [dict]: an association list in insertion order, keys unique. *)
Section Dict.
Variables K V : Type.
Variable eqb : K -> K -> bool.

Definition dict : Type := list (K * V).

Fixpoint dict_get (d : dict) (k : K) : option V :=
  match d with
  | [] => None
  | (k', v) :: d' => if eqb k k' then Some v else dict_get d' k
  end.

(** [d.get(k, dflt)] *)
Definition dict_get_default (d : dict) (k : K) (dflt : V) : V :=
  match dict_get d k with
  | Some v => v
  | None => dflt
  end.

(** [d[k] = v]: an existing key keeps its place, a new one goes last. *)
Fixpoint dict_set (d : dict) (k : K) (v : V) : dict :=
  match d with
  | [] => [(k, v)]
  | (k', v') :: d' =>
      if eqb k k' then (k', v) :: d' else (k', v') :: dict_set d' k v
  end.

Definition dict_keys (d : dict) : list K := map fst d.

Definition dict_mem (d : dict) (k : K) : bool :=
  match dict_get d k with
  | Some _ => true
  | None => false
  end.
End Dict.

(** [itertools.combinations(l, 2)], in its order. *)
Fixpoint combinations2 {A : Type} (l : list A) : list (A * A) :=
  match l with
  | [] => []
  | x :: t => map (pair x) t ++ combinations2 t
  end.

(** [sorted(l)] and [sorted(l, key=...)]: stable, ascending, by insertion;
    [leb y x] says that [y] may stay before a later [x]. *)
Section Sorted.
Variable A : Type.
Variable leb : A -> A -> bool.

Fixpoint insert_sorted (x : A) (l : list A) : list A :=
  match l with
  | [] => [x]
  | y :: l' => if leb y x then y :: insert_sorted x l' else x :: l
  end.

Definition sorted (l : list A) : list A :=
  fold_left (fun acc x => insert_sorted x acc) l [].
End Sorted.

(** *** Floats

    A float is the rational it denotes or one of the IEEE special values.
    Signed zeros are not told apart.  A value that is given (an array
    entry, a literal) may be any rational, the binary64 numbers among them;
    what an operation returns is always one of these. *)
Inductive fval : Set :=
| Fin (q : Q)
| NaN
| Inf (negative : bool).

Definition Qneg_bool (q : Q) : bool := negb (Qle_bool 0 q).
Definition Qzero_bool (q : Q) : bool := Qeq_bool q 0.

(** The integer nearest to [x]; halfway between two integers, the even
    one. *)
Definition nearest_even (x : Q) : Z :=
  let f := Qfloor x in
  match Qcompare (x - inject_Z f) (1 # 2) with
  | Lt => f
  | Gt => (f + 1)%Z
  | Eq => if Z.even f then f else (f + 1)%Z
  end.

(** Binary64 keeps 53 significant bits and its smallest positive number is
    [2^-1074].  Counted in that unit the floats are the integers
    [m * 2^e] with [|m| < 2^53] and [e >= 0]: every integer up to [2^53],
    every second one up to [2^54], and so on.  [spacing_exp x] is the [e]
    of the floats around [x >= 0]. *)
Definition spacing_exp (x : Q) : Z := Z.max 0 (Z.log2 (Qfloor x) - 52).

(** The float nearest to [x >= 0], in units of [2^-1074]. *)
Definition round_nonneg (x : Q) : Z :=
  let e := spacing_exp x in
  (nearest_even (x / inject_Z (2 ^ e)) * 2 ^ e)%Z.

Definition round_units (x : Q) : Z :=
  if Qle_bool 0 x then round_nonneg x else (- round_nonneg (- x))%Z.

(** What an operation whose exact result is [q] returns: the nearest float,
    or an infinity from [2^1024] on (the largest float is
    [(2^53 - 1) * 2^971]). *)
Definition round64 (q : Q) : fval :=
  let r := round_units (q * inject_Z (2 ^ 1074)) in
  if (2 ^ 2098 <=? Z.abs r)%Z then Inf (r <? 0)%Z
  else Fin (Qred (inject_Z r / inject_Z (2 ^ 1074))).

Definition fadd (a b : fval) : fval :=
  match a, b with
  | Fin x, Fin y => round64 (x + y)
  | NaN, _ | _, NaN => NaN
  | Inf s, Fin _ | Fin _, Inf s => Inf s
  | Inf s, Inf s' => if Bool.eqb s s' then Inf s else NaN
  end.

Definition fsub (a b : fval) : fval :=
  match a, b with
  | Fin x, Fin y => round64 (x - y)
  | NaN, _ | _, NaN => NaN
  | Inf s, Fin _ => Inf s
  | Fin _, Inf s => Inf (negb s)
  | Inf s, Inf s' => if Bool.eqb s s' then NaN else Inf s
  end.

Definition fmul (a b : fval) : fval :=
  match a, b with
  | Fin x, Fin y => round64 (x * y)
  | NaN, _ | _, NaN => NaN
  | Inf s, Fin y | Fin y, Inf s =>
      if Qzero_bool y then NaN else Inf (xorb s (Qneg_bool y))
  | Inf s, Inf s' => Inf (xorb s s')
  end.

(** [a / b] once the divisor is known not to raise: numpy's result, which
    is Python's too whenever the divisor is not zero. *)
Definition fdiv_np (a b : fval) : fval :=
  match a, b with
  | Fin x, Fin y =>
      if Qzero_bool y then
        if Qzero_bool x then NaN else Inf (Qneg_bool x)
      else round64 (x / y)
  | NaN, _ | _, NaN => NaN
  | Inf s, Fin y => Inf (xorb s (Qneg_bool y))
  | Fin _, Inf _ => Fin 0
  | Inf _, Inf _ => NaN
  end.

(** [a < b]; every comparison with [nan] is false. *)
Definition fltb (a b : fval) : bool :=
  match a, b with
  | Fin x, Fin y => negb (Qle_bool y x)
  | NaN, _ | _, NaN => false
  | Inf s, Fin _ => s
  | Fin _, Inf s => negb s
  | Inf s, Inf s' => s && negb s'
  end.

(** [a <= b] *)
Definition fleb (a b : fval) : bool :=
  match a, b with
  | Fin x, Fin y => Qle_bool x y
  | NaN, _ | _, NaN => false
  | Inf s, Fin _ => s
  | Fin _, Inf s => negb s
  | Inf s, Inf s' => s || negb s'
  end.

(** A float value together with its run-time type: Python's [float], or
    [numpy.float64] (what indexing an array and any arithmetic with such a
    value return). *)
Record pyfloat : Set := mk_float { is_np : bool; fv : fval }.

Definition py_float (q : Q) : pyfloat := mk_float false (Fin q).
Definition np_float (q : Q) : pyfloat := mk_float true (Fin q).

Definition py_sub (a b : pyfloat) : pyfloat :=
  mk_float (is_np a || is_np b) (fsub (fv a) (fv b)).

Definition py_mul (a b : pyfloat) : pyfloat :=
  mk_float (is_np a || is_np b) (fmul (fv a) (fv b)).

(** [a / b]: between two Python floats a zero divisor raises; as soon as a
    [numpy.float64] takes part the division returns [nan] or [inf]. *)
Definition py_div (a b : pyfloat) : exc pyfloat :=
  let zero_divisor := match fv b with Fin y => Qzero_bool y | _ => false end in
  if negb (is_np a || is_np b) && zero_divisor then Raise ZeroDivisionError
  else Ret (mk_float (is_np a || is_np b) (fdiv_np (fv a) (fv b))).

(** [max(a, b)] of the builtin: [b] only when [b > a]. *)
Definition py_max (a b : pyfloat) : pyfloat :=
  if fltb (fv a) (fv b) then b else a.

(** *** numpy indexing

    [a[i]] on an axis of length [n]: a negative index counts from the end,
    anything outside [-n, n) raises. *)
Definition np_index (n : nat) (i : Z) : exc nat :=
  if (0 <=? i)%Z && (i <? Z.of_nat n)%Z then Ret (Z.to_nat i)
  else if (- Z.of_nat n <=? i)%Z && (i <? 0)%Z
  then Ret (Z.to_nat (i + Z.of_nat n))
  else Raise IndexError.

(** The travel times as the QUBO encoder is studied on them: a
    two-dimensional array of numbers, each entry the rational it denotes. *)
Definition matrix : Type := list (list Q).

(** A two-dimensional float64 array: the rows.  An entry may be [nan] or
    infinite. *)
Definition fmatrix : Type := list (list fval).

(** [a[i, j]] *)
Definition fmat_get (a : fmatrix) (i j : Z) : exc fval :=
  match np_index (length a) i with
  | Raise e => Raise e
  | Ret r =>
      let row := nth r a [] in
      match np_index (length row) j with
      | Raise e => Raise e
      | Ret c => Ret (nth c row NaN)
      end
  end.

End Py.

Import Py.

Notation "x <- m ;; k" := (Py.bind m (fun x => k))
  (at level 61, m at next level, right associativity).

(** ** qubo_builder.py *)
Module QuboBuilder.

(** A key of the QUBO dictionary: a pair of variable indices, or the
    one-element tuple [('const',)] under which the offset is kept. *)
Inductive qkey : Set :=
| Pair (a b : nat)
| Const.

Definition qkey_eqb (k1 k2 : qkey) : bool :=
  match k1, k2 with
  | Pair a b, Pair c d => (a =? c) && (b =? d)
  | Const, Const => true
  | _, _ => false
  end.

(** [Q]: a [defaultdict(float)]. *)
Definition qubo : Type := dict qkey Q.

(** [Q[k] += v] on a [defaultdict(float)]: a missing key starts at [0.0]. *)
Definition q_add (Qd : qubo) (k : qkey) (v : Q) : qubo :=
  dict_set qkey_eqb Qd k (dict_get_default qkey_eqb Qd k 0 + v).

(** [time_matrix.shape[0]] *)
Definition shape0 (tm : matrix) : nat := length tm.

(** [time_matrix[i, j]] for indices inside the N-by-N shape the builder's
    docstring states. *)
Definition tm_at (tm : matrix) (i j : nat) : Q := nth j (nth i tm []) 0.

Definition pair_eqb (a b : nat * nat) : bool :=
  (fst a =? fst b) && (snd a =? snd b).

(** [var_index]: (node, position) -> variable index. *)
Definition tsp_var_index : Type := dict (nat * nat) nat.

(** Lines 38-43: the nested loops that number the variables.  The state is
    the dictionary and the counter [idx]. *)
Definition make_tsp_var_index (N : nat) : tsp_var_index * nat :=
  for_range N (fun i st =>
    for_range N (fun p st =>
      (dict_set pair_eqb (fst st) (i, p) (snd st), S (snd st))) st)
    ([], 0%nat).

(** [var_index[(i, p)]]; every key the builder reads was written by the
    loops above (lemma [tsp_var_index_get] in Part II), so the lookup does
    not raise. *)
Definition vget (vi : tsp_var_index) (i p : nat) : nat :=
  dict_get_default pair_eqb vi (i, p) 0%nat.

(** Lines 49-58: the travel-time objective. *)
Definition add_objective (N : nat) (vi : tsp_var_index) (tm : matrix)
  (Qd : qubo) : qubo :=
  for_range N (fun p Qd =>
    let p_next := ((p + 1) mod N)%nat in
    for_range N (fun i Qd =>
      for_range N (fun j Qd =>
        if (i =? j)%nat then Qd
        else q_add Qd (Pair (vget vi i p) (vget vi j p_next)) (tm_at tm i j))
        Qd) Qd) Qd.

(** The body shared by the two constraint loops (lines 62-73 and 77-88):
    [+2*lambda] on every pair, [-2*lambda] on every diagonal, [+lambda] on
    the constant. *)
Definition add_one_hot (lambda_penalty : Q) (vars : list nat) (Qd : qubo)
  : qubo :=
  let Qd := fold_left (fun Qd ab => q_add Qd (Pair (fst ab) (snd ab))
                                      (2 * lambda_penalty))
                      (combinations2 vars) Qd in
  let Qd := fold_left (fun Qd a => q_add Qd (Pair a a) (-2 * lambda_penalty))
                      vars Qd in
  q_add Qd Const lambda_penalty.

(** Lines 61-73: each node visited exactly once. *)
Definition add_constraint1 (lambda_penalty : Q) (N : nat)
  (vi : tsp_var_index) (Qd : qubo) : qubo :=
  for_range N (fun i Qd =>
    add_one_hot lambda_penalty (map (fun p => vget vi i p) (seq 0 N)) Qd) Qd.

(** Lines 76-88: each position has exactly one node. *)
Definition add_constraint2 (lambda_penalty : Q) (N : nat)
  (vi : tsp_var_index) (Qd : qubo) : qubo :=
  for_range N (fun p Qd =>
    add_one_hot lambda_penalty (map (fun i => vget vi i p) (seq 0 N)) Qd) Qd.

(** [build_time_dependent_tsp_qubo(time_matrix)], with [time_windows] and
    [capacity_constraints] at their default [None] (the two optional blocks
    at lines 91-96 are then skipped). *)
Definition build_time_dependent_tsp_qubo (lambda_penalty : Q) (tm : matrix)
  : qubo * tsp_var_index :=
  let N := shape0 tm in
  let vi := fst (make_tsp_var_index N) in
  let Qd := add_objective N vi tm [] in
  let Qd := add_constraint1 lambda_penalty N vi Qd in
  let Qd := add_constraint2 lambda_penalty N vi Qd in
  (Qd, vi).

(** The part of the dictionary the two constraint loops write, on its own:
    the same two loops run on an empty dictionary. *)
Definition constraint_penalties (lambda_penalty : Q) (N : nat) : qubo :=
  let vi := fst (make_tsp_var_index N) in
  add_constraint2 lambda_penalty N vi (add_constraint1 lambda_penalty N vi []).

(** The value of a QUBO dictionary under a 0/1 assignment: every pair key
    contributes its coefficient when both its variables are 1, the constant
    key contributes its coefficient. *)
Definition term_value (x : nat -> bool) (k : qkey) (c : Q) : Q :=
  match k with
  | Pair a b => if x a && x b then c else 0
  | Const => c
  end.

Definition qubo_energy (Qd : qubo) (x : nat -> bool) : Q :=
  fold_right (fun kc acc => term_value x (fst kc) (snd kc) + acc) 0 Qd.

(** *** VRP variables and decoder *)

Definition triple_eqb (a b : nat * nat * nat) : bool :=
  (fst (fst a) =? fst (fst b)) && (snd (fst a) =? snd (fst b))
  && (snd a =? snd b).

(** [var_index] of the VRP: (origin, destination, vehicle) -> index. *)
Definition vrp_var_index : Type := dict (nat * nat * nat) nat.

(** Lines 174-182 of [build_vrp_qubo]: the loops that number the variables. *)
Definition make_vrp_var_index (N num_vehicles : nat) : vrp_var_index * nat :=
  for_range num_vehicles (fun k st =>
    for_range N (fun i st =>
      for_range N (fun j st =>
        if (i =? j)%nat then st
        else (dict_set triple_eqb (fst st) (i, j, k) (snd st), S (snd st)))
        st) st)
    ([], 0%nat).

(** A solver's answer: variable index -> value. *)
Definition solution : Type := dict nat Z.

(** [solution.get(var_idx, 0) == 1] *)
Definition is_set (sol : solution) (var_idx : nat) : bool :=
  (dict_get_default Nat.eqb sol var_idx 0 =? 1)%Z.

(** Lines 275-279: [vehicle_routes], a [defaultdict(list)] of edges. *)
Definition group_by_vehicle (sol : solution) (vi : vrp_var_index)
  : dict nat (list (nat * nat)) :=
  fold_left (fun vr kv =>
    match kv with
    | ((i, j, k), var_idx) =>
        if is_set sol var_idx
        then dict_set Nat.eqb vr k
               (dict_get_default Nat.eqb vr k [] ++ [(i, j)])
        else vr
    end) vi [].

(** Lines 292-296: the first edge that leaves [current]. *)
Definition next_node (route_edges : list (nat * nat)) (current : nat)
  : option nat :=
  match find (fun e => (fst e =? current)%nat) route_edges with
  | Some (_, j) => Some j
  | None => None
  end.

(** The state of the [while True] loop (lines 291-302): the current node
    and the route so far. *)
Definition walk_state : Type := (nat * list nat)%type.

(** One iteration: [None] when the loop breaks. *)
Definition walk_step (route_edges : list (nat * nat)) (st : walk_state)
  : option walk_state :=
  match next_node route_edges (fst st) with
  | None => None
  | Some j => if (j =? 0)%nat then None else Some (j, snd st ++ [j])
  end.

(** The loop run for at most [fuel] iterations: [Some route] when it has
    left the loop, [None] when it is still running. *)
Fixpoint walk (fuel : nat) (route_edges : list (nat * nat)) (st : walk_state)
  : option (list nat) :=
  match fuel with
  | O => None
  | S fuel' =>
      match walk_step route_edges st with
      | None => Some (snd st)
      | Some st' => walk fuel' route_edges st'
      end
  end.

(** [_extract_vrp_solution]: [None] when some vehicle's walk is still
    running after [fuel] iterations. *)
Definition extract_vrp_solution (fuel : nat) (sol : solution)
  (vi : vrp_var_index) : option (list (list nat)) :=
  let vehicle_routes := group_by_vehicle sol vi in
  fold_left (fun acc k =>
    match acc with
    | None => None
    | Some routes =>
        let route_edges := dict_get_default Nat.eqb vehicle_routes k [] in
        match route_edges with
        | [] => Some routes
        | _ =>
            match walk fuel route_edges (0%nat, [0%nat]) with
            | None => None
            | Some route =>
                if (1 <? length route)%nat then Some (routes ++ [route])
                else Some routes
            end
        end
    end) (sorted Nat.leb (dict_keys vehicle_routes)) (Some []).

End QuboBuilder.

(** ** quantum_solver.py *)
Module QuantumSolver.
Import QuboBuilder.
Local Open Scope string_scope.

(** [(i, j) = key]: unpacking a key into two names; a tuple of any other
    length raises [ValueError]. *)
Definition unpack2 (k : qkey) : exc (nat * nat) :=
  match k with
  | Pair i j => Ret (i, j)
  | Const => Raise ValueError
  end.

(** [variables.add(v)] on a [set]. *)
Definition set_add (v : nat) (s : list nat) : list nat :=
  if existsb (Nat.eqb v) s then s else s ++ [v].

(** Lines 185-189. *)
Definition collect_variables (Qd : qubo) : exc (list nat) :=
  for_each (dict_keys Qd) (fun k variables =>
    ij <- unpack2 k ;;
    if (fst ij =? snd ij)%nat then Ret variables
    else Ret (set_add (snd ij) (set_add (fst ij) variables))) [].

(** Lines 196-199. *)
Definition collect_linear_terms (Qd : qubo) : exc (dict nat Q) :=
  for_each Qd (fun kc linear_terms =>
    ij <- unpack2 (fst kc) ;;
    if (fst ij =? snd ij)%nat
    then Ret (dict_set Nat.eqb linear_terms (fst ij)
                (dict_get_default Nat.eqb linear_terms (fst ij) 0 + snd kc))
    else Ret linear_terms) [].

(** Lines 205-208: the state is [(solution, energy)]. *)
Definition assign_greedily (sorted_vars : list (nat * Q))
  (st : solution * Q) : solution * Q :=
  fold_left (fun st vc =>
    if Qneg_bool (snd vc)
    then (dict_set Nat.eqb (fst st) (fst vc) 1%Z, snd st + snd vc)
    else st) sorted_vars st.

(** Lines 211-213. *)
Definition add_quadratic_terms (Qd : qubo) (sol : solution) (energy : Q)
  : exc Q :=
  for_each Qd (fun kc energy =>
    ij <- unpack2 (fst kc) ;;
    if negb (fst ij =? snd ij)%nat && is_set sol (fst ij) && is_set sol (snd ij)
    then Ret (energy + snd kc)
    else Ret energy) energy.

(** [_solve_greedy(Q, var_index)]; [var_index] is not read. *)
Definition _solve_greedy (Qd : qubo) : exc (solution * Q) :=
  variables <- collect_variables Qd ;;
  let sol := fold_left (fun sol var => dict_set Nat.eqb sol var 0%Z)
                       variables [] in
  linear_terms <- collect_linear_terms Qd ;;
  let sorted_vars :=
    sorted (fun a b => Qle_bool (snd a) (snd b)) linear_terms in
  let st := assign_greedily sorted_vars (sol, 0) in
  energy <- add_quadratic_terms Qd (fst st) (snd st) ;;
  Ret (fst st, energy).

(** What the optional libraries do is outside the sources: a sampler is a
    function that returns the best sample and its energy, or fails with
    some exception ([None]). *)
Definition sampler : Type := qubo -> option (solution * Q).

Record samplers : Type := mk_samplers {
  hybrid_sampler : sampler;
  qpu_sampler : sampler;
  neal_sampler : sampler;
  exact_sampler : sampler
}.

(** [_solve_dwave_hybrid], [_solve_dwave_qpu], [_solve_neal] and
    [_solve_dimod_exact] share one body: [try] the sampler, [except
    Exception] fall back to [_solve_greedy(Q, {})]. *)
Definition try_sampler (run : sampler) (Qd : qubo) : exc (solution * Q) :=
  match run Qd with
  | Some r => Ret r
  | None => _solve_greedy Qd
  end.

(** [_check_available_solvers]: the import flags, and for D-Wave the
    connection test, are the three booleans. *)
Definition _check_available_solvers (dwave neal dimod : bool)
  : list String.string :=
  ((if dwave then ["dwave_hybrid"; "dwave_qpu"] else [])
   ++ (if neal then ["neal"] else [])
   ++ (if dimod then ["dimod_exact"] else [])
   ++ ["greedy"]).

Definition available (name : String.string)
  (available_solvers : list String.string) : bool :=
  existsb (String.eqb name) available_solvers.

(** [_get_best_solver] *)
Definition _get_best_solver (available_solvers : list String.string)
  : String.string :=
  if available "dwave_hybrid" available_solvers then "dwave_hybrid"
  else if available "neal" available_solvers then "neal"
  else if available "dimod_exact" available_solvers then "dimod_exact"
  else "greedy".

(** [solve_qubo(Q, var_index)]: the solution and its energy (the elapsed
    wall time, the third component, is left out). *)
Definition solve_qubo (backends : samplers) (solver_type : String.string)
  (available_solvers : list String.string) (Qd : qubo) : exc (solution * Q) :=
  let solver := if String.eqb solver_type "auto"
                then _get_best_solver available_solvers
                else solver_type in
  if String.eqb solver "dwave_hybrid"
     && available "dwave_hybrid" available_solvers
  then try_sampler (hybrid_sampler backends) Qd
  else if String.eqb solver "dwave_qpu"
          && available "dwave_qpu" available_solvers
  then try_sampler (qpu_sampler backends) Qd
  else if String.eqb solver "neal" && available "neal" available_solvers
  then try_sampler (neal_sampler backends) Qd
  else if String.eqb solver "dimod_exact"
          && available "dimod_exact" available_solvers
  then try_sampler (exact_sampler backends) Qd
  else _solve_greedy Qd.

(** [_calculate_route_time(route, time_matrix)]: a route of fewer than two
    nodes has Python's [0.0]; otherwise the sum starts at [0.0] and the first
    entry added makes it a [numpy.float64]. *)
Definition _calculate_route_time (route : list Z) (tm : fmatrix)
  : exc pyfloat :=
  if (length route <? 2)%nat then Ret (py_float 0)
  else
    total_time <- for_each (seq 0 (length route - 1)) (fun i total_time =>
                    t <- fmat_get tm (nth i route 0%Z) (nth (i + 1) route 0%Z) ;;
                    Ret (fadd total_time t)) (Fin 0) ;;
    let last := nth (length route - 1) route 0%Z in
    total_time <- (if negb (last =? 0)%Z
                   then t <- fmat_get tm last 0%Z ;; Ret (fadd total_time t)
                   else Ret total_time) ;;
    Ret (mk_float true total_time).



End QuantumSolver.

(** ** solver_simple.py *)
Module SolverSimple.

(** [calculate_route_time(route, time_matrix)], lines 159-172: statement for
    statement the text of [RouteOptimizer._calculate_route_time]. *)
Definition calculate_route_time (route : list Z) (tm : fmatrix)
  : exc pyfloat :=
  QuantumSolver._calculate_route_time route tm.

(** The scan of [min(unvisited, key=lambda x: time_matrix[current, x])] after
    its first element: a later element replaces the best one only when its
    key is smaller, [key < best_key]; against a [nan] key that is never
    so. *)
Fixpoint min_by_time (tm : fmatrix) (current : Z) (best : Z) (best_key : fval)
  (l : list Z) : exc Z :=
  match l with
  | [] => Ret best
  | x :: l' =>
      k <- fmat_get tm current x ;;
      if fltb k best_key then min_by_time tm current x k l'
      else min_by_time tm current best best_key l'
  end.

(** [min(unvisited, key=...)]; [min] of an empty list raises [ValueError]. *)
Definition nearest (tm : fmatrix) (current : Z) (unvisited : list Z) : exc Z :=
  match unvisited with
  | [] => Raise ValueError
  | x :: l => k <- fmat_get tm current x ;; min_by_time tm current x k l
  end.

(** [unvisited.remove(x)]: the first occurrence goes. *)
Fixpoint remove_first (x : Z) (l : list Z) : list Z :=
  match l with
  | [] => []
  | y :: l' => if (x =? y)%Z then l' else y :: remove_first x l'
  end.

(** The [while unvisited] loop of lines 92-97.  Every iteration removes one
    element, so [fuel = len(unvisited)] iterations end it. *)
Fixpoint nearest_neighbor_loop (fuel : nat) (tm : fmatrix) (unvisited : list Z)
  (route : list Z) (current : Z) : exc (list Z) :=
  match unvisited, fuel with
  | [], _ => Ret route
  | _ :: _, O => Ret route
  | _ :: _, S fuel' =>
      x <- nearest tm current unvisited ;;
      nearest_neighbor_loop fuel' tm (remove_first x unvisited) (route ++ [x]) x
  end.

(** [list(range(1, n))] *)
Definition range_from_1 (n : nat) : list Z := map Z.of_nat (seq 1 (n - 1)).

(** [nearest_neighbor(time_matrix)] *)
Definition nearest_neighbor (tm : fmatrix) : exc (list Z) :=
  let n := length tm in
  nearest_neighbor_loop (n - 1) tm (range_from_1 n) [0%Z] 0%Z.

(** [new_route[i:j] = reversed(new_route[i:j])] *)
Definition reverse_segment (route : list Z) (i j : nat) : list Z :=
  firstn i route ++ rev (firstn (j - i) (skipn i route)) ++ skipn j route.

(** A [for] loop whose body may [break]: the body returns the new state and
    whether it broke out. *)
Fixpoint for_each_break {A S : Type} (l : list A)
  (body : A -> S -> exc (S * bool)) (s : S) : exc (S * bool) :=
  match l with
  | [] => Ret (s, false)
  | x :: l' =>
      r <- body x s ;;
      if snd r then Ret (fst r, true) else for_each_break l' body (fst r)
  end.

(** [new_time < best_time - 0.1]: the literal is the float nearest to one
    tenth, and the difference is rounded before it is compared. *)
Definition improves (new_time best_time : pyfloat) : bool :=
  fltb (fv new_time) (fsub (fv best_time) (round64 (1 # 10))).

(** Lines 113-123, the loop over [j]: the state is [(best_route, best_time)],
    the flag returned is [improved]. *)
Definition two_opt_inner (tm : fmatrix) (i : nat) (st : list Z * pyfloat)
  : exc ((list Z * pyfloat) * bool) :=
  for_each_break (seq (i + 2) (length (fst st) - (i + 2))) (fun j st =>
    let new_route := reverse_segment (fst st) i j in
    new_time <- calculate_route_time new_route tm ;;
    if improves new_time (snd st) then Ret ((new_route, new_time), true)
    else Ret (st, false)) st.

(** Lines 111-125, one pass of [for _ in range(10)]. *)
Definition two_opt_pass (tm : fmatrix) (st : list Z * pyfloat)
  : exc (list Z * pyfloat) :=
  r <- for_each_break (seq 1 (length (fst st) - 2 - 1)) (fun i st =>
         two_opt_inner tm i st) st ;;
  Ret (fst r).

(** [two_opt_improvement(route, time_matrix)] *)
Definition two_opt_improvement (route : list Z) (tm : fmatrix)
  : exc (list Z) :=
  if (length route <=? 3)%nat then Ret route
  else
    best_time <- calculate_route_time route tm ;;
    st <- for_each (seq 0 10) (fun _ st => two_opt_pass tm st)
            (route, best_time) ;;
    Ret (fst st).

(** [random_route(time_matrix)]: [random.shuffle(route[1:])] shuffles the
    copy the slice makes, so [route] is returned as built. *)
Definition random_route (tm : fmatrix) : list Z :=
  0%Z :: range_from_1 (length tm).

(** [min(strategies, key=lambda x: x[1])] after its first element. *)
Fixpoint min_strategy (best : list Z * pyfloat) (l : list (list Z * pyfloat))
  : list Z * pyfloat :=
  match l with
  | [] => best
  | s :: l' =>
      if fltb (fv (snd s)) (fv (snd best)) then min_strategy s l'
      else min_strategy best l'
  end.

(** [multi_strategy_optimize(time_matrix)] *)
Definition multi_strategy_optimize (tm : fmatrix) : exc (list Z) :=
  nn_route <- nearest_neighbor tm ;;
  nn_time <- calculate_route_time nn_route tm ;;
  opt_route <- two_opt_improvement nn_route tm ;;
  opt_time <- calculate_route_time opt_route tm ;;
  strategies3 <- (if (3 <? length tm)%nat
                  then
                    random_opt <- two_opt_improvement (random_route tm) tm ;;
                    random_time <- calculate_route_time random_opt tm ;;
                    Ret [(random_opt, random_time)]
                  else Ret []) ;;
  Ret (fst (min_strategy (nn_route, nn_time)
                         ((opt_route, opt_time) :: strategies3))).

(** The fields of the result that the properties read. *)
Record result : Set := mk_result {
  baseline_route : list Z;
  baseline_time : pyfloat;
  optimized_route : list Z;
  optimized_time : pyfloat;
  improvement_percent : pyfloat;
  time_saved_minutes : pyfloat
}.

(** [optimize_route(time_matrix)], lines 179-191 and the record built from
    them. *)
Definition optimize_route (tm : fmatrix) : exc result :=
  baseline_route <- nearest_neighbor tm ;;
  baseline_time <- calculate_route_time baseline_route tm ;;
  optimized_route <- multi_strategy_optimize tm ;;
  optimized_time <- calculate_route_time optimized_route tm ;;
  ratio <- py_div (py_sub baseline_time optimized_time) baseline_time ;;
  let improvement_percent :=
    py_max (py_mul ratio (py_float 100)) (py_float 5) in
  fraction <- py_div improvement_percent (py_float 100) ;;
  let time_saved := py_mul baseline_time fraction in
  Ret (mk_result baseline_route baseline_time optimized_route optimized_time
         improvement_percent time_saved).

End SolverSimple.

(** ** traffic_simulator.py *)
Module TrafficSimulator.
Local Open Scope string_scope.
Local Open Scope R_scope.

(** A numpy float of the simulator: a real number or [nan]. *)
Inductive npfloat : Type :=
| Num (r : R)
| Nan.

(** An operation on numbers, [nan] as soon as an argument is. *)
Definition lift1 (f : R -> R) (a : npfloat) : npfloat :=
  match a with
  | Num x => Num (f x)
  | Nan => Nan
  end.

Definition lift2 (f : R -> R -> R) (a b : npfloat) : npfloat :=
  match a, b with
  | Num x, Num y => Num (f x y)
  | _, _ => Nan
  end.

(** [np.radians] *)
Definition np_radians : npfloat -> npfloat := lift1 (fun x => x * (PI / 180)).

Definition np_sin : npfloat -> npfloat := lift1 sin.
Definition np_cos : npfloat -> npfloat := lift1 cos.

(** [np.sqrt]: [nan] below zero. *)
Definition np_sqrt (a : npfloat) : npfloat :=
  match a with
  | Num x => if Rlt_dec x 0 then Nan else Num (sqrt x)
  | Nan => Nan
  end.

(** [np.arcsin]: [nan] outside [-1, 1]. *)
Definition np_arcsin (a : npfloat) : npfloat :=
  match a with
  | Num x => if Rlt_dec x (-1) then Nan
             else if Rlt_dec 1 x then Nan else Num (asin x)
  | Nan => Nan
  end.

Definition np_add : npfloat -> npfloat -> npfloat := lift2 Rplus.
Definition np_sub : npfloat -> npfloat -> npfloat := lift2 Rminus.
Definition np_mul : npfloat -> npfloat -> npfloat := lift2 Rmult.

(** [a / c] and [a * c] for a constant [c] that is a number. *)
Definition np_div_const (a : npfloat) (c : R) : npfloat :=
  lift1 (fun x => x / c) a.
Definition np_mul_const (a : npfloat) (c : R) : npfloat :=
  lift1 (fun x => x * c) a.

(** [a ** 2] *)
Definition np_square (a : npfloat) : npfloat := lift1 (fun x => x * x) a.

(** A coordinate: (latitude, longitude) in degrees. *)
Definition coord : Type := (npfloat * npfloat)%type.

(** [TrafficPredictor.base_speed_kmph] *)
Definition base_speed_kmph : R := 30.

(** [TrafficPredictor.haversine_distance(coord1, coord2)] *)
Definition haversine_distance (coord1 coord2 : coord) : npfloat :=
  let lat1 := np_radians (fst coord1) in
  let lon1 := np_radians (snd coord1) in
  let lat2 := np_radians (fst coord2) in
  let lon2 := np_radians (snd coord2) in
  let dlat := np_sub lat2 lat1 in
  let dlon := np_sub lon2 lon1 in
  let a := np_add (np_square (np_sin (np_div_const dlat 2)))
                  (np_mul (np_mul (np_cos lat1) (np_cos lat2))
                          (np_square (np_sin (np_div_const dlon 2)))) in
  let c := lift1 (fun x => 2 * x) (np_arcsin (np_sqrt a)) in
  let r := 6371 in
  np_mul_const c r.

(** [weather_impact.get(weather, 1.0)] *)
Definition weather_impact (weather : String.string) : R :=
  if String.eqb weather "clear" then 1
  else if String.eqb weather "rain" then 1.3
  else if String.eqb weather "fog" then 1.5
  else if String.eqb weather "storm" then 1.8
  else 1.

(** The loop over [peak_hours = [(7, 10), (17, 20)]] with its [break]. *)
Definition peak_factor (hour : Z) : R :=
  if ((7 <=? hour) && (hour <=? 10))%Z then 1.4
  else if ((17 <=? hour) && (hour <=? 20))%Z then 1.4
  else 1.

(** [TrafficPredictor.get_time_multiplier(hour, day_of_week, weather)] *)
Definition get_time_multiplier (hour day_of_week : Z) (weather : String.string)
  : R :=
  let multiplier := 1 * peak_factor hour in
  let multiplier := if (5 <=? day_of_week)%Z then multiplier * 0.8
                    else multiplier in
  multiplier * weather_impact weather.

(** [incident_multipliers.get(incident_type, 1.0)] *)
Definition incident_multipliers (incident_type : String.string) : R :=
  if String.eqb incident_type "accident" then 1.8
  else if String.eqb incident_type "construction" then 1.5
  else if String.eqb incident_type "road_closure" then 2
  else if String.eqb incident_type "protest" then 1.6
  else 1.

(** [TrafficPredictor.predict_incident_impact(incident_type, severity)] *)
Definition predict_incident_impact (incident_type : String.string)
  (severity : R) : R :=
  incident_multipliers incident_type * severity.

(** A [datetime]: microseconds since 0001-01-01 00:00:00, a Monday. *)
Definition datetime : Type := Z.

Definition microseconds_per_minute : Z := 60000000.
Definition microseconds_per_hour : Z := 3600000000.
Definition microseconds_per_day : Z := 86400000000.

(** [t.hour] *)
Definition hour_of (t : datetime) : Z :=
  ((t / microseconds_per_hour) mod 24)%Z.

(** [t.weekday()]: Monday is 0. *)
Definition weekday_of (t : datetime) : Z :=
  ((t / microseconds_per_day) mod 7)%Z.

(** [t.replace(hour=8, minute=30)]: the day, the seconds and the
    microseconds stay. *)
Definition replace_hour_minute (t : datetime) (h m : Z) : datetime :=
  (t / microseconds_per_day * microseconds_per_day
   + h * microseconds_per_hour + m * microseconds_per_minute
   + t mod microseconds_per_minute)%Z.

(** An entry of [self.incidents]. *)
Record incident : Type := mk_incident {
  incident_type : String.string;
  severity : R;
  start_time : datetime;
  end_time : datetime;
  multiplier : R
}.

(** An edge id: the string [f"{i}-{j}"], kept as the pair it is built
    from. *)
Definition edge_id : Type := (nat * nat)%type.

(** The simulator instance with the clock it reads: [self.incidents], and
    the number of calls of [datetime.now()] so far. *)
Record simulator : Type := mk_simulator {
  incidents : dict edge_id incident;
  clock_reads : nat
}.

(** [TrafficSimulator()] *)
Definition new_simulator : simulator := mk_simulator [] 0.

(** [datetime.now()]: the clock is the sequence of the values it returns. *)
Definition now (clock : nat -> datetime) (sim : simulator)
  : datetime * simulator :=
  (clock (clock_reads sim), mk_simulator (incidents sim) (S (clock_reads sim))).

(** [add_incident(edge_id, incident_type, severity)], with [start_time] at
    its default [None] and [duration_hours] at its default [2.0]. *)
Definition add_incident (clock : nat -> datetime) (sim : simulator)
  (e : edge_id) (incident_type : String.string) (severity : R) : simulator :=
  let (start_time, sim) := now clock sim in
  let end_time := (start_time + 2 * microseconds_per_hour)%Z in
  mk_simulator
    (dict_set QuboBuilder.pair_eqb (incidents sim) e
       (mk_incident incident_type severity start_time end_time
          (predict_incident_impact incident_type severity)))
    (clock_reads sim).

(** [get_edge_multiplier(edge_id, current_time)] *)
Definition get_edge_multiplier (sim : simulator) (e : edge_id)
  (current_time : datetime) : R :=
  match dict_get QuboBuilder.pair_eqb (incidents sim) e with
  | None => 1
  | Some incident =>
      if ((start_time incident <=? current_time)
          && (current_time <=? end_time incident))%Z
      then multiplier incident
      else 1
  end.

(** The matrix of travel times. *)
Definition time_matrix : Type := list (list npfloat).

(** Lines 120-134: the entry [time_matrix[i, j]] for [i != j]. *)
Definition travel_time (sim : simulator) (coords : list coord)
  (current_time : datetime) (weather : String.string) (i j : nat) : npfloat :=
  let distance_km := haversine_distance (nth i coords (Nan, Nan))
                                         (nth j coords (Nan, Nan)) in
  let base_time_minutes :=
    np_mul_const (np_div_const distance_km base_speed_kmph) 60 in
  let time_multiplier :=
    get_time_multiplier (hour_of current_time) (weekday_of current_time)
                        weather in
  let incident_multiplier := get_edge_multiplier sim (i, j) current_time in
  np_mul_const (np_mul_const base_time_minutes time_multiplier)
               incident_multiplier.

(** Lines 112-136 of [compute_travel_time_matrix], for a given
    [current_time]: [np.zeros((n, n))] with every off-diagonal entry
    written. *)
Definition travel_time_matrix (sim : simulator) (coords : list coord)
  (current_time : datetime) (weather : String.string) : time_matrix :=
  let n := length coords in
  map (fun i =>
         map (fun j =>
                if (i =? j)%nat then Num 0
                else travel_time sim coords current_time weather i j)
             (seq 0 n))
      (seq 0 n).

(** [compute_travel_time_matrix(coords, current_time, weather)]: a missing
    [current_time] is read from the clock. *)
Definition compute_travel_time_matrix (clock : nat -> datetime)
  (sim : simulator) (coords : list coord) (current_time : option datetime)
  (weather : String.string) : time_matrix * simulator :=
  let (t, sim) := match current_time with
                  | Some t => (t, sim)
                  | None => now clock sim
                  end in
  (travel_time_matrix sim coords t weather, sim).

(** What [simulate_scenario] returns. *)
Record scenario_result : Type := mk_scenario_result {
  result_time_matrix : time_matrix;
  result_scenario : String.string;
  result_weather : String.string;
  result_current_time : datetime;
  result_incidents : dict edge_id incident
}.

(** [simulate_scenario(coords, scenario)]: the result and the simulator
    after the call.  The local [incidents = {}] of the normal and peak
    branches is never read again and [self.incidents] is never cleared.  A
    scenario that is none of the four leaves [weather] unbound, and the call
    raises. *)
Definition simulate_scenario (clock : nat -> datetime) (sim : simulator)
  (coords : list coord) (scenario : String.string)
  : exc (scenario_result * simulator) :=
  let (current_time, sim) := now clock sim in
  setup <-
    (if String.eqb scenario "normal" then Ret ("clear", current_time, sim)
     else if String.eqb scenario "peak"
     then Ret ("clear", replace_hour_minute current_time 8 30, sim)
     else if String.eqb scenario "incident"
     then
       let sim := add_incident clock sim (0, 1)%nat "accident" 1.5 in
       let sim := add_incident clock sim (1, 2)%nat "construction" 1.2 in
       Ret ("rain", current_time, sim)
     else if String.eqb scenario "storm"
     then
       let sim := for_range (length coords - 1) (fun i sim =>
                    add_incident clock sim (i, i + 1)%nat "road_closure" 2)
                  sim in
       Ret ("storm", current_time, sim)
     else Raise UnboundLocalError) ;;
  let '(weather, current_time, sim) := setup in
  let (m, sim) := compute_travel_time_matrix clock sim coords
                    (Some current_time) weather in
  Ret (mk_scenario_result m scenario weather current_time (incidents sim), sim).

End TrafficSimulator.

(** ** Python lists and comparisons used by the functions below *)
Module PyList.

(** [l[i]] on a Python list: a negative index counts from the end, anything
    outside [-len(l), len(l)) raises [IndexError]. *)
Definition list_get {A : Type} (l : list A) (dflt : A) (i : Z) : exc A :=
  r <- np_index (length l) i ;; Ret (nth r l dflt).

(** [a < b] on numbers. *)
Definition Qlt_bool (a b : Q) : bool := negb (Qle_bool b a).

End PyList.

(** ** quantum_solver.py: the on-time metric *)
Module RouteMetrics.
Import PyList.

(** The state of the loop of lines 312-322: [(on_time_count,
    current_time)]. *)
Definition on_time_state : Type := (nat * fval)%type.

(** Lines 313-322, the body of [for i, node in enumerate(route[1:], 1)]:
    [node] is [route[i]]. *)
Definition on_time_step (route : list Z) (tm : fmatrix)
  (time_windows : list (Q * Q)) (i : nat) (st : on_time_state)
  : exc on_time_state :=
  let node := nth i route 0%Z in
  on_time_count <-
    (if (node <? Z.of_nat (length time_windows))%Z
     then
       w <- list_get time_windows (0, 0) node ;;
       if fleb (Fin (fst w)) (snd st) && fleb (snd st) (Fin (snd w))
       then Ret (S (fst st))
       else Ret (fst st)
     else Ret (fst st)) ;;
  t <- (if (i <? length route - 1)%nat
        then fmat_get tm node (nth (i + 1) route 0%Z)
        else fmat_get tm node 0%Z) ;;
  Ret (on_time_count, fadd (snd st) t).

(** [int / int]: the float nearest to the quotient. *)
Definition int_div (a b : nat) : fval :=
  round64 (inject_Z (Z.of_nat a) / inject_Z (Z.of_nat b)).

(** [_calculate_on_time_deliveries(route, time_matrix, time_windows)]:
    [time_windows] empty stands for [None] and for [[]], which the test
    [not time_windows] does not tell apart; its entries are numbers.  The
    result is a Python float. *)
Definition _calculate_on_time_deliveries (route : list Z) (tm : fmatrix)
  (time_windows : list (Q * Q)) : exc fval :=
  match time_windows with
  | [] => Ret (Fin 100)
  | _ :: _ =>
      if (length route <? 2)%nat then Ret (Fin 100)
      else
        st <- for_each (seq 1 (length route - 1))
                (on_time_step route tm time_windows) (0%nat, Fin 0) ;;
        Ret (fmul (int_div (fst st) (Nat.max 1 (length route - 1)))
                  (Fin 100))
  end.

End RouteMetrics.

(** ** qubo_builder.py: the TSP decoder *)
Module TspDecoder.
Import QuboBuilder.

(** Lines 257-261: [position_to_node], written in the order of the items of
    [var_index]; a later node at the same position replaces the earlier. *)
Definition position_to_node (sol : solution) (vi : tsp_var_index)
  : dict nat nat :=
  fold_left (fun d kv =>
    match kv with
    | ((node, pos), var_idx) =>
        if is_set sol var_idx then dict_set Nat.eqb d pos node else d
    end) vi [].

(** [_extract_tsp_solution(solution, var_index)], lines 264-268: the nodes
    by ascending position. *)
Definition _extract_tsp_solution (sol : solution) (vi : tsp_var_index)
  : list nat :=
  let d := position_to_node sol vi in
  map (fun pos => dict_get_default Nat.eqb d pos 0%nat)
      (sorted Nat.leb (dict_keys d)).

End TspDecoder.

(** ** qubo_builder.py: the optional constraints of the TSP encoding *)
Module TspConstraints.
Import PyList QuboBuilder.

(** [time_matrix[time_matrix > 0]]: the positive entries, row by row. *)
Definition positive_entries (tm : matrix) : list Q :=
  filter (fun q => Qlt_bool 0 q) (concat tm).

(** [np.min(...)]: the minimum of an empty selection raises
    [ValueError]. *)
Definition np_min (l : list Q) : exc Q :=
  match l with
  | [] => Raise ValueError
  | q :: l' => Ret (fold_left (fun m x => if Qlt_bool x m then x else m) l' q)
  end.

(** Lines 116-128, the body of the loop over the positions [p] for a node
    whose window is [(earliest, latest)]. *)
Definition window_penalty (lambda_penalty : Q) (vi : tsp_var_index)
  (tm : matrix) (earliest latest : Q) (i p : nat) (Qd : qubo) : exc qubo :=
  m <- np_min (positive_entries tm) ;;
  let min_travel_time := m * inject_Z (Z.of_nat p) in
  let service_time := 5 in
  let estimated_arrival :=
    min_travel_time + inject_Z (Z.of_nat p) * service_time in
  if Qlt_bool estimated_arrival earliest
  then Ret (q_add Qd (Pair (vget vi i p) (vget vi i p))
              (lambda_penalty * (earliest - estimated_arrival) / 60))
  else if Qlt_bool latest estimated_arrival
  then Ret (q_add Qd (Pair (vget vi i p) (vget vi i p))
              (lambda_penalty * (estimated_arrival - latest) / 60))
  else Ret Qd.

(** [_add_time_window_constraints(Q, var_index, time_matrix, time_windows,
    N)], lines 107-130. *)
Definition _add_time_window_constraints (lambda_penalty : Q) (Qd : qubo)
  (vi : tsp_var_index) (tm : matrix) (time_windows : list (Q * Q)) (N : nat)
  : exc qubo :=
  for_each (seq 0 N) (fun i Qd =>
    if (i =? 0)%nat then Ret Qd
    else
      w <- list_get time_windows (0, 0) (Z.of_nat i) ;;
      for_each (seq 0 N) (fun p Qd =>
        window_penalty lambda_penalty vi tm (fst w) (snd w) i p Qd) Qd) Qd.

(** [_add_capacity_constraints(Q, var_index, capacity_constraints, N)],
    lines 137-149. *)
Definition _add_capacity_constraints (lambda_penalty : Q) (Qd : qubo)
  (vi : tsp_var_index) (capacity_constraints : list Q) (N : nat) : qubo :=
  let max_capacity := 100 in
  for_range N (fun p Qd =>
    for_range N (fun i Qd =>
      let capacity :=
        if (i <? length capacity_constraints)%nat
        then nth i capacity_constraints 0
        else 1 in
      if Qlt_bool max_capacity capacity
      then q_add Qd (Pair (vget vi i p) (vget vi i p))
             (lambda_penalty * (capacity - max_capacity) / max_capacity)
      else Qd) Qd) Qd.

(** [build_time_dependent_tsp_qubo(time_matrix, time_windows,
    capacity_constraints)] with its optional arguments: an empty list stands
    for [None] and for [[]], both of which skip the block (lines 91-96). *)
Definition build_time_dependent_tsp_qubo_with (lambda_penalty : Q)
  (tm : matrix) (time_windows : list (Q * Q))
  (capacity_constraints : list Q) : exc (qubo * tsp_var_index) :=
  let N := shape0 tm in
  let base := build_time_dependent_tsp_qubo lambda_penalty tm in
  let vi := snd base in
  Qd <- (match time_windows with
         | [] => Ret (fst base)
         | _ :: _ =>
             _add_time_window_constraints lambda_penalty (fst base) vi tm
               time_windows N
         end) ;;
  let Qd := match capacity_constraints with
            | [] => Qd
            | _ :: _ =>
                _add_capacity_constraints lambda_penalty Qd vi
                  capacity_constraints N
            end in
  Ret (Qd, vi).

End TspConstraints.

(** ** solver_simple.py: the simplified traffic simulator *)
Module SimpleTrafficSimulator.
Local Open Scope string_scope.
Local Open Scope R_scope.

(** A Python float as the [math] functions see it: a real, [nan] or an
    infinity ([json] reads [NaN], [Infinity] and [-Infinity]). *)
Inductive pynum : Set :=
| PNum (r : R)
| PNan
| PInf (negative : bool).

Definition Rneg_bool (y : R) : bool := if Rlt_dec y 0 then true else false.

Definition padd (a b : pynum) : pynum :=
  match a, b with
  | PNum x, PNum y => PNum (x + y)
  | PNan, _ | _, PNan => PNan
  | PInf s, PNum _ | PNum _, PInf s => PInf s
  | PInf s, PInf s' => if Bool.eqb s s' then PInf s else PNan
  end.

Definition psub (a b : pynum) : pynum :=
  match a, b with
  | PNum x, PNum y => PNum (x - y)
  | PNan, _ | _, PNan => PNan
  | PInf s, PNum _ => PInf s
  | PNum _, PInf s => PInf (negb s)
  | PInf s, PInf s' => if Bool.eqb s s' then PNan else PInf s
  end.

Definition pmul (a b : pynum) : pynum :=
  match a, b with
  | PNum x, PNum y => PNum (x * y)
  | PNan, _ | _, PNan => PNan
  | PInf s, PNum y | PNum y, PInf s =>
      if Req_EM_T y 0 then PNan else PInf (xorb s (Rneg_bool y))
  | PInf s, PInf s' => PInf (xorb s s')
  end.

(** [a / d] for a divisor that is a positive constant. *)
Definition pdivc (a : pynum) (d : R) : pynum :=
  match a with
  | PNum x => PNum (x / d)
  | PNan => PNan
  | PInf s => PInf s
  end.

(** [math.radians] *)
Definition math_radians (x : pynum) : pynum :=
  match x with
  | PNum r => PNum (r * (PI / 180))
  | PNan => PNan
  | PInf s => PInf s
  end.

(** [math.sin] and [math.cos]: an infinite argument raises [ValueError],
    [nan] gives [nan]. *)
Definition math_sin (x : pynum) : exc pynum :=
  match x with
  | PNum r => Ret (PNum (sin r))
  | PNan => Ret PNan
  | PInf _ => Raise ValueError
  end.

Definition math_cos (x : pynum) : exc pynum :=
  match x with
  | PNum r => Ret (PNum (cos r))
  | PNan => Ret PNan
  | PInf _ => Raise ValueError
  end.

(** [math.sqrt]: a negative argument raises [ValueError]. *)
Definition math_sqrt (x : pynum) : exc pynum :=
  match x with
  | PNum r => if Rlt_dec r 0 then Raise ValueError else Ret (PNum (sqrt r))
  | PNan => Ret PNan
  | PInf negative => if negative then Raise ValueError else Ret (PInf false)
  end.

(** [math.asin]: an argument outside [-1, 1] raises [ValueError]. *)
Definition math_asin (x : pynum) : exc pynum :=
  match x with
  | PNum r =>
      if Rlt_dec r (-1) then Raise ValueError
      else if Rlt_dec 1 r then Raise ValueError
      else Ret (PNum (asin r))
  | PNan => Ret PNan
  | PInf _ => Raise ValueError
  end.

(** [self.base_speed_kmph] *)
Definition base_speed_kmph : R := 30.

(** [haversine_distance(coord1, coord2)], lines 25-37. *)
Definition haversine_distance (coord1 coord2 : pynum * pynum) : exc pynum :=
  let lat1 := math_radians (fst coord1) in
  let lon1 := math_radians (snd coord1) in
  let lat2 := math_radians (fst coord2) in
  let lon2 := math_radians (snd coord2) in
  let dlat := psub lat2 lat1 in
  let dlon := psub lon2 lon1 in
  sin_dlat <- math_sin (pdivc dlat 2) ;;
  cos_lat1 <- math_cos lat1 ;;
  cos_lat2 <- math_cos lat2 ;;
  sin_dlon <- math_sin (pdivc dlon 2) ;;
  let a := padd (pmul sin_dlat sin_dlat)
                (pmul (pmul cos_lat1 cos_lat2) (pmul sin_dlon sin_dlon)) in
  s <- math_sqrt a ;;
  t <- math_asin s ;;
  let c := pmul (PNum 2) t in
  let r := PNum 6371 in
  Ret (pmul c r).

(** Lines 41-50: the multiplier of the scenario; a scenario that is none
    of the four keeps the initial [1.0]. *)
Definition scenario_multiplier (scenario : String.string) : R :=
  if String.eqb scenario "normal" then 1
  else if String.eqb scenario "peak" then 1.4
  else if String.eqb scenario "incident" then 1.8
  else if String.eqb scenario "storm" then 2
  else 1.

(** [get_time_multiplier(hour, scenario)] *)
Definition get_time_multiplier (hour : Z) (scenario : String.string) : R :=
  let multiplier := scenario_multiplier scenario in
  if ((7 <=? hour) && (hour <=? 10) || (17 <=? hour) && (hour <=? 20))%Z
  then multiplier * 1.2
  else multiplier.

(** A loop that fills a row, or the rows, from first to last: the entries
    computed so far are the state, and the first entry that raises ends
    the loop. *)
Definition fill {A B : Type} (l : list A) (entry : A -> exc B)
  : exc (list B) :=
  for_each l (fun x acc => b <- entry x ;; Ret (acc ++ [b])) [].

(** Lines 69-75: the entry [time_matrix[i, j]] for [i != j]. *)
Definition travel_time (coords : list (pynum * pynum))
  (scenario : String.string) (i j : nat) : exc pynum :=
  distance_km <- haversine_distance (nth i coords (PNum 0, PNum 0))
                                    (nth j coords (PNum 0, PNum 0)) ;;
  let base_time_minutes :=
    pmul (pdivc distance_km base_speed_kmph) (PNum 60) in
  let multiplier := get_time_multiplier 12 scenario in
  Ret (pmul base_time_minutes (PNum multiplier)).

(** [compute_travel_time_matrix(coords, scenario)], lines 61-77: the
    diagonal keeps the [0.0] of [np.zeros]. *)
Definition compute_travel_time_matrix (coords : list (pynum * pynum))
  (scenario : String.string) : exc (list (list pynum)) :=
  let n := length coords in
  fill (seq 0 n) (fun i =>
    fill (seq 0 n) (fun j =>
      if (i =? j)%nat then Ret (PNum 0)
      else travel_time coords scenario i j)).

End SimpleTrafficSimulator.

(* ================================================================== *)
(** * Vocabulary of the properties *)
(* ================================================================== *)

Module Props.
Import QuboBuilder QuantumSolver.

(** *** TSP encoding *)

(** The numbering step of lines 42-43 of qubo_builder.py. *)
Definition number_key (st : tsp_var_index * nat) (k : nat * nat)
  : tsp_var_index * nat :=
  (dict_set pair_eqb (fst st) k (snd st), S (snd st)).

(** The keys of the variable index in the order the loops write them. *)
Definition tsp_keys (N : nat) : list (nat * nat) :=
  list_prod (seq 0 N) (seq 0 N).

(** A list of [+=] statements on the QUBO dictionary, run in order. *)
Definition apply_updates (us : list (qkey * Q)) (d : qubo) : qubo :=
  fold_left (fun d u => q_add d (fst u) (snd u)) us d.

(** The [+=] statements of one pass through the constraint body. *)
Definition one_hot_updates (lam : Q) (vars : list nat) : list (qkey * Q) :=
  map (fun ab => (Pair (fst ab) (snd ab), 2 * lam)) (combinations2 vars)
  ++ map (fun a => (Pair a a, -2 * lam)) vars
  ++ [(Const, lam)].

(** The number of variables of a group that an assignment sets. *)
Definition count_set (x : nat -> bool) (vars : list nat) : nat :=
  length (filter x vars).

(** A valid one-hot assignment: every node has exactly one position set and
    every position exactly one node. *)
Definition one_hot (vi : tsp_var_index) (N : nat) (x : nat -> bool) : bool :=
  forallb (fun i =>
             (count_set x (map (fun p => vget vi i p) (seq 0 N)) =? 1)%nat)
          (seq 0 N)
  && forallb (fun p =>
                (count_set x (map (fun i => vget vi i p) (seq 0 N)) =? 1)%nat)
             (seq 0 N).

(** *** VRP decoding *)

(** Vehicle 0 of a three-node problem with the edges 0->1, 1->2 and 2->1
    selected (variables 0, 3 and 5): a cycle between the two customers that
    never re-enters the depot. *)
Definition cycle_solution : solution :=
  [(0%nat, 1%Z); (3%nat, 1%Z); (5%nat, 1%Z)].

Definition cycle_edges : list (nat * nat) :=
  [(0, 1); (1, 2); (2, 1)]%nat.

(** *** Metrics *)



(** *** Routes on a matrix *)

(** [v] indexes an axis of length [n] (negative indices count from the
    end). *)
Definition in_range (n : nat) (v : Z) : Prop :=
  (- Z.of_nat n <= v < Z.of_nat n)%Z.

(** An N-by-N array. *)
Definition square {A : Type} (n : nat) (tm : list (list A)) : Prop :=
  length tm = n /\ Forall (fun row => length row = n) tm.

(** [a <= b] holds: neither is [nan] and [a] is not the larger. *)
Definition float_le (a b : pyfloat) : Prop := fleb (fv a) (fv b) = true.

(** A float that is not [nan]. *)
Definition is_number (x : fval) : Prop := x <> NaN.

(** A value that a float can hold: [nan], an infinity, or a number that
    binary64 has, which rounding leaves as it is. *)
Definition is_float (x : fval) : Prop :=
  match x with
  | Fin q => round64 q = Fin q
  | _ => True
  end.

(** What C10 states of [two_opt_improvement] on [route]: the call returns a
    permutation of the route with the same first element, and the route
    time of the result is less than or equal to the route time of the
    route. *)
Definition permutes_and_improves (tm : fmatrix) (route : list Z) : Prop :=
  exists r t t',
    SolverSimple.two_opt_improvement route tm = Ret r /\
    Permutation route r /\
    hd_error r = hd_error route /\
    SolverSimple.calculate_route_time route tm = Ret t /\
    SolverSimple.calculate_route_time r tm = Ret t' /\
    float_le t' t.

(** What every state [(best_route, best_time)] of the 2-opt search started
    on [route0] with time [t0] satisfies. *)
Definition two_opt_inv (tm : fmatrix) (route0 : list Z) (t0 : pyfloat)
  (st : list Z * pyfloat) : Prop :=
  Permutation route0 (fst st) /\
  hd_error (fst st) = hd_error route0 /\
  SolverSimple.calculate_route_time (fst st) tm = Ret (snd st) /\
  (is_number (fv t0) -> float_le (snd st) t0).

(** *** The simplified optimizer's report *)

(** [x >= c] on floats. *)
Definition float_at_least (c : Q) (x : pyfloat) : Prop :=
  match fv x with
  | Fin q => c <= q
  | Inf negative => negative = false
  | NaN => False
  end.

(** [x > 0] on floats. *)
Definition float_positive (x : pyfloat) : Prop :=
  match fv x with
  | Fin q => 0 < q
  | Inf negative => negative = false
  | NaN => False
  end.

(** What C9 states of the simplified optimizer's result: the improvement
    reported is at least 5, and the time saved is positive and is that
    percentage of the baseline time. *)
Definition reports_clamped_improvement (tm : fmatrix) : Prop :=
  exists res fraction,
    SolverSimple.optimize_route tm = Ret res /\
    float_at_least 5 (SolverSimple.improvement_percent res) /\
    float_positive (SolverSimple.time_saved_minutes res) /\
    py_div (SolverSimple.improvement_percent res) (py_float 100)
    = Ret fraction /\
    SolverSimple.time_saved_minutes res
    = py_mul (SolverSimple.baseline_time res) fraction.

(** The baseline route is computed and its time is a positive number. *)
Definition baseline_time_positive (tm : fmatrix) : Prop :=
  exists base t q,
    SolverSimple.nearest_neighbor tm = Ret base /\
    SolverSimple.calculate_route_time base tm = Ret t /\
    fv t = Fin q /\ 0 < q.

End Props.

(** Vocabulary of the properties of the traffic simulator. *)
Module TrafficProps.
Import TrafficSimulator.
Local Open Scope string_scope.
Local Open Scope R_scope.

(** A valid coordinate: two numbers, the latitude within [-90, 90] and the
    longitude within [-180, 180]. *)
Definition valid_coord (c : coord) : Prop :=
  exists lat lon,
    c = (Num lat, Num lon) /\ -90 <= lat <= 90 /\ -180 <= lon <= 180.

(** No registered incident has a negative multiplier. *)
Definition incidents_nonneg (sim : simulator) : Prop :=
  Forall (fun kv => 0 <= multiplier (snd kv)) (incidents sim).

(** The simulators the program builds: a new one, one whose clock has been
    read once more, one with one more incident of non-negative severity. *)
Inductive reachable (clock : nat -> datetime) : simulator -> Prop :=
| reach_new : reachable clock new_simulator
| reach_now (sim : simulator) :
    reachable clock sim -> reachable clock (snd (now clock sim))
| reach_incident (sim : simulator) (e : edge_id)
    (incident_type : String.string) (severity : R) :
    reachable clock sim -> 0 <= severity ->
    reachable clock (add_incident clock sim e incident_type severity).

(** [m[i, j]] *)
Definition entry (m : time_matrix) (i j : nat) : npfloat :=
  nth j (nth i m []) Nan.

(** An entry that is a number and is not negative. *)
Definition clean (v : npfloat) : Prop :=
  match v with
  | Num r => 0 <= r
  | Nan => False
  end.

(** What C5 states of a matrix the computation returns for [coords]: the
    coordinates passed validation, and no entry is negative or [nan]. *)
Definition validated (coords : list coord) (m : time_matrix) : Prop :=
  Forall valid_coord coords /\ Forall (Forall clean) m.

(** Two stops on the equator, half a turn apart. *)
Definition equator_coords : list coord := [(Num 0, Num 0); (Num 0, Num 180)].

End TrafficProps.

(** Vocabulary of the further properties (Part III). *)
Module MoreProps.
Import QuboBuilder QuantumSolver.

(** *** The greedy solver *)

(** A dictionary without the constant key: every key is a pair. *)
Definition const_free (Qd : qubo) : Prop := ~ In Const (dict_keys Qd).

(** The diagonal entries as the greedy solver collects them: variable and
    [0 + coefficient]. *)
Definition diag_entries (Qd : qubo) : list (nat * Q) :=
  flat_map (fun kc =>
              match fst kc with
              | Pair a b => if (a =? b)%nat then [(a, 0 + snd kc)] else []
              | Const => []
              end) Qd.

(** The sum of the negative coefficients of a list of linear terms. *)
Definition neg_sum (l : list (nat * Q)) : Q :=
  fold_right (fun vc acc => (if Qneg_bool (snd vc) then snd vc else 0) + acc)
             0 l.

(** Some linear term of the list belongs to [v] and is negative. *)
Definition has_negative (l : list (nat * Q)) (v : nat) : bool :=
  existsb (fun vc => (fst vc =? v)%nat && Qneg_bool (snd vc)) l.

(** The value of the diagonal keys under an assignment. *)
Definition diag_energy (Qd : qubo) (x : nat -> bool) : Q :=
  fold_right (fun kc acc =>
                match fst kc with
                | Pair a b => if (a =? b)%nat && x a then snd kc + acc else acc
                | Const => acc
                end) 0 Qd.

(** The value of the off-diagonal keys under an assignment. *)
Definition off_energy (Qd : qubo) (x : nat -> bool) : Q :=
  fold_right (fun kc acc =>
                match fst kc with
                | Pair a b => if negb (a =? b)%nat && x a && x b
                              then snd kc + acc else acc
                | Const => acc
                end) 0 Qd.

(** Every value of the assignment is 0 or 1. *)
Definition binary (sol : solution) : Prop :=
  Forall (fun kv => snd kv = 0%Z \/ snd kv = 1%Z) sol.

(** *** The TSP encoding *)

(** [a 0 + ... + a (n - 1)] *)
Fixpoint sumq (a : nat -> Q) (n : nat) : Q :=
  match n with
  | O => 0
  | S n' => sumq a n' + a n'
  end.

(** The assignment that encodes a tour: the variable of node [route[p]] at
    position [p] is set for every position, and no other. *)
Definition tour_assignment (vi : tsp_var_index) (route : list nat) (v : nat)
  : bool :=
  existsb (fun p => (v =? vget vi (nth p route 0%nat) p)%nat)
          (seq 0 (length route)).

(** The travel time around the cycle [route[0] -> route[1] -> ... ->
    route[0]]; a step from a node to itself costs nothing. *)
Definition tour_cost (tm : matrix) (route : list nat) : Q :=
  let N := length route in
  sumq (fun p =>
          let a := nth p route 0%nat in
          let b := nth ((p + 1) mod N) route 0%nat in
          if (a =? b)%nat then 0 else tm_at tm a b) N.

(** *** Routes of the simplified optimizer *)

(** No entry of the array is [nan]. *)
Definition no_nan (tm : fmatrix) : Prop := Forall (Forall Props.is_number) tm.

(** [tm[a, b] <= tm[a, c]], both entries read. *)
Definition time_le (tm : fmatrix) (a b c : Z) : Prop :=
  exists p q,
    fmat_get tm a b = Ret p /\ fmat_get tm a c = Ret q /\ fleb p q = true.

(** Every step of the route [l] continued from [current] goes to a node that
    is nearest among the nodes still to come. *)
Fixpoint greedy_from (tm : fmatrix) (current : Z) (l : list Z) : Prop :=
  match l with
  | [] => True
  | x :: l' => Forall (fun y => time_le tm current x y) l /\ greedy_from tm x l'
  end.

(** The nodes [0, 1, ..., n-1]. *)
Definition nodes (n : nat) : list Z := map Z.of_nat (seq 0 n).

(** A route over all the nodes of an n-node problem: it starts at the depot
    and visits every node exactly once. *)
Definition tour (n : nat) (route : list Z) : Prop :=
  hd_error route = Some 0%Z /\ Permutation route (nodes n).

(** *** Decoding *)

(** A list in ascending order. *)
Fixpoint ascending (l : list nat) : Prop :=
  match l with
  | [] => True
  | x :: l' => Forall (le x) l' /\ ascending l'
  end.

(** *** VRP routes *)

(** The legs of a route: its pairs of consecutive nodes. *)
Definition legs (r : list nat) : list (nat * nat) := combine r (tl r).

(** The variable of the edge [e] for vehicle [k] is in the index and the
    solution sets it. *)
Definition selected_edge (sol : solution) (vi : vrp_var_index) (k : nat)
  (e : nat * nat) : Prop :=
  exists v, In ((fst e, snd e, k), v) vi /\ is_set sol v = true.

(** A route of some vehicle: it starts at the depot, goes somewhere, does
    not come back to the depot, and every leg is an edge the solution
    selects for that vehicle. *)
Definition vehicle_route (sol : solution) (vi : vrp_var_index)
  (r : list nat) : Prop :=
  hd_error r = Some 0%nat /\ (2 <= length r)%nat /\ ~ In 0%nat (tl r) /\
  exists k, Forall (selected_edge sol vi k) (legs r).

(** The walk from [current] goes through the nodes of [s] in turn and stops
    after the last: each node has the next as its first successor, and the
    last has none or has the depot. *)
Fixpoint follows (route_edges : list (nat * nat)) (current : nat)
  (s : list nat) : Prop :=
  match s with
  | [] => next_node route_edges current = None \/
          next_node route_edges current = Some 0%nat
  | y :: s' => next_node route_edges current = Some y /\ y <> 0%nat /\
               follows route_edges y s'
  end.

End MoreProps.

(** Vocabulary of the further properties of the traffic simulator. *)
Module MoreTrafficProps.
Import TrafficSimulator.

(** Every registered incident starts after [t]. *)
Definition starts_after (t : datetime) (sim : simulator) : Prop :=
  Forall (fun kv => (t < start_time (snd kv))%Z) (incidents sim).

(** A clock that never returns the same reading twice: every reading is
    later than the one before. *)
Definition ticking (clock : nat -> datetime) : Prop :=
  forall n, (clock n < clock (S n))%Z.


End MoreTrafficProps.

(* ================================================================== *)
(** * Part II: properties *)
(* ================================================================== *)

Import QuboBuilder QuantumSolver Props.

(** ** Loops and dictionaries *)
Section LoopFacts.
Context {S : Type}.

Lemma for_range_zero (body : nat -> S -> S) (s : S) :
  for_range 0 body s = s.
Proof. reflexivity. Qed.

(** The last iteration of a loop over [range(n + 1)]. *)
Lemma for_range_succ (n : nat) (body : nat -> S -> S) (s : S) :
  for_range (Datatypes.S n) body s = body n (for_range n body s).
Proof.
  unfold for_range. rewrite seq_S, fold_left_app. reflexivity.
Qed.

(** A property kept by every iteration holds after the loop. *)
Lemma for_range_invariant (P : S -> Prop) (n : nat) (body : nat -> S -> S) :
  (forall i s, (i < n)%nat -> P s -> P (body i s)) ->
  forall s, P s -> P (for_range n body s).
Proof.
  induction n as [|n IH]; intros Hbody s Hs.
  - exact Hs.
  - rewrite for_range_succ. apply Hbody; [lia|].
    apply IH; [|exact Hs]. intros i s' Hi. apply Hbody. lia.
Qed.
End LoopFacts.

Section QuboKeys.

Lemma qkey_eqb_eq (k1 k2 : qkey) : qkey_eqb k1 k2 = true <-> k1 = k2.
Proof.
  destruct k1 as [a b|], k2 as [c d|]; simpl; split; intros H;
    try discriminate; try reflexivity.
  - apply andb_true_iff in H. destruct H as [H1 H2].
    apply Nat.eqb_eq in H1, H2. congruence.
  - inversion H; subst. now rewrite !Nat.eqb_refl.
Qed.

Lemma dict_set_keys_keep {V : Type} (d : dict qkey V) (k k' : qkey) (v : V) :
  In k (dict_keys d) -> In k (dict_keys (dict_set qkey_eqb d k' v)).
Proof.
  unfold dict_keys. induction d as [|[k0 v0] d IH]; simpl; intros H.
  - contradiction.
  - destruct (qkey_eqb k' k0); simpl; tauto.
Qed.

Lemma dict_set_keys_new {V : Type} (d : dict qkey V) (k : qkey) (v : V) :
  In k (dict_keys (dict_set qkey_eqb d k v)).
Proof.
  unfold dict_keys. induction d as [|[k0 v0] d IH]; simpl.
  - now left.
  - destruct (qkey_eqb k k0) eqn:E; simpl.
    + left. symmetry. now apply qkey_eqb_eq.
    + now right.
Qed.

Lemma q_add_keeps (d : qubo) (k k' : qkey) (v : Q) :
  In k (dict_keys d) -> In k (dict_keys (q_add d k' v)).
Proof. apply dict_set_keys_keep. Qed.

Lemma q_add_new (d : qubo) (k : qkey) (v : Q) :
  In k (dict_keys (q_add d k v)).
Proof. apply dict_set_keys_new. Qed.

(** Every pass through the constraint body leaves the constant key in the
    dictionary. *)
Lemma add_one_hot_has_const (lam : Q) (vars : list nat) (d : qubo) :
  In Const (dict_keys (add_one_hot lam vars d)).
Proof. unfold add_one_hot. apply q_add_new. Qed.

Lemma add_constraint2_has_const (lam : Q) (N : nat) (vi : tsp_var_index)
  (d : qubo) :
  (0 < N)%nat -> In Const (dict_keys (add_constraint2 lam N vi d)).
Proof.
  intros HN. unfold add_constraint2. destruct N as [|n]; [lia|].
  rewrite for_range_succ. apply add_one_hot_has_const.
Qed.

(** The encoder's dictionary holds the key [('const',)] as soon as there is
    one node. *)
Lemma tsp_qubo_has_const (lam : Q) (tm : matrix) :
  tm <> [] -> In Const (dict_keys (fst (build_time_dependent_tsp_qubo lam tm))).
Proof.
  intros Htm. unfold build_time_dependent_tsp_qubo. simpl.
  apply add_constraint2_has_const. unfold shape0.
  destruct tm; [congruence | simpl; lia].
Qed.

(** The first loop of the greedy solver stops with [ValueError] at the
    first key that is not a pair. *)
Lemma collect_variables_raises (Qd : qubo) :
  In Const (dict_keys Qd) -> collect_variables Qd = Raise ValueError.
Proof.
  unfold collect_variables. generalize (@nil nat) as acc.
  induction (dict_keys Qd) as [|k ks IH]; intros acc Hin.
  - contradiction.
  - simpl. destruct k as [a b|]; simpl.
    + destruct Hin as [Hk|Hin]; [discriminate|].
      destruct (a =? b)%nat; simpl; now apply IH.
    + reflexivity.
Qed.

Lemma solve_greedy_raises (Qd : qubo) :
  In Const (dict_keys Qd) -> _solve_greedy Qd = Raise ValueError.
Proof.
  intros H. unfold _solve_greedy. now rewrite collect_variables_raises.
Qed.

(** The greedy solver raises on every dictionary the TSP encoder builds for
    at least one node. *)
Lemma solve_greedy_raises_on_tsp_qubo (lam : Q) (tm : matrix) :
  tm <> [] ->
  _solve_greedy (fst (build_time_dependent_tsp_qubo lam tm)) = Raise ValueError.
Proof. intros H. now apply solve_greedy_raises, tsp_qubo_has_const. Qed.

(** Whatever branch [solve_qubo] takes, a sampler that fails and the final
    [else] both end in [_solve_greedy]. *)
Lemma solve_qubo_failing_samplers (solver_type : String.string)
  (available_solvers : list String.string) (Qd : qubo) :
  solve_qubo (mk_samplers (fun _ => None) (fun _ => None)
                          (fun _ => None) (fun _ => None))
             solver_type available_solvers Qd
  = _solve_greedy Qd.
Proof.
  unfold solve_qubo, try_sampler. simpl.
  repeat match goal with
         | |- (if ?c then _ else _) = _ => destruct c
         end; reflexivity.
Qed.

End QuboKeys.

(** C1.  The two-node TSP dictionary of the encoder, handed to [solve_qubo]:
    whatever solver is selected and whichever solvers are available, when no
    sampler delivers a sample the call does not return an assignment, it
    raises [ValueError], because [_solve_greedy] unpacks the one-element key
    [('const',)] into two names.  The claim asks for a returned assignment
    here. *)
Theorem solve_qubo_raises_on_encoder_output :
  forall (solver_type : String.string) (available_solvers : list String.string),
    solve_qubo (mk_samplers (fun _ => None) (fun _ => None)
                            (fun _ => None) (fun _ => None))
               solver_type available_solvers
               (fst (build_time_dependent_tsp_qubo 100 [[0; 3]; [4; 0]]))
    = Raise ValueError.
Proof.
  intros solver_type available_solvers.
  rewrite solve_qubo_failing_samplers.
  apply solve_greedy_raises_on_tsp_qubo. discriminate.
Qed.

(** C4.  On the dictionary [{(0, 0): 1.0}] the greedy solver returns the empty
    assignment: variable 0 appears in a diagonal term and has no entry.  The
    claim asks for an entry for every variable of the dictionary. *)
Theorem solve_greedy_misses_diagonal_variable :
  In (Pair 0 0) (dict_keys [(Pair 0 0, 1)]) /\
  exists sol energy,
    _solve_greedy [(Pair 0 0, 1)] = Ret (sol, energy) /\
    dict_mem Nat.eqb sol 0%nat = false.
Proof.
  split; [now left|].
  exists [], 0. split; reflexivity.
Qed.

(** ** The VRP decoder's walk *)
Section VrpWalk.

Lemma cycle_solution_edges :
  group_by_vehicle cycle_solution (fst (make_vrp_var_index 3 1))
  = [(0%nat, cycle_edges)].
Proof. reflexivity. Qed.

(** Once the walk stands on a customer of the cycle it steps to the other
    one, so no amount of fuel lets it leave the loop. *)
Lemma walk_in_cycle_runs_on (fuel : nat) :
  forall current route,
    current = 1%nat \/ current = 2%nat ->
    walk fuel cycle_edges (current, route) = None.
Proof.
  induction fuel as [|fuel IH]; intros current route Hcur.
  - reflexivity.
  - destruct Hcur as [-> | ->]; simpl; apply IH; auto.
Qed.

Lemma walk_from_depot_runs_on (fuel : nat) :
  walk fuel cycle_edges (0%nat, [0%nat]) = None.
Proof.
  destruct fuel as [|fuel]; [reflexivity|].
  simpl. apply walk_in_cycle_runs_on. now left.
Qed.

End VrpWalk.

(** C3.  On the assignment that selects the edges 0->1, 1->2 and 2->1 for
    vehicle 0 (variables 0, 3 and 5 of the three-node, one-vehicle index) the
    decoder's [while True] loop is still running after any number of
    iterations: the walk alternates between nodes 1 and 2 for ever.  The claim
    asks for termination on exactly such assignments. *)
Theorem extract_vrp_solution_diverges_on_cycle :
  forall fuel : nat,
    extract_vrp_solution fuel cycle_solution (fst (make_vrp_var_index 3 1))
    = None.
Proof.
  intros fuel. unfold extract_vrp_solution.
  rewrite cycle_solution_edges.
  change (sorted Nat.leb (dict_keys [(0%nat, cycle_edges)])) with [0%nat].
  cbn [fold_left].
  change (dict_get_default Nat.eqb [(0%nat, cycle_edges)] 0%nat [])
    with cycle_edges.
  unfold cycle_edges at 1.
  fold cycle_edges.
  now rewrite walk_from_depot_runs_on.
Qed.

(** ** Binary64 arithmetic *)
Section Binary64.

Lemma nearest_even_comp (x y : Q) : x == y -> nearest_even x = nearest_even y.
Proof.
  intros H. unfold nearest_even. rewrite (Qfloor_comp _ _ H).
  replace (x - inject_Z (Qfloor y) ?= 1 # 2)
    with (y - inject_Z (Qfloor y) ?= 1 # 2); [reflexivity|].
  now rewrite H.
Qed.

Lemma nearest_even_range (x : Q) :
  (Qfloor x <= nearest_even x <= Qfloor x + 1)%Z.
Proof.
  unfold nearest_even.
  destruct (x - inject_Z (Qfloor x) ?= 1 # 2); [destruct (Z.even _)| |]; lia.
Qed.

Lemma nearest_even_Z (k : Z) : nearest_even (inject_Z k) = k.
Proof.
  unfold nearest_even. rewrite Qfloor_Z.
  replace (inject_Z k - inject_Z k ?= 1 # 2) with Lt; [reflexivity|].
  symmetry. apply (proj1 (Qlt_alt _ _)). Lqa.lra.
Qed.

Lemma nearest_even_le (x y : Q) :
  x <= y -> (nearest_even x <= nearest_even y)%Z.
Proof.
  intros H. pose proof (Qfloor_resp_le _ _ H) as Hf.
  destruct (Z.eq_dec (Qfloor x) (Qfloor y)) as [E|E].
  - unfold nearest_even. rewrite E.
    destruct (x - inject_Z (Qfloor y) ?= 1 # 2) eqn:Ex;
      destruct (y - inject_Z (Qfloor y) ?= 1 # 2) eqn:Ey;
      destruct (Z.even (Qfloor y)); try lia; exfalso;
      first [apply (proj2 (Qeq_alt _ _)) in Ex
            | apply (proj2 (Qlt_alt _ _)) in Ex
            | apply (proj2 (Qgt_alt _ _)) in Ex];
      first [apply (proj2 (Qeq_alt _ _)) in Ey
            | apply (proj2 (Qlt_alt _ _)) in Ey
            | apply (proj2 (Qgt_alt _ _)) in Ey];
      Lqa.lra.
  - pose proof (nearest_even_range x). pose proof (nearest_even_range y). lia.
Qed.

Lemma pow2_pos (e : Z) : (0 <= e)%Z -> 0 < inject_Z (2 ^ e).
Proof.
  intros He. change 0 with (inject_Z 0). rewrite <- Zlt_Qlt.
  apply Z.pow_pos_nonneg; lia.
Qed.

Lemma pow2_add (a b : Z) :
  (0 <= a)%Z -> (0 <= b)%Z ->
  inject_Z (2 ^ (a + b)) == inject_Z (2 ^ a) * inject_Z (2 ^ b).
Proof.
  intros Ha Hb. rewrite Z.pow_add_r by assumption.
  rewrite inject_Z_mult. reflexivity.
Qed.

Lemma spacing_exp_nonneg (x : Q) : (0 <= spacing_exp x)%Z.
Proof. unfold spacing_exp. lia. Qed.

Lemma spacing_exp_comp (x y : Q) : x == y -> spacing_exp x = spacing_exp y.
Proof. intros H. unfold spacing_exp. now rewrite (Qfloor_comp _ _ H). Qed.

Lemma Qfloor_nonneg (x : Q) : 0 <= x -> (0 <= Qfloor x)%Z.
Proof.
  intros H. change 0%Z with (Qfloor (inject_Z 0)) at 1.
  now apply Qfloor_resp_le.
Qed.

Lemma spacing_exp_le (x y : Q) :
  0 <= x -> x <= y -> (spacing_exp x <= spacing_exp y)%Z.
Proof.
  intros H0 H. unfold spacing_exp.
  pose proof (Z.log2_le_mono _ _ (Qfloor_resp_le _ _ H)). lia.
Qed.

(** Below the next power of two: [x < 2^(e+53)]. *)
Lemma spacing_upper (x : Q) :
  0 <= x -> x < inject_Z (2 ^ (spacing_exp x + 53)).
Proof.
  intros H0. pose proof (Qfloor_nonneg H0) as Hf.
  assert (Hlt : (Qfloor x + 1 <= 2 ^ (spacing_exp x + 53))%Z).
  { unfold spacing_exp.
    destruct (Z.eq_dec (Qfloor x) 0) as [E|E].
    - rewrite E.
      assert (0 < 2 ^ (Z.max 0 (Z.log2 0 - 52) + 53))%Z
        by (apply Z.pow_pos_nonneg; lia).
      lia.
    - assert (Hpos : (0 < Qfloor x)%Z) by lia.
      pose proof (Z.log2_spec _ Hpos) as [_ Hs].
      assert ((2 ^ Z.succ (Z.log2 (Qfloor x))
               <= 2 ^ (Z.max 0 (Z.log2 (Qfloor x) - 52) + 53))%Z)
        by (apply Z.pow_le_mono_r; lia).
      lia. }
  eapply Qlt_le_trans; [apply Qlt_floor|].
  now rewrite <- Zle_Qle.
Qed.

(** From the second range on, at least the power of two that opens the
    range: [2^(e+52) <= x]. *)
Lemma spacing_lower (x : Q) :
  (1 <= spacing_exp x)%Z -> inject_Z (2 ^ (spacing_exp x + 52)) <= x.
Proof.
  intros He. unfold spacing_exp in *.
  assert (Hlog : (53 <= Z.log2 (Qfloor x))%Z) by lia.
  assert (Hpos : (0 < Qfloor x)%Z).
  { destruct (Z.le_gt_cases (Qfloor x) 0) as [Hle|Hgt]; [|exact Hgt].
    rewrite (Z.log2_nonpos _ Hle) in Hlog. lia. }
  pose proof (Z.log2_spec _ Hpos) as [Hs _].
  replace (Z.max 0 (Z.log2 (Qfloor x) - 52) + 52)%Z with (Z.log2 (Qfloor x))
    by lia.
  eapply Qle_trans; [|apply Qfloor_le].
  now rewrite <- Zle_Qle.
Qed.

Lemma Qdiv_le_pos (x y p : Q) : 0 < p -> x <= y -> x / p <= y / p.
Proof.
  intros Hp H. unfold Qdiv. apply Qmult_le_compat_r; [exact H|].
  apply Qlt_le_weak, Qinv_lt_0_compat, Hp.
Qed.

Lemma Qdiv_pow2 (k e : Z) :
  (0 <= e)%Z -> inject_Z (k * 2 ^ e) / inject_Z (2 ^ e) == inject_Z k.
Proof.
  intros He. rewrite inject_Z_mult. field.
  intros H. pose proof (pow2_pos He) as Hp. rewrite H in Hp.
  now apply Qlt_irrefl in Hp.
Qed.

(** The significand [m] of the rounded value: at most [2^53], and at least
    [2^52] from the second range on. *)
Lemma significand_upper (x : Q) :
  0 <= x ->
  (nearest_even (x / inject_Z (2 ^ spacing_exp x)) <= 2 ^ 53)%Z.
Proof.
  intros H0. pose proof (spacing_exp_nonneg x) as He.
  rewrite <- (nearest_even_Z (2 ^ 53)). apply nearest_even_le.
  apply Qle_shift_div_r; [now apply pow2_pos|].
  rewrite <- pow2_add by lia. rewrite Z.add_comm.
  apply Qlt_le_weak, spacing_upper, H0.
Qed.

Lemma significand_lower (x : Q) :
  (1 <= spacing_exp x)%Z ->
  (2 ^ 52 <= nearest_even (x / inject_Z (2 ^ spacing_exp x)))%Z.
Proof.
  intros He.
  rewrite <- (nearest_even_Z (2 ^ 52)). apply nearest_even_le.
  apply Qle_shift_div_l; [apply pow2_pos; lia|].
  rewrite <- pow2_add by lia. rewrite Z.add_comm.
  apply spacing_lower, He.
Qed.

Lemma significand_nonneg (x : Q) :
  0 <= x -> (0 <= nearest_even (x / inject_Z (2 ^ spacing_exp x)))%Z.
Proof.
  intros H0. pose proof (spacing_exp_nonneg x) as He.
  rewrite <- (nearest_even_Z 0) at 1. apply nearest_even_le.
  apply Qle_shift_div_l; [now apply pow2_pos|].
  now rewrite Qmult_0_l.
Qed.

Lemma round_nonneg_nonneg (x : Q) : 0 <= x -> (0 <= round_nonneg x)%Z.
Proof.
  intros H0. unfold round_nonneg. cbv zeta.
  apply Z.mul_nonneg_nonneg; [now apply significand_nonneg|].
  apply Z.pow_nonneg. lia.
Qed.

Lemma round_nonneg_comp (x y : Q) : x == y -> round_nonneg x = round_nonneg y.
Proof.
  intros H. unfold round_nonneg. cbv zeta.
  rewrite (spacing_exp_comp H).
  rewrite (@nearest_even_comp (x / inject_Z (2 ^ spacing_exp y))
             (y / inject_Z (2 ^ spacing_exp y))); [reflexivity|].
  now rewrite H.
Qed.

(** Rounding does not change the order. *)
Lemma round_nonneg_le (x y : Q) :
  0 <= x -> x <= y -> (round_nonneg x <= round_nonneg y)%Z.
Proof.
  intros H0 H.
  pose proof (spacing_exp_le H0 H) as He.
  pose proof (spacing_exp_nonneg x) as Hex.
  unfold round_nonneg. cbv zeta.
  destruct (Z.eq_dec (spacing_exp x) (spacing_exp y)) as [E|E].
  - rewrite E. apply Z.mul_le_mono_nonneg_r; [apply Z.pow_nonneg; lia|].
    apply nearest_even_le, Qdiv_le_pos; [|exact H].
    apply pow2_pos. lia.
  - assert (Hey : (1 <= spacing_exp y)%Z) by lia.
    pose proof (significand_upper H0) as Hu.
    pose proof (significand_lower y Hey) as Hl.
    apply Z.le_trans with (2 ^ 53 * 2 ^ spacing_exp x)%Z.
    { apply Z.mul_le_mono_nonneg_r; [apply Z.pow_nonneg; lia | exact Hu]. }
    apply Z.le_trans with (2 ^ 52 * 2 ^ spacing_exp y)%Z.
    { rewrite <- !Z.pow_add_r by lia. apply Z.pow_le_mono_r; lia. }
    apply Z.mul_le_mono_nonneg_r; [apply Z.pow_nonneg; lia | exact Hl].
Qed.

(** A multiple of its own spacing is a float. *)
Lemma round_nonneg_multiple (r k : Z) :
  r = (k * 2 ^ spacing_exp (inject_Z r))%Z ->
  round_nonneg (inject_Z r) = r.
Proof.
  intros H. unfold round_nonneg. cbv zeta.
  pose proof (spacing_exp_nonneg (inject_Z r)) as He.
  rewrite (@nearest_even_comp _ (inject_Z k)).
  - rewrite nearest_even_Z. now rewrite <- H.
  - rewrite H at 1. now apply Qdiv_pow2.
Qed.

Lemma round_nonneg_fix (m e : Z) :
  (0 <= m <= 2 ^ 53)%Z -> (0 <= e)%Z ->
  round_nonneg (inject_Z (m * 2 ^ e)) = (m * 2 ^ e)%Z.
Proof.
  intros Hm He.
  destruct (Z.eq_dec m 0) as [E0|E0].
  { subst m. rewrite Z.mul_0_l. reflexivity. }
  assert (Hpos : (0 < m)%Z) by lia.
  assert (Hlog : Z.log2 (m * 2 ^ e) = (e + Z.log2 m)%Z)
    by (apply Z.log2_mul_pow2; lia).
  assert (Hexp : spacing_exp (inject_Z (m * 2 ^ e))
                 = Z.max 0 (e + Z.log2 m - 52)).
  { unfold spacing_exp. now rewrite Qfloor_Z, Hlog. }
  destruct (Z.eq_dec m (2 ^ 53)) as [E|E].
  - apply round_nonneg_multiple with (k := (2 ^ 52)%Z).
    rewrite Hexp. subst m. rewrite Z.log2_pow2 by lia.
    replace (Z.max 0 (e + 53 - 52)) with (e + 1)%Z by lia.
    rewrite <- !Z.pow_add_r by lia. f_equal. lia.
  - assert (Hlt : (Z.log2 m < 53)%Z) by (apply Z.log2_lt_pow2; lia).
    pose proof (Z.log2_nonneg m) as Hnn.
    set (e' := Z.max 0 (e + Z.log2 m - 52)) in *.
    assert (He' : (0 <= e' <= e)%Z) by (unfold e'; lia).
    apply round_nonneg_multiple with (k := (m * 2 ^ (e - e'))%Z).
    rewrite Hexp. rewrite <- Z.mul_assoc, <- Z.pow_add_r by lia.
    do 2 f_equal. lia.
Qed.

Lemma round_nonneg_idem (x : Q) :
  0 <= x -> round_nonneg (inject_Z (round_nonneg x)) = round_nonneg x.
Proof.
  intros H0. unfold round_nonneg at 2 3. cbv zeta.
  apply round_nonneg_fix; [|apply spacing_exp_nonneg].
  split; [now apply significand_nonneg | now apply significand_upper].
Qed.

Lemma Qle_bool_false (x y : Q) : Qle_bool x y = false -> y < x.
Proof.
  intros H. apply Qnot_le_lt. intros Hle.
  apply Qle_bool_iff in Hle. congruence.
Qed.

Lemma round_units_comp (x y : Q) : x == y -> round_units x = round_units y.
Proof.
  intros H. unfold round_units.
  replace (Qle_bool 0 y) with (Qle_bool 0 x).
  - destruct (Qle_bool 0 x).
    + now apply round_nonneg_comp.
    + f_equal. apply round_nonneg_comp. now rewrite H.
  - destruct (Qle_bool 0 x) eqn:Ex; destruct (Qle_bool 0 y) eqn:Ey;
      try reflexivity; exfalso.
    + apply Qle_bool_iff in Ex. apply Qle_bool_false in Ey. Lqa.lra.
    + apply Qle_bool_iff in Ey. apply Qle_bool_false in Ex. Lqa.lra.
Qed.

Lemma round_units_le (x y : Q) :
  x <= y -> (round_units x <= round_units y)%Z.
Proof.
  intros H. unfold round_units.
  destruct (Qle_bool 0 x) eqn:Ex; destruct (Qle_bool 0 y) eqn:Ey.
  - apply Qle_bool_iff in Ex. now apply round_nonneg_le.
  - apply Qle_bool_iff in Ex. apply Qle_bool_false in Ey. exfalso. Lqa.lra.
  - apply Qle_bool_iff in Ey. apply Qle_bool_false in Ex.
    assert (0 <= - x) by Lqa.lra.
    pose proof (round_nonneg_nonneg H0). pose proof (round_nonneg_nonneg Ey).
    lia.
  - apply Qle_bool_false in Ex, Ey.
    assert (H1 : 0 <= - y) by Lqa.lra.
    assert (H2 : - y <= - x) by Lqa.lra.
    pose proof (round_nonneg_le H1 H2). lia.
Qed.

Lemma round_units_idem (x : Q) :
  round_units (inject_Z (round_units x)) = round_units x.
Proof.
  destruct (Qle_bool 0 x) eqn:Ex.
  - assert (E : round_units x = round_nonneg x)
      by (unfold round_units; now rewrite Ex).
    rewrite E. apply Qle_bool_iff in Ex.
    pose proof (round_nonneg_nonneg Ex) as Hr.
    unfold round_units.
    replace (Qle_bool 0 (inject_Z (round_nonneg x))) with true.
    + now apply round_nonneg_idem.
    + symmetry. apply Qle_bool_iff. change 0 with (inject_Z 0).
      now rewrite <- Zle_Qle.
  - assert (E : round_units x = (- round_nonneg (- x))%Z)
      by (unfold round_units; now rewrite Ex).
    rewrite E. apply Qle_bool_false in Ex.
    assert (H0 : 0 <= - x) by Lqa.lra.
    pose proof (round_nonneg_nonneg H0) as Hr.
    destruct (Z.eq_dec (round_nonneg (- x)) 0) as [E0|E0].
    + rewrite E0. reflexivity.
    + unfold round_units.
      replace (Qle_bool 0 (inject_Z (- round_nonneg (- x)))) with false.
      * f_equal. rewrite <- (round_nonneg_idem H0) at 2.
        apply round_nonneg_comp. rewrite inject_Z_opp. ring.
      * symmetry.
        destruct (Qle_bool 0 (inject_Z (- round_nonneg (- x)))) eqn:E';
          [|reflexivity].
        apply Qle_bool_iff in E'. change 0 with (inject_Z 0) in E'.
        rewrite <- Zle_Qle in E'. lia.
Qed.

Lemma units_pos : 0 < inject_Z (2 ^ 1074).
Proof. apply pow2_pos. lia. Qed.

(** A float operation never rounds to [nan]. *)
Lemma round64_not_nan (q : Q) : round64 q <> NaN.
Proof.
  unfold round64. cbv zeta. now destruct (_ <=? _)%Z.
Qed.

Lemma round64_comp (x y : Q) : x == y -> round64 x = round64 y.
Proof.
  intros H. unfold round64.
  rewrite (@round_units_comp (x * inject_Z (2 ^ 1074))
             (y * inject_Z (2 ^ 1074))); [reflexivity|].
  now rewrite H.
Qed.

Lemma round64_0 : round64 0 = Fin 0.
Proof. vm_compute. reflexivity. Qed.

Lemma round64_zero (x : Q) : x == 0 -> round64 x = Fin 0.
Proof. intros H. rewrite (round64_comp H). apply round64_0. Qed.

(** Rounding does not change the order. *)
Lemma round64_le (x y : Q) : x <= y -> fleb (round64 x) (round64 y) = true.
Proof.
  intros H. pose proof units_pos as Hp.
  assert (Hu : x * inject_Z (2 ^ 1074) <= y * inject_Z (2 ^ 1074)).
  { apply Qmult_le_compat_r; [exact H | now apply Qlt_le_weak]. }
  apply round_units_le in Hu.
  unfold round64. cbv zeta.
  set (rx := round_units (x * inject_Z (2 ^ 1074))) in *.
  set (ry := round_units (y * inject_Z (2 ^ 1074))) in *.
  destruct (2 ^ 2098 <=? Z.abs rx)%Z eqn:Ex;
    destruct (2 ^ 2098 <=? Z.abs ry)%Z eqn:Ey; cbn [fleb].
  - apply Z.leb_le in Ex, Ey.
    destruct (rx <? 0)%Z eqn:Sx; [reflexivity|].
    destruct (ry <? 0)%Z eqn:Sy; [|reflexivity].
    apply Z.ltb_ge in Sx. apply Z.ltb_lt in Sy. lia.
  - apply Z.leb_le in Ex. apply Z.leb_gt in Ey.
    destruct (rx <? 0)%Z eqn:Sx; [reflexivity|].
    apply Z.ltb_ge in Sx. lia.
  - apply Z.leb_gt in Ex. apply Z.leb_le in Ey.
    destruct (ry <? 0)%Z eqn:Sy; [|reflexivity].
    apply Z.ltb_lt in Sy. lia.
  - apply Qle_bool_iff. rewrite !Qred_correct.
    apply Qdiv_le_pos; [exact Hp|]. now rewrite <- Zle_Qle.
Qed.

(** What a float operation returns is a float: rounding it again changes
    nothing. *)
Lemma round64_idem (x v : Q) : round64 x = Fin v -> round64 v = Fin v.
Proof.
  unfold round64 at 1. cbv zeta.
  set (r := round_units (x * inject_Z (2 ^ 1074))).
  destruct (2 ^ 2098 <=? Z.abs r)%Z eqn:E; [discriminate|].
  intros H.
  assert (Hv : v = Qred (inject_Z r / inject_Z (2 ^ 1074))) by congruence.
  clear H. subst v.
  assert (Hr : round_units (Qred (inject_Z r / inject_Z (2 ^ 1074))
                            * inject_Z (2 ^ 1074)) = r).
  { rewrite (@round_units_comp _ (inject_Z r)).
    - apply round_units_idem.
    - rewrite Qred_correct. field.
      intros H0. pose proof units_pos as Hp. rewrite H0 in Hp.
      now apply Qlt_irrefl in Hp. }
  unfold round64. cbv zeta. rewrite Hr, E. reflexivity.
Qed.

End Binary64.

(** ** The order of the floats *)
Section FloatOrder.

Lemma Qzero_bool_false (q : Q) : ~ q == 0 -> Qzero_bool q = false.
Proof.
  intros Hq. unfold Qzero_bool. destruct (Qeq_bool q 0) eqn:E; [|reflexivity].
  apply Qeq_bool_iff in E. contradiction.
Qed.

Lemma fleb_refl (x : fval) : is_number x -> fleb x x = true.
Proof.
  destruct x as [q| |s]; cbn [fleb]; intros H.
  - apply Qle_bool_iff, Qle_refl.
  - now elim H.
  - now destruct s.
Qed.

Lemma fleb_trans (a b c : fval) :
  fleb a b = true -> fleb b c = true -> fleb a c = true.
Proof.
  destruct a as [x| |s], b as [y| |s'], c as [z| |s'']; cbn [fleb];
    intros H1 H2; try discriminate;
    repeat match goal with s0 : bool |- _ => destruct s0 end;
    try discriminate; try reflexivity.
  apply Qle_bool_iff in H1, H2. apply Qle_bool_iff.
  eapply Qle_trans; eassumption.
Qed.

Lemma fltb_fleb (a b : fval) : fltb a b = true -> fleb a b = true.
Proof.
  destruct a as [x| |s], b as [y| |s']; cbn [fltb fleb]; intros H;
    try discriminate; try exact H.
  - apply negb_true_iff, Qle_bool_false in H.
    apply Qle_bool_iff. now apply Qlt_le_weak.
  - apply andb_true_iff in H. destruct H as [-> _]. reflexivity.
Qed.

(** Between two floats that are not [nan], [a < b] is false only when
    [b <= a]. *)
Lemma fltb_false_fleb (a b : fval) :
  is_number a -> is_number b -> fltb a b = false -> fleb b a = true.
Proof.
  destruct a as [x| |s], b as [y| |s']; cbn [fltb fleb]; intros Ha Hb H;
    try (now elim Ha); try (now elim Hb).
  - now apply negb_false_iff in H.
  - now apply negb_false_iff in H.
  - now rewrite H.
  - destruct s, s'; try discriminate; reflexivity.
Qed.

Lemma fltb_number (a b : fval) : fltb a b = true -> is_number a.
Proof. destruct a; [discriminate | | discriminate]. now destruct b. Qed.

(** The literal [0.1]. *)
Lemma tenth :
  round64 (1 # 10) = Fin (3602879701896397 # 36028797018963968).
Proof. vm_compute. reflexivity. Qed.

(** What an addition returns is a float. *)
Lemma fadd_is_float (a b : fval) : is_float (fadd a b).
Proof.
  destruct a as [x| |s], b as [y| |s']; cbn [fadd is_float]; try exact I.
  - destruct (round64 (x + y)) as [v| |s] eqn:E; cbn [is_float]; try exact I.
    eapply round64_idem, E.
  - now destruct (Bool.eqb s s').
Qed.

(** Taking [0.1] off a float does not make it larger. *)
Lemma fsub_tenth_le (b : fval) :
  is_float b -> is_number b -> fleb (fsub b (round64 (1 # 10))) b = true.
Proof.
  rewrite tenth. destruct b as [q| |s]; cbn [is_float fsub]; intros Hf Hn.
  - rewrite <- Hf. apply round64_le.
    assert (H : 0 <= 3602879701896397 # 36028797018963968) by discriminate.
    Lqa.lra.
  - now elim Hn.
  - now destruct s.
Qed.

(** A time that passes the test [new_time < best_time - 0.1] is at most
    [best_time]. *)
Lemma improves_le (new_time best_time : pyfloat) :
  is_float (fv best_time) ->
  SolverSimple.improves new_time best_time = true ->
  float_le new_time best_time.
Proof.
  unfold SolverSimple.improves, float_le. intros Hf H.
  assert (Hn : is_number (fv best_time)).
  { intros E. rewrite E in H. cbn [fsub] in H.
    destruct (fv new_time); discriminate H. }
  eapply fleb_trans; [apply fltb_fleb, H|].
  now apply fsub_tenth_le.
Qed.

(** The difference is rounded before it is compared: [1.1 - 0.1] is the
    float [1.0], so a new time of [1.0] is no improvement on [1.1], although
    [1.0] is less than the exact difference of the two floats. *)
Lemma improves_rounds_difference :
  exists b c,
    round64 (11 # 10) = Fin b /\ round64 (1 # 10) = Fin c /\
    1 < b - c /\
    fsub (Fin b) (Fin c) = Fin 1 /\
    SolverSimple.improves (np_float 1) (mk_float true (Fin b)) = false.
Proof.
  eexists _, _. split; [vm_compute; reflexivity|].
  split; [vm_compute; reflexivity|].
  split; [reflexivity|]. split; vm_compute; reflexivity.
Qed.

End FloatOrder.

(** ** Route metrics *)
Section Metrics.

(** What a loop returns satisfies every property that its body keeps. *)
Lemma for_each_returned (A St : Type) (P : St -> Prop)
  (body : A -> St -> exc St) (l : list A) :
  (forall x s s', P s -> body x s = Ret s' -> P s') ->
  forall s s', P s -> for_each l body s = Ret s' -> P s'.
Proof.
  intros Hbody. induction l as [|x l IH]; intros s s' Hs.
  - intros H. inversion H. now subst.
  - cbn [for_each]. destruct (body x s) as [s1|e] eqn:E; cbn [bind];
      [|discriminate].
    apply IH. eapply Hbody; eassumption.
Qed.

(** A route time is a float: [nan], an infinity, or a number that
    binary64 has. *)
Lemma calculate_route_time_float (route : list Z) (tm : fmatrix)
  (t : pyfloat) :
  _calculate_route_time route tm = Ret t -> is_float (fv t).
Proof.
  unfold _calculate_route_time.
  destruct (length route <? 2)%nat.
  - intros H. inversion H. exact round64_0.
  - destruct (for_each _ _ _) as [total|e] eqn:E; cbn [bind]; [|discriminate].
    assert (Htotal : is_float total).
    { eapply (@for_each_returned _ _ is_float); [| |exact E];
        [|exact round64_0].
      intros i s s' _. cbv beta.
      destruct (fmat_get _ _ _) as [x|e]; cbn [bind];
        [|discriminate].
      intros H. inversion H. apply fadd_is_float. }
    destruct (negb _).
    + destruct (fmat_get _ _ _) as [x|e]; cbn [bind]; [|discriminate].
      intros H. inversion H. apply fadd_is_float.
    + intros H. inversion H. exact Htotal.
Qed.

End Metrics.




(** ** The TSP variable index *)
Section TspVarIndex.

Lemma pair_eqb_eq (a b : nat * nat) : pair_eqb a b = true <-> a = b.
Proof.
  destruct a as [a1 a2], b as [b1 b2]. unfold pair_eqb; simpl.
  rewrite andb_true_iff, !Nat.eqb_eq. split.
  - intros [-> ->]. reflexivity.
  - intros H; inversion H; auto.
Qed.

(** Writing a key the dictionary does not hold appends it. *)
Lemma dict_set_fresh {V : Type} (d : dict (nat * nat) V) (k : nat * nat) (v : V) :
  ~ In k (dict_keys d) -> dict_set pair_eqb d k v = d ++ [(k, v)].
Proof.
  unfold dict_keys. induction d as [|[k0 v0] d IH]; simpl; intros Hk.
  - reflexivity.
  - destruct (pair_eqb k k0) eqn:E.
    + apply pair_eqb_eq in E. subst. tauto.
    + f_equal. apply IH. tauto.
Qed.

Lemma dict_get_app_fresh {V : Type} (d d' : dict (nat * nat) V) (k : nat * nat) :
  ~ In k (dict_keys d) -> dict_get pair_eqb (d ++ d') k = dict_get pair_eqb d' k.
Proof.
  unfold dict_keys. induction d as [|[k0 v0] d IH]; simpl; intros Hk.
  - reflexivity.
  - destruct (pair_eqb k k0) eqn:E.
    + apply pair_eqb_eq in E. subst. tauto.
    + apply IH. tauto.
Qed.

Lemma number_keys_fresh (ks : list (nat * nat)) :
  NoDup ks ->
  forall d c,
    (forall k, In k ks -> ~ In k (dict_keys d)) ->
    fold_left number_key ks (d, c)
    = (d ++ combine ks (seq c (length ks)), (c + length ks)%nat).
Proof.
  induction 1 as [|k ks Hk Hnd IH]; intros d c Hfresh.
  - simpl. now rewrite app_nil_r, Nat.add_0_r.
  - simpl. unfold number_key at 2. simpl.
    rewrite dict_set_fresh by (apply Hfresh; now left).
    rewrite IH.
    + rewrite <- app_assoc. simpl. f_equal. lia.
    + intros k' Hk'. unfold dict_keys. rewrite map_app, in_app_iff. simpl.
      intros [Hin | [Heq | []]].
      * apply (Hfresh k'); [now right | exact Hin].
      * subst. contradiction.
Qed.

Lemma fold_left_list_prod {A B St : Type} (f : St -> A * B -> St)
  (l : list A) (l' : list B) :
  forall s,
    fold_left f (list_prod l l') s
    = fold_left (fun s x => fold_left (fun s y => f s (x, y)) l' s) l s.
Proof.
  induction l as [|x l IH]; intros s; simpl.
  - reflexivity.
  - rewrite fold_left_app, IH. f_equal.
    clear IH. revert s. induction l' as [|y l' IH']; intros s; simpl; auto.
Qed.

Lemma NoDup_list_prod {A B : Type} (l : list A) (l' : list B) :
  NoDup l -> NoDup l' -> NoDup (list_prod l l').
Proof.
  intros Hl Hl'. induction Hl as [|x l Hx Hl IH]; simpl.
  - constructor.
  - apply NoDup_app.
    + clear IH. induction Hl' as [|y l' Hy Hl' IH']; simpl; constructor.
      * rewrite in_map_iff. intros [y' [E Hin]]. inversion E; subst.
        contradiction.
      * exact IH'.
    + exact IH.
    + intros [a b]. rewrite in_map_iff, in_prod_iff.
      intros [y [E _]] [Hin _]. inversion E; subst. contradiction.
Qed.

(** The index the numbering loops build, written out: the N*N keys in
    loop order, numbered from 0. *)
Lemma make_tsp_var_index_eq (N : nat) :
  make_tsp_var_index N = (combine (tsp_keys N) (seq 0 (N * N)), (N * N)%nat).
Proof.
  unfold make_tsp_var_index, for_range.
  pose proof (fold_left_list_prod number_key (seq 0 N) (seq 0 N) ([], 0%nat)) as H.
  unfold number_key in H at 2. simpl in H.
  unfold number_key in *.
  etransitivity; [symmetry; exact H|].
  fold number_key.
  rewrite number_keys_fresh.
  - unfold tsp_keys. simpl. now rewrite length_prod, length_seq.
  - apply NoDup_list_prod; apply seq_NoDup.
  - intros k _ [].
Qed.

Lemma nth_error_list_prod {A B : Type} (l : list A) (l' : list B) :
  forall i p x y,
    nth_error l i = Some x -> nth_error l' p = Some y ->
    nth_error (list_prod l l') (i * length l' + p) = Some (x, y).
Proof.
  induction l as [|x0 l IH]; intros i p x y Hx Hy.
  - destruct i; discriminate.
  - assert (Hp : (p < length l')%nat) by (apply nth_error_Some; congruence).
    destruct i as [|i]; simpl in *.
    + inversion Hx; subst.
      rewrite nth_error_app1 by (now rewrite length_map).
      now rewrite nth_error_map, Hy.
    + rewrite nth_error_app2 by (rewrite length_map; lia).
      rewrite length_map.
      replace (length l' + i * length l' + p - length l')%nat
        with (i * length l' + p)%nat by lia.
      now apply IH.
Qed.

(** Reading a key of a dictionary built from distinct keys returns the value
    written with it. *)
Lemma dict_get_combine {V : Type} (ks : list (nat * nat)) :
  NoDup ks ->
  forall (vs : list V) n k v,
    nth_error ks n = Some k -> nth_error vs n = Some v ->
    dict_get pair_eqb (combine ks vs) k = Some v.
Proof.
  induction 1 as [|k0 ks Hk0 Hnd IH]; intros vs n k v Hk Hv.
  - destruct n; discriminate.
  - destruct vs as [|v0 vs]; [destruct n; discriminate|].
    destruct n as [|n]; simpl in *.
    + inversion Hk; inversion Hv; subst.
      assert (E : pair_eqb k k = true) by now apply pair_eqb_eq.
      now rewrite E.
    + destruct (pair_eqb k k0) eqn:E.
      * apply pair_eqb_eq in E. subst. apply nth_error_In in Hk. contradiction.
      * eapply IH; eassumption.
Qed.

(** Every key the builder reads is in the index: node [i] at position [p]
    is variable [i * N + p]. *)
Lemma tsp_var_index_get (N i p : nat) :
  (i < N)%nat -> (p < N)%nat ->
  dict_get pair_eqb (fst (make_tsp_var_index N)) (i, p) = Some (i * N + p)%nat.
Proof.
  intros Hi Hp. rewrite make_tsp_var_index_eq. cbn [fst].
  assert (Hseq : forall k, (k < N)%nat -> nth_error (seq 0 N) k = Some k).
  { intros k Hk. rewrite nth_error_nth' with (d := 0%nat)
      by (now rewrite length_seq).
    now rewrite seq_nth. }
  apply dict_get_combine with (n := (i * N + p)%nat).
  - apply NoDup_list_prod; apply seq_NoDup.
  - unfold tsp_keys.
    rewrite <- (length_seq N 0) at 3.
    apply nth_error_list_prod; now apply Hseq.
  - rewrite nth_error_nth' with (d := 0%nat) by (rewrite length_seq; nia).
    rewrite seq_nth by nia. reflexivity.
Qed.

Lemma vget_eq (N i p : nat) :
  (i < N)%nat -> (p < N)%nat ->
  vget (fst (make_tsp_var_index N)) i p = (i * N + p)%nat.
Proof.
  intros Hi Hp. unfold vget, dict_get_default.
  now rewrite tsp_var_index_get.
Qed.

(** The index holds N*N variables. *)
Lemma tsp_var_index_length (N : nat) :
  length (fst (make_tsp_var_index N)) = (N * N)%nat.
Proof.
  rewrite make_tsp_var_index_eq. simpl.
  rewrite length_combine. unfold tsp_keys.
  rewrite length_prod, !length_seq. lia.
Qed.

End TspVarIndex.

(** ** The energy of a QUBO dictionary *)
Section Energy.
Variable x : nat -> bool.

Lemma term_value_zero (k : qkey) : term_value x k 0 == 0.
Proof. destruct k as [a b|]; simpl; [destruct (x a && x b)|]; reflexivity. Qed.

Lemma term_value_plus (k : qkey) (c c' : Q) :
  term_value x k (c + c') == term_value x k c + term_value x k c'.
Proof.
  destruct k as [a b|]; simpl; [destruct (x a && x b)|]; ring.
Qed.

Lemma q_add_cons (k0 : qkey) (v0 : Q) (d : qubo) (k : qkey) (v : Q) :
  q_add ((k0, v0) :: d) k v
  = if qkey_eqb k k0 then (k0, v0 + v) :: d else (k0, v0) :: q_add d k v.
Proof.
  unfold q_add, dict_get_default. simpl.
  destruct (qkey_eqb k k0); reflexivity.
Qed.

(** [Q[k] += v] adds the value of the term [(k, v)] to the energy. *)
Lemma energy_q_add (d : qubo) (k : qkey) (v : Q) :
  qubo_energy (q_add d k v) x == qubo_energy d x + term_value x k v.
Proof.
  induction d as [|[k0 v0] d IH].
  - unfold q_add, dict_get_default. simpl.
    rewrite term_value_plus, term_value_zero. ring.
  - rewrite q_add_cons. destruct (qkey_eqb k k0) eqn:E.
    + apply qkey_eqb_eq in E. subst. simpl.
      rewrite term_value_plus. ring.
    + simpl. simpl in IH. rewrite IH. ring.
Qed.

Lemma energy_app (us us' : list (qkey * Q)) :
  qubo_energy (us ++ us') x == qubo_energy us x + qubo_energy us' x.
Proof.
  induction us as [|u us IH]; simpl.
  - ring.
  - simpl in IH. rewrite IH. ring.
Qed.

Lemma energy_apply_updates (us : list (qkey * Q)) :
  forall d, qubo_energy (apply_updates us d) x
            == qubo_energy d x + qubo_energy us x.
Proof.
  induction us as [|u us IH]; intros d; simpl.
  - ring.
  - unfold apply_updates in *. simpl. rewrite IH, energy_q_add. ring.
Qed.

Lemma fold_left_as_updates {A : Type} (f : A -> qkey * Q) (l : list A) :
  forall d,
    fold_left (fun d a => q_add d (fst (f a)) (snd (f a))) l d
    = apply_updates (map f l) d.
Proof.
  unfold apply_updates. induction l as [|a l IH]; intros d; simpl; auto.
Qed.

Lemma apply_updates_app (us us' : list (qkey * Q)) (d : qubo) :
  apply_updates (us ++ us') d = apply_updates us' (apply_updates us d).
Proof. unfold apply_updates. apply fold_left_app. Qed.

Lemma add_one_hot_as_updates (lam : Q) (vars : list nat) (d : qubo) :
  add_one_hot lam vars d = apply_updates (one_hot_updates lam vars) d.
Proof.
  unfold add_one_hot, one_hot_updates.
  rewrite !apply_updates_app.
  rewrite <- (fold_left_as_updates (fun a => (Pair a a, -2 * lam))).
  rewrite <- (fold_left_as_updates
                (fun ab : nat * nat => (Pair (fst ab) (snd ab), 2 * lam))).
  reflexivity.
Qed.

Lemma pairs_energy_none_set (lam : Q) (v : nat) (vars : list nat) :
  count_set x vars = 0%nat ->
  qubo_energy (map (fun ab => (Pair (fst ab) (snd ab), 2 * lam))
                   (map (pair v) vars)) x == 0.
Proof.
  unfold count_set. induction vars as [|w vars IH]; simpl; intros H.
  - reflexivity.
  - destruct (x w) eqn:E; [discriminate|].
    rewrite andb_false_r. simpl in IH. rewrite IH by exact H. ring.
Qed.

Lemma pairs_energy_first_clear (lam : Q) (v : nat) (vars : list nat) :
  x v = false ->
  qubo_energy (map (fun ab => (Pair (fst ab) (snd ab), 2 * lam))
                   (map (pair v) vars)) x == 0.
Proof.
  intros Hv. induction vars as [|w vars IH]; simpl.
  - reflexivity.
  - rewrite Hv. simpl. simpl in IH. rewrite IH. ring.
Qed.

(** With at most one variable of the group set, no pair term is active. *)
Lemma pairs_energy_at_most_one (lam : Q) (vars : list nat) :
  (count_set x vars <= 1)%nat ->
  qubo_energy (map (fun ab => (Pair (fst ab) (snd ab), 2 * lam))
                   (combinations2 vars)) x == 0.
Proof.
  unfold count_set. induction vars as [|v vars IH]; simpl; intros H.
  - reflexivity.
  - rewrite map_app, energy_app.
    destruct (x v) eqn:E; simpl in H.
    + rewrite pairs_energy_none_set by (unfold count_set; lia).
      rewrite IH by lia. ring.
    + rewrite pairs_energy_first_clear by exact E.
      rewrite IH by lia. ring.
Qed.

Lemma diagonal_energy (c : Q) (vars : list nat) :
  qubo_energy (map (fun a => (Pair a a, c)) vars) x
  == inject_Z (Z.of_nat (count_set x vars)) * c.
Proof.
  unfold count_set. induction vars as [|v vars IH].
  - simpl. ring.
  - cbn [map qubo_energy fold_right fst snd term_value filter].
    change (fold_right _ 0 (map (fun a => (Pair a a, c)) vars))
      with (qubo_energy (map (fun a => (Pair a a, c)) vars) x).
    rewrite IH. destruct (x v); simpl andb; cbv iota.
    + cbn [length]. rewrite Nat2Z.inj_succ. unfold Z.succ.
      rewrite inject_Z_plus. ring.
    + ring.
  Qed.

(** One pass through the constraint body on a group with exactly one
    variable set contributes [-lambda], not 0. *)
Lemma one_hot_updates_energy (lam : Q) (vars : list nat) :
  count_set x vars = 1%nat ->
  qubo_energy (one_hot_updates lam vars) x == - lam.
Proof.
  intros H. unfold one_hot_updates.
  rewrite !energy_app, pairs_energy_at_most_one by lia.
  rewrite diagonal_energy, H. simpl. ring.
Qed.

(** A loop of constraint passes, one per group. *)
Lemma constraint_loop_energy (lam : Q) (group : nat -> list nat) (N : nat) :
  (forall i, (i < N)%nat -> count_set x (group i) = 1%nat) ->
  forall d,
    qubo_energy (for_range N (fun i d => add_one_hot lam (group i) d) d) x
    == qubo_energy d x - inject_Z (Z.of_nat N) * lam.
Proof.
  induction N as [|N IH]; intros Hgroups d.
  - rewrite for_range_zero. simpl. ring.
  - rewrite for_range_succ, add_one_hot_as_updates, energy_apply_updates.
    rewrite IH by (intros i Hi; apply Hgroups; lia).
    rewrite one_hot_updates_energy by (apply Hgroups; lia).
    rewrite Nat2Z.inj_succ. unfold Z.succ. rewrite inject_Z_plus. ring.
Qed.

End Energy.

(** ** One-hot assignments of the TSP encoding *)

Lemma one_hot_groups (vi : tsp_var_index) (N : nat) (x : nat -> bool) :
  one_hot vi N x = true ->
  (forall i, (i < N)%nat ->
             count_set x (map (fun p => vget vi i p) (seq 0 N)) = 1%nat) /\
  (forall p, (p < N)%nat ->
             count_set x (map (fun i => vget vi i p) (seq 0 N)) = 1%nat).
Proof.
  unfold one_hot, count_set. rewrite andb_true_iff, !forallb_forall.
  intros [H1 H2]. split; intros i Hi.
  - apply Nat.eqb_eq, H1, in_seq. lia.
  - apply Nat.eqb_eq, H2, in_seq. lia.
Qed.

(** The two constraint loops lower the energy of any dictionary by
    [2 * N * lambda] under a one-hot assignment. *)
Lemma constraints_energy (lam : Q) (N : nat) (vi : tsp_var_index)
  (x : nat -> bool) (d : qubo) :
  one_hot vi N x = true ->
  qubo_energy (add_constraint2 lam N vi (add_constraint1 lam N vi d)) x
  == qubo_energy d x - inject_Z (2 * Z.of_nat N) * lam.
Proof.
  intros H. apply one_hot_groups in H. destruct H as [H1 H2].
  unfold add_constraint2, add_constraint1.
  rewrite (constraint_loop_energy x lam (fun p => map (fun i => vget vi i p) (seq 0 N)))
    by exact H2.
  rewrite (constraint_loop_energy x lam (fun i => map (fun p => vget vi i p) (seq 0 N)))
    by exact H1.
  rewrite inject_Z_mult. ring.
Qed.

(** C2.  The encoder numbers exactly N*N variables.  Under every valid
    one-hot assignment the entries written by the two constraint loops (pair
    terms [+2*lambda], diagonal terms [-2*lambda], constants [+lambda])
    contribute [-2*N*lambda] to the energy, and the energy of the whole
    dictionary is the objective's energy plus that contribution.  The claim
    asks for a contribution of exactly 0. *)
Theorem tsp_one_hot_penalty_energy (lam : Q) (tm : matrix) (x : nat -> bool) :
  let N := shape0 tm in
  let Qd := fst (build_time_dependent_tsp_qubo lam tm) in
  let vi := snd (build_time_dependent_tsp_qubo lam tm) in
  one_hot vi N x = true ->
  length vi = (N * N)%nat /\
  qubo_energy (constraint_penalties lam N) x == - (inject_Z (2 * Z.of_nat N) * lam) /\
  qubo_energy Qd x
  == qubo_energy (add_objective N vi tm []) x
     + qubo_energy (constraint_penalties lam N) x.
Proof.
  intros N Qd vi Hx. subst Qd vi. unfold build_time_dependent_tsp_qubo in *.
  cbn [fst snd] in *. fold N in Hx. fold N.
  split; [apply tsp_var_index_length|].
  unfold constraint_penalties.
  rewrite !constraints_energy by exact Hx.
  split; simpl; ring.
Qed.

Lemma tsp_one_hot_penalty_energy_witness :
  let x := fun v => (v =? 0)%nat || (v =? 3)%nat in
  let tm := [[0; 3]; [4; 0]] in
  one_hot (snd (build_time_dependent_tsp_qubo 100 tm)) 2 x = true /\
  length (snd (build_time_dependent_tsp_qubo 100 tm)) = 4%nat /\
  qubo_energy (constraint_penalties 100 2) x == - (400).
Proof.
  intros x tm. split; [reflexivity|].
  destruct (@tsp_one_hot_penalty_energy 100 tm x eq_refl) as [Hlen [H _]].
  split; [exact Hlen | exact H].
Defined.

(** ** solver_simple.py: routes and 2-opt *)

Import SolverSimple.

(** ** Loops that may raise or break *)
Section ExcLoops.
Context {A St : Type}.

(** A loop whose body returns on every state that satisfies an invariant,
    and keeps it, returns a state that satisfies it. *)
Lemma for_each_invariant (P : St -> Prop) (body : A -> St -> exc St)
  (l : list A) :
  (forall x s, In x l -> P s -> exists s', body x s = Ret s' /\ P s') ->
  forall s, P s -> exists s', for_each l body s = Ret s' /\ P s'.
Proof.
  induction l as [|x l IH]; intros Hbody s Hs.
  - exists s. split; [reflexivity | exact Hs].
  - destruct (Hbody x s (or_introl eq_refl) Hs) as [s1 [E1 H1]].
    simpl. rewrite E1. simpl. apply IH; [|exact H1].
    intros y s' Hy. apply Hbody. now right.
Qed.

Lemma for_each_break_invariant (P : St -> Prop)
  (body : A -> St -> exc (St * bool)) (l : list A) :
  (forall x s, In x l -> P s ->
               exists s' b, body x s = Ret (s', b) /\ P s') ->
  forall s, P s ->
            exists s' b, for_each_break l body s = Ret (s', b) /\ P s'.
Proof.
  induction l as [|x l IH]; intros Hbody s Hs.
  - exists s, false. split; [reflexivity | exact Hs].
  - destruct (Hbody x s (or_introl eq_refl) Hs) as [s1 [b [E1 H1]]].
    simpl. rewrite E1. simpl. destruct b.
    + exists s1, true. split; [reflexivity | exact H1].
    + apply IH; [|exact H1]. intros y s' Hy. apply Hbody. now right.
Qed.
End ExcLoops.

(** ** Indexing a square matrix *)
Section SquareMatrix.
Variable n : nat.
Variable tm : fmatrix.
Hypothesis Hsq : square n tm.

Lemma np_index_in_range (v : Z) :
  in_range n v -> exists r, np_index n v = Ret r /\ (r < n)%nat.
Proof.
  unfold in_range, np_index. intros Hv.
  destruct ((0 <=? v)%Z && (v <? Z.of_nat n)%Z) eqn:E1.
  - exists (Z.to_nat v). split; [reflexivity|].
    apply andb_true_iff in E1. destruct E1 as [H1 H2].
    apply Z.leb_le in H1. apply Z.ltb_lt in H2. lia.
  - destruct ((- Z.of_nat n <=? v)%Z && (v <? 0)%Z) eqn:E2.
    + exists (Z.to_nat (v + Z.of_nat n)). split; [reflexivity|].
      apply andb_true_iff in E2. destruct E2 as [H1 H2].
      apply Z.leb_le in H1. apply Z.ltb_lt in H2. lia.
    + apply andb_false_iff in E1, E2.
      rewrite Z.leb_gt, Z.ltb_ge in E1, E2. lia.
Qed.

Lemma fmat_get_in_range (u v : Z) :
  in_range n u -> in_range n v -> exists x, fmat_get tm u v = Ret x.
Proof.
  intros Hu Hv. destruct Hsq as [Hlen Hrows].
  destruct (np_index_in_range Hu) as [r [Er Hr]].
  destruct (np_index_in_range Hv) as [c [Ec Hc]].
  unfold fmat_get. rewrite Hlen, Er.
  assert (Hrow : length (nth r tm []) = n).
  { rewrite Forall_forall in Hrows. apply Hrows, nth_In. lia. }
  rewrite Hrow, Ec. eexists; reflexivity.
Qed.

Lemma nth_in_range (route : list Z) (i : nat) :
  Forall (in_range n) route -> (i < length route)%nat ->
  in_range n (nth i route 0%Z).
Proof.
  intros Hroute Hi. rewrite Forall_forall in Hroute.
  apply Hroute, nth_In, Hi.
Qed.

(** On a route whose entries index the matrix the route time is
    computed. *)
Lemma calculate_route_time_valid (route : list Z) :
  Forall (in_range n) route ->
  exists t, calculate_route_time route tm = Ret t.
Proof.
  intros Hroute.
  unfold calculate_route_time, _calculate_route_time.
  destruct (length route <? 2)%nat eqn:Elen.
  - eexists. reflexivity.
  - apply Nat.ltb_ge in Elen.
    destruct (@for_each_invariant nat fval (fun _ => True)
                (fun i total_time =>
                   t <- fmat_get tm (nth i route 0%Z) (nth (i + 1) route 0%Z) ;;
                   Ret (fadd total_time t))
                (seq 0 (length route - 1))) with (s := Fin 0)
      as [total [Etotal _]].
    + intros i s Hi _. apply in_seq in Hi.
      destruct (@fmat_get_in_range (nth i route 0%Z) (nth (i + 1) route 0%Z))
        as [x Ex]; try (apply nth_in_range; [exact Hroute | lia]).
      rewrite Ex. simpl. eexists; split; [reflexivity | exact I].
    + exact I.
    + rewrite Etotal. simpl.
      destruct (negb (nth (length route - 1) route 0 =? 0)%Z).
      * assert (Hlast : in_range n (nth (length route - 1) route 0%Z))
          by (apply nth_in_range; [exact Hroute | lia]).
        assert (H0 : in_range n 0%Z) by (unfold in_range in *; lia).
        destruct (fmat_get_in_range Hlast H0) as [x Ex].
        rewrite Ex. simpl. eexists. reflexivity.
      * simpl. eexists. reflexivity.
Qed.

End SquareMatrix.

(** ** Reversing a segment *)
Section ReverseSegment.

Lemma reverse_segment_perm (route : list Z) (i j : nat) :
  (i <= j)%nat -> Permutation route (reverse_segment route i j).
Proof.
  intros Hij. unfold reverse_segment.
  replace j with ((j - i) + i)%nat at 2 by lia.
  rewrite <- skipn_skipn.
  rewrite <- (firstn_skipn i route) at 1.
  apply Permutation_app_head.
  rewrite <- (firstn_skipn (j - i) (skipn i route)) at 1.
  apply Permutation_app_tail, Permutation_rev.
Qed.

Lemma reverse_segment_hd (route : list Z) (i j : nat) :
  (1 <= i)%nat ->
  hd_error (reverse_segment route i j) = hd_error route.
Proof.
  intros Hi. unfold reverse_segment.
  destruct i as [|i]; [lia|]. destruct route as [|v route].
  - now rewrite !skipn_nil, !firstn_nil.
  - reflexivity.
Qed.

End ReverseSegment.

(** ** 2-opt *)
Section TwoOpt.
Variable n : nat.
Variable tm : fmatrix.
Hypothesis Hsq : square n tm.
Variable route0 : list Z.
Variable t0 : pyfloat.

Hypothesis Hvalid : Forall (in_range n) route0.

Lemma two_opt_inner_inv (i : nat) (st : list Z * pyfloat) :
  (1 <= i)%nat -> two_opt_inv tm route0 t0 st ->
  exists st' b,
    two_opt_inner tm i st = Ret (st', b) /\ two_opt_inv tm route0 t0 st'.
Proof.
  intros Hi Hst. unfold two_opt_inner.
  apply (@for_each_break_invariant nat _ (two_opt_inv tm route0 t0)); [|exact Hst].
  intros j s Hj Hs.
  apply in_seq in Hj.
  destruct Hs as [Hperm [Hhd [Hcalc Hle]]].
  assert (Hperm' : Permutation route0 (reverse_segment (fst s) i j)).
  { etransitivity; [exact Hperm|]. apply reverse_segment_perm. lia. }
  destruct (@calculate_route_time_valid n tm Hsq (reverse_segment (fst s) i j))
    as [t Et].
  { eapply Permutation_Forall; [exact Hperm' | exact Hvalid]. }
  rewrite Et. simpl.
  destruct (improves t (snd s)) eqn:Eimp.
  - eexists _, _. split; [reflexivity|].
    repeat split; simpl.
    + exact Hperm'.
    + rewrite reverse_segment_hd by exact Hi. exact Hhd.
    + exact Et.
    + intros Hn. unfold float_le in *.
      eapply fleb_trans; [|exact (Hle Hn)].
      apply improves_le; [|exact Eimp].
      eapply calculate_route_time_float, Hcalc.
  - eexists _, _. split; [reflexivity|].
    repeat split; assumption.
Qed.

Lemma two_opt_pass_inv (st : list Z * pyfloat) :
  two_opt_inv tm route0 t0 st ->
  exists st', two_opt_pass tm st = Ret st' /\ two_opt_inv tm route0 t0 st'.
Proof.
  intros Hst. unfold two_opt_pass.
  destruct (@for_each_break_invariant nat _ (two_opt_inv tm route0 t0)
              (fun i st => two_opt_inner tm i st)
              (seq 1 (length (fst st) - 2 - 1))) with (s := st)
    as [st' [b [E H]]].
  - intros i s Hi Hs. apply in_seq in Hi. apply two_opt_inner_inv; [lia | exact Hs].
  - exact Hst.
  - rewrite E. simpl. exists st'. split; [reflexivity | exact H].
Qed.

(** The search returns, with a permutation of the route that keeps its
    first element and whose time is no larger, unless the time of the route
    is [nan]. *)
Lemma two_opt_improvement_inv :
  calculate_route_time route0 tm = Ret t0 ->
  exists r t,
    two_opt_improvement route0 tm = Ret r /\
    two_opt_inv tm route0 t0 (r, t).
Proof.
  intros Ht0.
  assert (Hinit : two_opt_inv tm route0 t0 (route0, t0)).
  { repeat split; simpl; auto.
    intros Hn. now apply fleb_refl. }
  unfold two_opt_improvement.
  destruct (length route0 <=? 3)%nat.
  - exists route0, t0. split; [reflexivity | exact Hinit].
  - rewrite Ht0. cbn [bind].
    destruct (@for_each_invariant nat _ (two_opt_inv tm route0 t0)
                (fun _ st => two_opt_pass tm st) (seq 0 10))
      with (s := (route0, t0)) as [[r t] [E H]].
    + intros _ s _ Hs. apply two_opt_pass_inv, Hs.
    + exact Hinit.
    + rewrite E. simpl. exists r, t. split; [reflexivity | exact H].
Qed.

End TwoOpt.

(** C10, as stated, fails on a matrix with a [nan] entry, which is what the
    simulators return for a [nan] coordinate: the route [0, 1] has length 2
    and its entries index the matrix, its route time is [nan], the search
    returns it as it is, and [nan <= nan] is false. *)
Lemma two_opt_improvement_nan_time :
  let tm := [[Fin 0; NaN]; [NaN; Fin 0]] in
  let route := [0; 1]%Z in
  square 2 tm /\ (2 <= length route)%nat /\ Forall (in_range 2) route /\
  (exists t, calculate_route_time route tm = Ret t /\ fv t = NaN) /\
  ~ permutes_and_improves tm route.
Proof.
  intros tm route.
  split; [split; [reflexivity | repeat constructor]|].
  split; [simpl; lia|].
  split; [repeat constructor; unfold in_range; simpl; lia|].
  split; [eexists; split; [vm_compute; reflexivity | reflexivity]|].
  intros [r [t [t' [Er [_ [_ [Et [Et' Hle]]]]]]]].
  vm_compute in Er. inversion Er; subst r.
  vm_compute in Et, Et'. inversion Et; subst t. inversion Et'; subst t'.
  discriminate Hle.
Qed.

(** C10, amended.  On an N-by-N matrix, for every route of length at least 2
    whose entries index the matrix, [two_opt_improvement] returns a
    permutation of the route with the same first element; and when the
    route time of the route is not [nan], the route time of the result is
    less than or equal to it. *)
Theorem two_opt_improvement_permutes_and_improves
  (n : nat) (tm : fmatrix) (route : list Z) :
  square n tm ->
  (2 <= length route)%nat ->
  Forall (in_range n) route ->
  exists r t t',
    two_opt_improvement route tm = Ret r /\
    Permutation route r /\
    hd_error r = hd_error route /\
    calculate_route_time route tm = Ret t /\
    calculate_route_time r tm = Ret t' /\
    (is_number (fv t) -> float_le t' t).
Proof.
  intros Hsq _ Hvalid.
  destruct (calculate_route_time_valid Hsq Hvalid) as [t Et].
  destruct (two_opt_improvement_inv Hsq Hvalid Et) as [r [t' [Er Hinv]]].
  destruct Hinv as [Hperm [Hhd [Hcalc Hle]]]. simpl in *.
  exists r, t, t'. repeat split; assumption.
Qed.

Lemma two_opt_improvement_witness :
  let tm := [[Fin 0; Fin 10; Fin 2; Fin 7; Fin 3];
             [Fin 10; Fin 0; Fin 4; Fin 1; Fin 9];
             [Fin 2; Fin 4; Fin 0; Fin 8; Fin 6];
             [Fin 7; Fin 1; Fin 8; Fin 0; Fin 5];
             [Fin 3; Fin 9; Fin 6; Fin 5; Fin 0]] in
  let route := [0; 1; 2; 3; 4]%Z in
  exists r t t',
    two_opt_improvement route tm = Ret r /\
    Permutation route r /\
    hd_error r = hd_error route /\
    calculate_route_time route tm = Ret t /\
    calculate_route_time r tm = Ret t' /\
    (is_number (fv t) -> float_le t' t).
Proof.
  intros tm route.
  apply (@two_opt_improvement_permutes_and_improves 5 tm route).
  - split; [reflexivity | repeat constructor].
  - simpl. lia.
  - repeat constructor; unfold in_range; simpl; lia.
Defined.

(** ** The simplified optimizer *)
Section NearestNeighbor.
Variable tm : fmatrix.

Lemma min_by_time_in (current : Z) (l : list Z) :
  forall best best_key x,
    min_by_time tm current best best_key l = Ret x -> x = best \/ In x l.
Proof.
  induction l as [|y l IH]; intros best best_key x; simpl.
  - intros H; inversion H; auto.
  - destruct (fmat_get tm current y) as [k|e]; simpl; [|discriminate].
    destruct (fltb k best_key); intros H; apply IH in H;
      intuition (subst; auto).
Qed.

Lemma nearest_in (current : Z) (unvisited : list Z) (x : Z) :
  nearest tm current unvisited = Ret x -> In x unvisited.
Proof.
  destruct unvisited as [|y l]; simpl; [discriminate|].
  destruct (fmat_get tm current y) as [k|e]; simpl; [|discriminate].
  intros H. apply min_by_time_in in H. destruct H; [left; congruence | now right].
Qed.

Lemma remove_first_incl (x : Z) (l : list Z) : incl (remove_first x l) l.
Proof.
  induction l as [|y l IH]; simpl.
  - apply incl_refl.
  - destruct (x =? y)%Z.
    + apply incl_tl, incl_refl.
    + intros z [Hz|Hz]; [now left | right; now apply IH].
Qed.

Lemma remove_first_length (x : Z) (l : list Z) :
  In x l -> S (length (remove_first x l)) = length l.
Proof.
  induction l as [|y l IH]; simpl; [contradiction|].
  intros Hin. destruct (x =? y)%Z eqn:E; [reflexivity|].
  apply Z.eqb_neq in E. destruct Hin as [Hy|Hin]; [congruence|].
  simpl. now rewrite IH.
Qed.

(** The fuel is enough: with at least [len(unvisited)] iterations allowed
    the loop ends because [unvisited] is empty, whatever the allowance. *)
Lemma nearest_neighbor_loop_fuel (fuel : nat) :
  forall fuel' unvisited route current,
    (length unvisited <= fuel)%nat -> (length unvisited <= fuel')%nat ->
    nearest_neighbor_loop fuel tm unvisited route current
    = nearest_neighbor_loop fuel' tm unvisited route current.
Proof.
  induction fuel as [|fuel IH]; intros fuel' unvisited route current H H'.
  - destruct unvisited; [|simpl in H; lia]. now destruct fuel'.
  - destruct unvisited as [|y l]; [now destruct fuel'|].
    destruct fuel' as [|fuel']; [simpl in H'; lia|].
    cbn [nearest_neighbor_loop].
    destruct (nearest tm current (y :: l)) as [x|e] eqn:Ex; [|reflexivity].
    cbn [bind]. apply nearest_in in Ex.
    pose proof (remove_first_length _ _ Ex) as Hlen.
    apply IH; simpl in *; lia.
Qed.
(** Every node of the route the loop returns comes from the route it
    started with or from [unvisited]. *)
Lemma nearest_neighbor_loop_nodes (P : Z -> Prop) (fuel : nat) :
  forall unvisited route current r,
    Forall P unvisited -> Forall P route ->
    nearest_neighbor_loop fuel tm unvisited route current = Ret r ->
    Forall P r.
Proof.
  induction fuel as [|fuel IH]; intros unvisited route current r Hu Hr.
  - destruct unvisited; simpl; intros H; inversion H; subst; exact Hr.
  - destruct unvisited as [|y l]; [simpl; intros H; inversion H; subst; exact Hr|].
    cbn [nearest_neighbor_loop].
    destruct (nearest tm current (y :: l)) as [x|e] eqn:Ex; [|discriminate].
    cbn [bind]. apply IH.
    + rewrite Forall_forall in *. intros z Hz.
      apply Hu. eapply remove_first_incl, Hz.
    + apply Forall_app. split; [exact Hr|].
      constructor; [|constructor].
      rewrite Forall_forall in Hu. apply Hu. eapply nearest_in, Ex.
Qed.

Lemma range_from_1_in_range (n : nat) : Forall (in_range n) (range_from_1 n).
Proof.
  unfold range_from_1. rewrite Forall_forall. intros v Hv.
  apply in_map_iff in Hv. destruct Hv as [k [<- Hk]].
  apply in_seq in Hk. unfold in_range. lia.
Qed.

Lemma nearest_neighbor_in_range (r : list Z) :
  (1 <= length tm)%nat ->
  nearest_neighbor tm = Ret r -> Forall (in_range (length tm)) r.
Proof.
  intros Hn. unfold nearest_neighbor.
  apply nearest_neighbor_loop_nodes.
  - apply range_from_1_in_range.
  - constructor; [unfold in_range; lia | constructor].
Qed.

Lemma random_route_in_range :
  (1 <= length tm)%nat -> Forall (in_range (length tm)) (random_route tm).
Proof.
  intros Hn. unfold random_route. constructor.
  - unfold in_range; lia.
  - apply range_from_1_in_range.
Qed.

Lemma min_strategy_in (l : list (list Z * pyfloat)) :
  forall best, In (min_strategy best l) (best :: l).
Proof.
  induction l as [|s l IH]; intros best; simpl.
  - now left.
  - destruct (fltb (fv (snd s)) (fv (snd best))).
    + right. apply IH.
    + destruct (IH best) as [H|H]; [left; exact H | right; right; exact H].
Qed.

End NearestNeighbor.

Section OptimizeRoute.
Variable n : nat.
Variable tm : fmatrix.
Hypothesis Hsq : square n tm.
Hypothesis Hn : (2 <= n)%nat.

Lemma two_opt_improvement_in_range (route : list Z) :
  Forall (in_range n) route ->
  exists r, two_opt_improvement route tm = Ret r /\ Forall (in_range n) r.
Proof.
  intros Hroute.
  destruct (calculate_route_time_valid Hsq Hroute) as [t Et].
  destruct (two_opt_improvement_inv Hsq Hroute Et) as [r [t' [Er Hinv]]].
  exists r. split; [exact Er|].
  destruct Hinv as [Hperm _]. eapply Permutation_Forall; eassumption.
Qed.

(** The route [multi_strategy_optimize] picks indexes the matrix. *)
Lemma multi_strategy_optimize_in_range (base : list Z) :
  nearest_neighbor tm = Ret base ->
  exists r, multi_strategy_optimize tm = Ret r /\ Forall (in_range n) r.
Proof.
  intros Hbase. pose proof Hsq as [Hlen _].
  assert (Hvalid : Forall (in_range n) base).
  { rewrite <- Hlen. apply nearest_neighbor_in_range; [lia | exact Hbase]. }
  unfold multi_strategy_optimize. rewrite Hbase. cbn [bind].
  destruct (calculate_route_time_valid Hsq Hvalid) as [tb Etb].
  rewrite Etb. cbn [bind].
  destruct (two_opt_improvement_in_range Hvalid) as [opt [Eopt Hopt]].
  rewrite Eopt. cbn [bind].
  destruct (calculate_route_time_valid Hsq Hopt) as [to Eto].
  rewrite Eto. cbn [bind].
  destruct (3 <? length tm)%nat.
  - assert (Hrand : Forall (in_range n) (random_route tm)).
    { rewrite <- Hlen. apply random_route_in_range. lia. }
    destruct (two_opt_improvement_in_range Hrand) as [ropt [Eropt Hropt]].
    rewrite Eropt. cbn [bind].
    destruct (calculate_route_time_valid Hsq Hropt) as [tr Etr].
    rewrite Etr. cbn [bind].
    eexists. split; [reflexivity|].
    destruct (min_strategy_in [(opt, to); (ropt, tr)] (base, tb))
      as [H | [H | [H | []]]]; rewrite <- H; assumption.
  - cbn [bind]. eexists. split; [reflexivity|].
    destruct (min_strategy_in [(opt, to)] (base, tb))
      as [H | [H | []]]; rewrite <- H; assumption.
Qed.

End OptimizeRoute.

(** C9.  The report is meant to state an improvement of at least 5 percent
    (the source: "minimum 5% for demo"), and the claim says so for every
    matrix with two nodes or more.  On the two-node matrix of zeros (two
    stops at the same place) the baseline time is 0, the improvement
    [(0 - 0) / 0 * 100] is [nan], [max(nan, 5.0)] is [nan] again, and so is
    the time saved: the call returns a report whose improvement is not at
    least 5 and whose time saved is not positive. *)
Theorem optimize_route_reports_nan_on_zero_matrix :
  let tm := [[Fin 0; Fin 0]; [Fin 0; Fin 0]] in
  square 2 tm /\
  (exists res,
     optimize_route tm = Ret res /\
     fv (baseline_time res) = Fin 0 /\
     fv (improvement_percent res) = NaN /\
     fv (time_saved_minutes res) = NaN) /\
  ~ reports_clamped_improvement tm.
Proof.
  intros tm.
  split; [split; [reflexivity | repeat constructor]|].
  split; [eexists; split; [vm_compute; reflexivity | repeat split]|].
  intros [res [fraction [E [H _]]]].
  vm_compute in E. inversion E; subst res. exact H.
Qed.

(** ** traffic_simulator.py: the travel-time matrix *)

Import TrafficSimulator TrafficProps.
Local Open Scope string_scope.
Local Open Scope R_scope.

(** ** Great-circle distance *)
Section Haversine.

Lemma sin_half_sqr (x : R) : sin (x / 2) * sin (x / 2) = (1 - cos x) / 2.
Proof.
  pose proof (cos_2a_sin (x / 2)) as H.
  replace (2 * (x / 2)) with x in H by lra. lra.
Qed.

(** The haversine term lies in [0, 1] when both latitudes lie in
    [-pi/2, pi/2]. *)
Lemma haversine_term_bounds (p1 p2 dl : R) :
  - (PI / 2) <= p1 <= PI / 2 ->
  - (PI / 2) <= p2 <= PI / 2 ->
  0 <= sin ((p2 - p1) / 2) * sin ((p2 - p1) / 2)
       + cos p1 * cos p2 * (sin (dl / 2) * sin (dl / 2)) <= 1.
Proof.
  intros [H1a H1b] [H2a H2b].
  pose proof (cos_ge_0 p1 H1a H1b) as Hc1.
  pose proof (cos_ge_0 p2 H2a H2b) as Hc2.
  pose proof (SIN_bound (dl / 2)) as Hs.
  pose proof (SIN_bound ((p2 - p1) / 2)) as Hd.
  assert (Hcc : 0 <= cos p1 * cos p2) by (apply Rmult_le_pos; assumption).
  assert (Hss : 0 <= sin (dl / 2) * sin (dl / 2) <= 1) by nra.
  split.
  - assert (0 <= sin ((p2 - p1) / 2) * sin ((p2 - p1) / 2)) by nra.
    assert (0 <= cos p1 * cos p2 * (sin (dl / 2) * sin (dl / 2)))
      by (apply Rmult_le_pos; lra).
    lra.
  - rewrite sin_half_sqr.
    assert (Hle : cos p1 * cos p2 * (sin (dl / 2) * sin (dl / 2))
                  <= cos p1 * cos p2) by nra.
    rewrite cos_minus in *.
    pose proof (COS_bound (p2 + p1)) as Hsum.
    rewrite cos_plus in Hsum. lra.
Qed.

Lemma asin_nonneg (x : R) : 0 <= x <= 1 -> 0 <= asin x.
Proof.
  intros [H0 H1].
  destruct (Rle_or_lt 0 (asin x)) as [H|H]; [exact H|].
  pose proof (asin_bound x) as [Hlo _].
  pose proof PI_RGT_0 as Hpi.
  assert (Hsin : sin (asin x) < 0) by (apply sin_lt_0_var; lra).
  rewrite sin_asin in Hsin by lra. lra.
Qed.

Lemma radians_latitude (lat : R) :
  -90 <= lat <= 90 -> - (PI / 2) <= lat * (PI / 180) <= PI / 2.
Proof.
  intros [Hlo Hhi]. pose proof PI_RGT_0 as Hpi. split; nra.
Qed.

(** Between two valid coordinates the distance is a number, and it is
    not negative. *)
Lemma haversine_distance_valid (c1 c2 : coord) :
  valid_coord c1 -> valid_coord c2 ->
  exists d, haversine_distance c1 c2 = Num d /\ 0 <= d.
Proof.
  intros [lat1 [lon1 [-> [Hlat1 _]]]] [lat2 [lon2 [-> [Hlat2 _]]]].
  unfold haversine_distance. cbn [fst snd np_radians lift1 np_sub lift2
    np_div_const np_sin np_cos np_square np_mul np_add].
  set (a := sin ((lat2 * (PI / 180) - lat1 * (PI / 180)) / 2)
            * sin ((lat2 * (PI / 180) - lat1 * (PI / 180)) / 2)
            + cos (lat1 * (PI / 180)) * cos (lat2 * (PI / 180))
              * (sin ((lon2 * (PI / 180) - lon1 * (PI / 180)) / 2)
                 * sin ((lon2 * (PI / 180) - lon1 * (PI / 180)) / 2))).
  assert (Ha : 0 <= a <= 1).
  { apply haversine_term_bounds; apply radians_latitude; assumption. }
  unfold np_sqrt. destruct (Rlt_dec a 0) as [Hneg|_]; [lra|].
  assert (Hs : 0 <= sqrt a <= 1).
  { split; [apply sqrt_pos|].
    rewrite <- sqrt_1. apply sqrt_le_1_alt. lra. }
  unfold np_arcsin.
  destruct (Rlt_dec (sqrt a) (-1)) as [Hlo|_]; [lra|].
  destruct (Rlt_dec 1 (sqrt a)) as [Hhi|_]; [lra|].
  cbn [lift1 np_mul_const].
  eexists. split; [reflexivity|].
  pose proof (asin_nonneg Hs). nra.
Qed.

End Haversine.

(** ** Multipliers *)
Section Multipliers.

Lemma weather_impact_pos (weather : String.string) : 0 < weather_impact weather.
Proof.
  unfold weather_impact.
  repeat match goal with
         | |- context [if ?c then _ else _] => destruct c
         end; lra.
Qed.

Lemma peak_factor_pos (hour : Z) : 0 < peak_factor hour.
Proof.
  unfold peak_factor.
  repeat match goal with
         | |- context [if ?c then _ else _] => destruct c
         end; lra.
Qed.

Lemma get_time_multiplier_pos (hour day_of_week : Z) (weather : String.string) :
  0 < get_time_multiplier hour day_of_week weather.
Proof.
  unfold get_time_multiplier.
  pose proof (peak_factor_pos hour) as Hp.
  pose proof (weather_impact_pos weather) as Hw.
  destruct (5 <=? day_of_week)%Z; apply Rmult_lt_0_compat; lra.
Qed.

Lemma incident_multipliers_pos (incident_type : String.string) :
  0 < incident_multipliers incident_type.
Proof.
  unfold incident_multipliers.
  repeat match goal with
         | |- context [if ?c then _ else _] => destruct c
         end; lra.
Qed.

Lemma dict_get_in {V : Type} (d : dict edge_id V) (e : edge_id) (v : V) :
  dict_get QuboBuilder.pair_eqb d e = Some v -> exists e', In (e', v) d.
Proof.
  induction d as [|[e0 v0] d IH]; simpl; [discriminate|].
  destruct (QuboBuilder.pair_eqb e e0).
  - intros H; inversion H; subst. exists e0. now left.
  - intros H. destruct (IH H) as [e' He']. exists e'. now right.
Qed.

Lemma get_edge_multiplier_nonneg (sim : simulator) (e : edge_id)
  (current_time : datetime) :
  incidents_nonneg sim -> 0 <= get_edge_multiplier sim e current_time.
Proof.
  intros Hsim. unfold get_edge_multiplier.
  destruct (dict_get QuboBuilder.pair_eqb (incidents sim) e) as [inc|] eqn:E;
    [|lra].
  destruct (_ && _); [|lra].
  destruct (dict_get_in _ _ E) as [e' Hin].
  unfold incidents_nonneg in Hsim. rewrite Forall_forall in Hsim.
  apply (Hsim (e', inc) Hin).
Qed.

(** Registering an incident of non-negative severity keeps every
    multiplier non-negative. *)
Lemma add_incident_nonneg (clock : nat -> datetime) (sim : simulator)
  (e : edge_id) (incident_type : String.string) (severity : R) :
  0 <= severity -> incidents_nonneg sim ->
  incidents_nonneg (add_incident clock sim e incident_type severity).
Proof.
  intros Hsev Hsim. unfold incidents_nonneg, add_incident in *. simpl.
  set (inc := mk_incident _ _ _ _ _).
  assert (Hinc : 0 <= multiplier inc).
  { simpl. unfold predict_incident_impact.
    pose proof (incident_multipliers_pos incident_type). nra. }
  clearbody inc.
  induction (incidents sim) as [|[e0 v0] d IH]; simpl.
  - constructor; [exact Hinc | constructor].
  - inversion Hsim; subst. destruct (QuboBuilder.pair_eqb e e0).
    + constructor; assumption.
    + constructor; [assumption | now apply IH].
Qed.

(** Every simulator the program builds has non-negative multipliers only. *)
Lemma reachable_nonneg (clock : nat -> datetime) (sim : simulator) :
  reachable clock sim -> incidents_nonneg sim.
Proof.
  induction 1 as [|sim _ IH|sim e ty sev _ IH Hsev].
  - constructor.
  - exact IH.
  - now apply add_incident_nonneg.
Qed.

(** [simulate_scenario] leaves a simulator of that kind: the severities it
    passes are 1.5, 1.2 and 2.0. *)
Lemma simulate_scenario_reachable (clock : nat -> datetime)
  (sim sim' : simulator) (coords : list coord) (scenario : String.string)
  (res : scenario_result) :
  reachable clock sim ->
  simulate_scenario clock sim coords scenario = Ret (res, sim') ->
  reachable clock sim'.
Proof.
  intros Hsim. apply reach_now in Hsim. revert Hsim.
  unfold simulate_scenario, now. cbn [snd].
  set (sim0 := mk_simulator (incidents sim) (S (clock_reads sim))).
  clearbody sim0. intros H0.
  destruct (String.eqb scenario "normal");
    [cbn -[travel_time_matrix]; intros H; inversion H; subst; exact H0|].
  destruct (String.eqb scenario "peak");
    [cbn -[travel_time_matrix]; intros H; inversion H; subst; exact H0|].
  destruct (String.eqb scenario "incident").
  { cbn -[travel_time_matrix add_incident]. intros H; inversion H; subst.
    apply reach_incident; [|lra]. apply reach_incident; [|lra].
    exact H0. }
  destruct (String.eqb scenario "storm"); [|discriminate].
  cbn -[travel_time_matrix add_incident for_range].
  intros H; inversion H; subst.
  apply for_range_invariant; [|exact H0].
  intros i s _ Hs. apply reach_incident; [exact Hs | lra].
Qed.

End Multipliers.

(** ** The travel-time matrix *)
Section TravelTimeMatrix.
Variable sim : simulator.
Variable coords : list coord.
Variable current_time : datetime.
Variable weather : String.string.

Lemma travel_time_matrix_rows :
  length (travel_time_matrix sim coords current_time weather) = length coords.
Proof.
  unfold travel_time_matrix. now rewrite length_map, length_seq.
Qed.

Lemma travel_time_matrix_columns :
  Forall (fun row => length row = length coords)
         (travel_time_matrix sim coords current_time weather).
Proof.
  unfold travel_time_matrix. rewrite Forall_forall. intros row Hrow.
  apply in_map_iff in Hrow. destruct Hrow as [i [<- _]].
  now rewrite length_map, length_seq.
Qed.

Lemma travel_time_matrix_entry (i j : nat) :
  (i < length coords)%nat -> (j < length coords)%nat ->
  entry (travel_time_matrix sim coords current_time weather) i j
  = if (i =? j)%nat then Num 0
    else travel_time sim coords current_time weather i j.
Proof.
  intros Hi Hj. unfold entry, travel_time_matrix.
  set (row := fun i => map (fun j => if (i =? j)%nat then Num 0
                 else travel_time sim coords current_time weather i j)
                 (seq 0 (length coords))).
  rewrite (nth_indep _ [] (row 0%nat)) by (now rewrite length_map, length_seq).
  rewrite (map_nth row), seq_nth by exact Hi. simpl. unfold row.
  set (cell := fun j => if (i =? j)%nat then Num 0
                 else travel_time sim coords current_time weather i j).
  rewrite (nth_indep _ Nan (cell 0%nat)) by (now rewrite length_map, length_seq).
  rewrite (map_nth cell), seq_nth by exact Hj. reflexivity.
Qed.

Hypothesis Hcoords : Forall valid_coord coords.
Hypothesis Hsim : incidents_nonneg sim.

(** Every off-diagonal entry is a number, and it is not negative. *)
Lemma travel_time_clean (i j : nat) :
  (i < length coords)%nat -> (j < length coords)%nat ->
  exists r, travel_time sim coords current_time weather i j = Num r /\ 0 <= r.
Proof.
  intros Hi Hj. rewrite Forall_forall in Hcoords.
  destruct (@haversine_distance_valid (nth i coords (Nan, Nan))
                                       (nth j coords (Nan, Nan)))
    as [d [Ed Hd]]; try (apply Hcoords, nth_In; assumption).
  unfold travel_time. rewrite Ed. cbn [np_div_const np_mul_const lift1].
  eexists. split; [reflexivity|].
  pose proof (get_time_multiplier_pos (hour_of current_time)
                (weekday_of current_time) weather) as Ht.
  pose proof (get_edge_multiplier_nonneg (i, j) current_time Hsim) as He.
  unfold base_speed_kmph.
  apply Rmult_le_pos; [|exact He].
  apply Rmult_le_pos; [|lra]. lra.
Qed.

Lemma travel_time_matrix_clean :
  Forall (Forall clean) (travel_time_matrix sim coords current_time weather).
Proof.
  unfold travel_time_matrix. rewrite Forall_forall. intros row Hrow.
  apply in_map_iff in Hrow. destruct Hrow as [i [<- Hi]].
  rewrite Forall_forall. intros v Hv.
  apply in_map_iff in Hv. destruct Hv as [j [<- Hj]].
  apply in_seq in Hi, Hj.
  destruct (i =? j)%nat; [simpl; lra|].
  destruct (@travel_time_clean i j) as [r [-> Hr]]; [lia | lia | exact Hr].
Qed.

End TravelTimeMatrix.

(** C8.  For every list of valid coordinates (numbers, latitude within
    [-90, 90], longitude within [-180, 180]), on every simulator the program
    builds, whatever the timestamp and the weather, the computed travel-time
    matrix is square with side [len(coords)], is zero on the diagonal and
    holds a non-negative number in every off-diagonal entry. *)
Theorem travel_time_matrix_well_formed (clock : nat -> datetime)
  (sim : simulator) (coords : list coord) (current_time : option datetime)
  (weather : String.string) :
  reachable clock sim ->
  Forall valid_coord coords ->
  let m := fst (compute_travel_time_matrix clock sim coords current_time
                  weather) in
  let n := length coords in
  length m = n /\
  Forall (fun row => length row = n) m /\
  (forall i, (i < n)%nat -> entry m i i = Num 0) /\
  (forall i j, (i < n)%nat -> (j < n)%nat -> i <> j ->
               exists r, entry m i j = Num r /\ 0 <= r).
Proof.
  intros Hsim Hcoords m n. subst m n.
  assert (Hnonneg : incidents_nonneg
                      (snd (compute_travel_time_matrix clock sim coords
                              current_time weather))).
  { destruct current_time; apply (@reachable_nonneg clock);
      [exact Hsim | apply reach_now, Hsim]. }
  revert Hnonneg. unfold compute_travel_time_matrix.
  destruct current_time as [t|]; cbn [now fst snd]; intros Hnonneg.
  all: split; [apply travel_time_matrix_rows|].
  all: split; [apply travel_time_matrix_columns|].
  all: split;
    [ intros i Hi; rewrite travel_time_matrix_entry by assumption;
      now rewrite Nat.eqb_refl
    | intros i j Hi Hj Hij;
      rewrite travel_time_matrix_entry by assumption;
      apply Nat.eqb_neq in Hij; rewrite Hij;
      now apply travel_time_clean ].
Qed.

(** C8 at the first two sample coordinates, on a new simulator. *)
Lemma travel_time_matrix_well_formed_witness :
  let coords := [(Num 28.6139, Num 77.2090); (Num 28.6239, Num 77.2190)] in
  let m := fst (compute_travel_time_matrix (fun _ => 0%Z) new_simulator coords
                  None "clear") in
  length m = 2%nat /\
  Forall (fun row => length row = 2%nat) m /\
  (forall i, (i < 2)%nat -> entry m i i = Num 0) /\
  (forall i j, (i < 2)%nat -> (j < 2)%nat -> i <> j ->
               exists r, entry m i j = Num r /\ 0 <= r).
Proof.
  intros coords m.
  apply (@travel_time_matrix_well_formed (fun _ => 0%Z) new_simulator coords
           None "clear").
  - apply reach_new.
  - repeat constructor; eexists _, _; (split; [reflexivity | lra]).
Defined.

(** ** Validation *)

(** C5, as stated, fails: a coordinate list whose first latitude is [nan] is
    not rejected; the matrix comes back with [nan] entries. *)
Lemma nan_coordinate_is_accepted :
  let coords := [(Nan, Num 0); (Num 0, Num 0)] in
  let m := fst (compute_travel_time_matrix (fun _ => 0%Z) new_simulator coords
                  None "clear") in
  entry m 0 1 = Nan /\ ~ validated coords m.
Proof.
  intros coords m. split; [reflexivity|].
  intros [Hcoords _]. inversion Hcoords as [|c l Hc _]; subst.
  destruct Hc as [lat [lon [E _]]]. discriminate E.
Qed.

(** C5, amended: the time-matrix computation does not validate its
    coordinates; for every list of coordinates that are numbers with latitude
    within [-90, 90] and longitude within [-180, 180], on every simulator the
    program builds, the returned matrix contains no negative and no [nan]
    entry. *)
Theorem compute_travel_time_matrix_clean (clock : nat -> datetime)
  (sim : simulator) (coords : list coord) (current_time : option datetime)
  (weather : String.string) :
  reachable clock sim ->
  Forall valid_coord coords ->
  Forall (Forall clean)
         (fst (compute_travel_time_matrix clock sim coords current_time weather)).
Proof.
  intros Hsim Hcoords. unfold compute_travel_time_matrix.
  destruct current_time as [t|]; cbn [now fst];
    apply travel_time_matrix_clean; try assumption;
    apply (@reachable_nonneg clock); [exact Hsim | apply reach_now, Hsim].
Qed.

Lemma compute_travel_time_matrix_clean_witness :
  Forall (Forall clean)
         (fst (compute_travel_time_matrix (fun _ => 0%Z) new_simulator
                 [(Num 28.6139, Num 77.2090); (Num 28.6239, Num 77.2190)]
                 None "clear")).
Proof.
  apply compute_travel_time_matrix_clean.
  - apply reach_new.
  - repeat constructor; eexists _, _; (split; [reflexivity | lra]).
Defined.

(** ** Scenario runs on one simulator *)
Section ScenarioHistory.

Lemma haversine_equator :
  haversine_distance (Num 0, Num 0) (Num 0, Num 180) = Num (2 * (PI / 2) * 6371).
Proof.
  unfold haversine_distance. cbn [fst snd np_radians lift1 np_sub lift2
    np_div_const np_sin np_cos np_square np_mul np_add].
  replace ((0 * (PI / 180) - 0 * (PI / 180)) / 2) with 0 by lra.
  replace (0 * (PI / 180)) with 0 by lra.
  replace ((180 * (PI / 180) - 0) / 2) with (PI / 2) by lra.
  rewrite sin_0, cos_0, sin_PI2.
  replace (0 * 0 + 1 * 1 * (1 * 1)) with 1 by lra.
  unfold np_sqrt. destruct (Rlt_dec 1 0) as [H|_]; [lra|].
  rewrite sqrt_1. unfold np_arcsin.
  destruct (Rlt_dec 1 (-1)) as [H|_]; [lra|].
  destruct (Rlt_dec 1 1) as [H|_]; [lra|].
  rewrite asin_1. reflexivity.
Qed.

End ScenarioHistory.

(** C6.  Two runs of the normal scenario on the same two coordinates, both
    at timestamp 2: one on a new simulator, one on a simulator that ran the
    storm scenario just before (clock readings 0 and 1).  The second run
    still sees the storm's road closure on edge 0-1 and its matrix differs
    from the first run's.  The claim asks for the same matrix. *)
Theorem simulate_scenario_depends_on_history :
  exists resA simA res1 sim1 resB simB,
    simulate_scenario (fun _ => 2%Z) new_simulator equator_coords "normal"
    = Ret (resA, simA) /\
    simulate_scenario Z.of_nat new_simulator equator_coords "storm"
    = Ret (res1, sim1) /\
    simulate_scenario Z.of_nat sim1 equator_coords "normal" = Ret (resB, simB) /\
    result_current_time resA = result_current_time resB /\
    result_time_matrix resA <> result_time_matrix resB.
Proof.
  eexists _, _, _, _, _, _.
  split; [reflexivity|]. split; [reflexivity|]. split; [reflexivity|].
  split; [reflexivity|].
  cbn [result_time_matrix].
  intros Heq. apply (f_equal (fun m => entry m 0 1)) in Heq.
  rewrite !travel_time_matrix_entry in Heq by (simpl; lia).
  cbn [Nat.eqb] in Heq. unfold travel_time, equator_coords in Heq.
  cbn [nth] in Heq. rewrite haversine_equator in Heq.
  cbn in Heq. inversion Heq as [Hreal]. clear Heq.
  unfold base_speed_kmph, get_time_multiplier, peak_factor, weather_impact,
    predict_incident_impact, incident_multipliers in Hreal.
  cbn in Hreal. pose proof PI_RGT_0. lra.
Qed.

(* ================================================================== *)
(** * Part III: further properties of the embedded code *)
(* ================================================================== *)

Local Close Scope R_scope.
Local Close Scope string_scope.

(** ** quantum_solver.py: the greedy solver and the solver chain *)

Import QuboBuilder QuantumSolver Props MoreProps.

Section NatDict.
Context {V : Type}.

Lemma nat_dict_get_set (d : dict nat V) (k k' : nat) (v : V) :
  dict_get Nat.eqb (dict_set Nat.eqb d k v) k'
  = if (k' =? k)%nat then Some v else dict_get Nat.eqb d k'.
Proof.
  induction d as [|[k0 v0] d IH]; simpl.
  - reflexivity.
  - destruct (k =? k0)%nat eqn:E; simpl.
    + apply Nat.eqb_eq in E. subst k0.
      destruct (k' =? k)%nat; reflexivity.
    + rewrite IH. destruct (k' =? k0)%nat eqn:E0; [|reflexivity].
      apply Nat.eqb_eq in E0. subst k0.
      destruct (k' =? k)%nat eqn:E1; [|reflexivity].
      apply Nat.eqb_eq in E1. subst. now rewrite Nat.eqb_refl in E.
Qed.

Lemma nat_dict_set_fresh (d : dict nat V) (k : nat) (v : V) :
  ~ In k (dict_keys d) -> dict_set Nat.eqb d k v = d ++ [(k, v)].
Proof.
  unfold dict_keys. induction d as [|[k0 v0] d IH]; simpl; intros Hk.
  - reflexivity.
  - destruct (k =? k0)%nat eqn:E.
    + apply Nat.eqb_eq in E. subst. tauto.
    + f_equal. apply IH. tauto.
Qed.

Lemma nat_dict_get_fresh (d : dict nat V) (k : nat) :
  ~ In k (dict_keys d) -> dict_get Nat.eqb d k = None.
Proof.
  unfold dict_keys. induction d as [|[k0 v0] d IH]; simpl; intros Hk.
  - reflexivity.
  - destruct (k =? k0)%nat eqn:E.
    + apply Nat.eqb_eq in E. subst. tauto.
    + apply IH. tauto.
Qed.
End NatDict.

Section Greedy.

Lemma const_free_cons (kc : qkey * Q) (Qd : qubo) :
  const_free (kc :: Qd) -> fst kc <> Const /\ const_free Qd.
Proof. unfold const_free. simpl. intros H. split; intros E; apply H; auto. Qed.

(** On a dictionary without the constant key the first loop returns. *)
Lemma collect_variables_returns (Qd : qubo) :
  const_free Qd -> exists vars, collect_variables Qd = Ret vars.
Proof.
  unfold collect_variables, const_free. generalize (@nil nat) as acc.
  induction (dict_keys Qd) as [|k ks IH]; intros acc H.
  - eexists; reflexivity.
  - simpl in H. destruct k as [a b|]; [|tauto]. simpl.
    destruct (a =? b)%nat; simpl; apply IH; tauto.
Qed.

(** The initial solution sets nothing. *)
Lemma initial_solution_clear (vars : list nat) (v : nat) :
  forall sol,
    is_set sol v = false ->
    is_set (fold_left (fun sol var => dict_set Nat.eqb sol var 0%Z) vars sol) v
    = false.
Proof.
  induction vars as [|u vars IH]; intros sol H; simpl; [exact H|].
  apply IH. unfold is_set, dict_get_default in *.
  rewrite nat_dict_get_set. destruct (v =? u)%nat; [reflexivity | exact H].
Qed.

(** The linear terms of a dictionary with distinct keys are its diagonal
    entries, in order. *)
Lemma collect_linear_terms_eq (Qd : qubo) :
  const_free Qd -> NoDup (dict_keys Qd) ->
  forall acc,
    (forall v c, In (Pair v v, c) Qd -> ~ In v (dict_keys acc)) ->
    for_each Qd (fun kc linear_terms =>
      ij <- unpack2 (fst kc) ;;
      if (fst ij =? snd ij)%nat
      then Ret (dict_set Nat.eqb linear_terms (fst ij)
                  (dict_get_default Nat.eqb linear_terms (fst ij) 0 + snd kc))
      else Ret linear_terms) acc
    = Ret (acc ++ diag_entries Qd).
Proof.
  induction Qd as [|[k c] Qd IH]; intros Hcf Hnd acc Hacc.
  - simpl. now rewrite app_nil_r.
  - apply const_free_cons in Hcf. destruct Hcf as [Hk Hcf].
    unfold dict_keys in Hnd. simpl in Hnd. inversion Hnd as [|? ? Hnotin Hnd']; subst.
    destruct k as [a b|]; [|now elim Hk]. cbn [for_each fst snd unpack2 bind].
    destruct (a =? b)%nat eqn:E; cbn [bind].
    + apply Nat.eqb_eq in E. subst b.
      assert (Ha : ~ In a (dict_keys acc)) by (apply (Hacc a c); now left).
      unfold dict_get_default. rewrite nat_dict_get_fresh by exact Ha.
      rewrite nat_dict_set_fresh by exact Ha.
      rewrite IH; [| exact Hcf | exact Hnd' |].
      * simpl. rewrite Nat.eqb_refl. now rewrite <- app_assoc.
      * intros v c' Hin. unfold dict_keys. rewrite map_app, in_app_iff.
        simpl. intros [H | [H | []]].
        -- apply (Hacc v c'); [now right | exact H].
        -- subst v. apply Hnotin. apply in_map_iff.
           exists (Pair a a, c'). split; [reflexivity | exact Hin].
    + rewrite IH; [| exact Hcf | exact Hnd' |].
      * simpl. now rewrite E.
      * intros v c' Hin. apply (Hacc v c'). now right.
Qed.

Lemma collect_linear_terms_distinct (Qd : qubo) :
  const_free Qd -> NoDup (dict_keys Qd) ->
  collect_linear_terms Qd = Ret (diag_entries Qd).
Proof.
  intros Hcf Hnd. unfold collect_linear_terms.
  rewrite collect_linear_terms_eq; auto.
Qed.

Lemma insert_sorted_perm {A : Type} (leb : A -> A -> bool) (x : A) (l : list A) :
  Permutation (x :: l) (insert_sorted leb x l).
Proof.
  induction l as [|y l IH]; simpl; [reflexivity|].
  destruct (leb y x); [|reflexivity].
  etransitivity; [apply perm_swap|]. now constructor.
Qed.

(** [sorted] rearranges its list. *)
Lemma sorted_perm {A : Type} (leb : A -> A -> bool) (l : list A) :
  Permutation l (sorted leb l).
Proof.
  unfold sorted.
  assert (H : forall acc, Permutation (acc ++ l)
                (fold_left (fun acc x => insert_sorted leb x acc) l acc)).
  { induction l as [|x l IH]; intros acc; simpl.
    - now rewrite app_nil_r.
    - etransitivity; [|apply IH].
      etransitivity; [symmetry; apply Permutation_middle|].
      apply (Permutation_app_tail l (insert_sorted_perm leb x acc)). }
  apply (H []).
Qed.

Lemma neg_sum_perm (l l' : list (nat * Q)) :
  Permutation l l' -> neg_sum l == neg_sum l'.
Proof.
  induction 1; simpl.
  - reflexivity.
  - rewrite IHPermutation. reflexivity.
  - ring.
  - etransitivity; eassumption.
Qed.

Lemma has_negative_perm (l l' : list (nat * Q)) (v : nat) :
  Permutation l l' -> has_negative l v = has_negative l' v.
Proof.
  intros H. unfold has_negative.
  apply eq_true_iff_eq. rewrite !existsb_exists.
  split; intros [x [Hin Hx]]; exists x; split; auto.
  - eapply Permutation_in; eassumption.
  - eapply Permutation_in; [symmetry|]; eassumption.
Qed.

(** The assignment loop adds the negative linear terms to the energy and
    sets their variables. *)
Lemma assign_greedily_spec (l : list (nat * Q)) :
  forall st : solution * Q,
    snd (assign_greedily l st) == snd st + neg_sum l /\
    forall v, is_set (fst (assign_greedily l st)) v
              = is_set (fst st) v || has_negative l v.
Proof.
  unfold assign_greedily.
  induction l as [|[u c] l IH]; intros [sol e]; simpl.
  - split; [ring | intros v; now rewrite orb_false_r].
  - destruct (Qneg_bool c) eqn:E; simpl.
    + destruct (IH (dict_set Nat.eqb sol u 1%Z, e + c)) as [He Hs].
      split; [rewrite He; simpl; ring|].
      intros v. rewrite Hs. simpl. unfold is_set at 1, dict_get_default.
      rewrite nat_dict_get_set. rewrite (Nat.eqb_sym u v).
      destruct (v =? u)%nat; simpl.
      * now rewrite orb_true_r.
      * reflexivity.
    + destruct (IH (sol, e)) as [He Hs].
      split; [rewrite He; simpl; ring|].
      intros v. rewrite Hs. simpl. now rewrite andb_false_r.
Qed.

End Greedy.

Section GreedyEnergy.

Lemma energy_split (Qd : qubo) (x : nat -> bool) :
  const_free Qd ->
  qubo_energy Qd x == diag_energy Qd x + off_energy Qd x.
Proof.
  induction Qd as [|[k c] Qd IH]; intros Hcf.
  - simpl. ring.
  - apply const_free_cons in Hcf. destruct Hcf as [Hk Hcf].
    destruct k as [a b|]; [|now elim Hk].
    unfold qubo_energy, diag_energy, off_energy in *.
    cbn [fold_right fst snd term_value]. rewrite (IH Hcf).
    destruct (a =? b)%nat eqn:E; cbn [negb andb].
    + apply Nat.eqb_eq in E. subst b.
      destruct (x a); cbn [andb]; ring.
    + destruct (x a), (x b); cbn [andb]; ring.
Qed.

Lemma add_quadratic_terms_spec (Qd : qubo) (sol : solution) :
  const_free Qd ->
  forall e, exists e',
    add_quadratic_terms Qd sol e = Ret e' /\
    e' == e + off_energy Qd (is_set sol).
Proof.
  unfold add_quadratic_terms.
  induction Qd as [|[k c] Qd IH]; intros Hcf e.
  - exists e. split; [reflexivity | simpl; ring].
  - apply const_free_cons in Hcf. destruct Hcf as [Hk Hcf].
    destruct k as [a b|]; [|now elim Hk].
    cbn [for_each fst snd unpack2 bind off_energy fold_right].
    destruct (negb (a =? b)%nat && is_set sol a && is_set sol b);
      cbn [bind].
    + destruct (IH Hcf (e + c)) as [e' [E He]]. exists e'.
      split; [exact E|]. rewrite He. unfold off_energy. ring.
    + destruct (IH Hcf e) as [e' [E He]]. exists e'.
      split; [exact E | exact He].
Qed.

Lemma Qneg_bool_zero_plus (c : Q) : Qneg_bool (0 + c) = Qneg_bool c.
Proof.
  unfold Qneg_bool. f_equal.
  apply eq_true_iff_eq. rewrite !Qle_bool_iff.
  now rewrite Qplus_0_l.
Qed.

Lemma in_diag_entries (Qd : qubo) (v : nat) (q : Q) :
  In (v, q) (diag_entries Qd) <->
  exists c, In (Pair v v, c) Qd /\ q = 0 + c.
Proof.
  unfold diag_entries. rewrite in_flat_map. split.
  - intros [[k c] [Hin H]]. destruct k as [a b|]; [|contradiction].
    simpl in H. destruct (a =? b)%nat eqn:E; [|contradiction].
    apply Nat.eqb_eq in E. subst b.
    destruct H as [H|[]]. inversion H; subst. now exists c.
  - intros [c [Hin ->]]. exists (Pair v v, c). split; [exact Hin|].
    simpl. rewrite Nat.eqb_refl. now left.
Qed.

Lemma distinct_keys_value (Qd : qubo) (k : qkey) (c c' : Q) :
  NoDup (dict_keys Qd) -> In (k, c) Qd -> In (k, c') Qd -> c = c'.
Proof.
  unfold dict_keys. induction Qd as [|[k0 c0] Qd IH]; simpl; [tauto|].
  intros Hnd H H'. inversion Hnd as [|? ? Hnotin Hnd']; subst.
  destruct H as [H|H], H' as [H'|H'].
  - congruence.
  - inversion H; subst. elim Hnotin. apply in_map_iff.
    exists (k, c'). auto.
  - inversion H'; subst. elim Hnotin. apply in_map_iff.
    exists (k, c). auto.
  - now apply IH.
Qed.

(** In a dictionary with distinct keys, the variable of a diagonal entry
    has a negative linear term exactly when that entry is negative. *)
Lemma has_negative_diag (Qd : qubo) (v : nat) (c : Q) :
  NoDup (dict_keys Qd) -> In (Pair v v, c) Qd ->
  has_negative (diag_entries Qd) v = Qneg_bool c.
Proof.
  intros Hnd Hin. unfold has_negative.
  apply eq_true_iff_eq. rewrite existsb_exists. split.
  - intros [[u q] [Hu H]]. simpl in H. apply andb_true_iff in H.
    destruct H as [Huv Hneg]. apply Nat.eqb_eq in Huv. subst u.
    apply in_diag_entries in Hu. destruct Hu as [c' [Hin' ->]].
    assert (Ec : c = c') by (eapply distinct_keys_value; eassumption).
    subst c'.
    now rewrite <- Qneg_bool_zero_plus.
  - intros Hneg. exists (v, 0 + c). split.
    + apply in_diag_entries. now exists c.
    + simpl. now rewrite Nat.eqb_refl, Qneg_bool_zero_plus.
Qed.

Lemma neg_sum_diag_entries (Qd : qubo) (x : nat -> bool) :
  (forall v c, In (Pair v v, c) Qd -> x v = Qneg_bool c) ->
  neg_sum (diag_entries Qd) == diag_energy Qd x.
Proof.
  induction Qd as [|[k c] Qd IH]; intros Hx.
  - reflexivity.
  - assert (IH' : neg_sum (diag_entries Qd) == diag_energy Qd x).
    { apply IH. intros v c' Hin. apply Hx. now right. }
    destruct k as [a b|]; [|exact IH'].
    unfold diag_entries, diag_energy in *.
    cbn [flat_map fold_right fst snd].
    destruct (a =? b)%nat eqn:E; cbn [andb app]; [|exact IH'].
    apply Nat.eqb_eq in E. subst b.
    rewrite (Hx a c (or_introl eq_refl)).
    cbn [neg_sum fold_right snd]. rewrite Qneg_bool_zero_plus.
    unfold neg_sum in IH'. rewrite IH'.
    destruct (Qneg_bool c); ring.
Qed.

(** What the greedy solver returns on a dictionary with distinct pair
    keys. *)
Lemma solve_greedy_spec (Qd : qubo) :
  const_free Qd -> NoDup (dict_keys Qd) ->
  exists sol energy,
    _solve_greedy Qd = Ret (sol, energy) /\
    (forall v, is_set sol v = has_negative (diag_entries Qd) v) /\
    energy == qubo_energy Qd (is_set sol).
Proof.
  intros Hcf Hnd. unfold _solve_greedy.
  destruct (collect_variables_returns Hcf) as [vars ->]. cbn [bind].
  rewrite (collect_linear_terms_distinct Hcf Hnd). cbn [bind]. cbv zeta.
  set (sol0 := fold_left (fun sol var => dict_set Nat.eqb sol var 0%Z) vars []).
  set (sorted_vars := sorted _ (diag_entries Qd)).
  assert (Hperm : Permutation (diag_entries Qd) sorted_vars)
    by apply sorted_perm.
  match goal with
  | |- context [assign_greedily sorted_vars ?st] =>
      generalize (assign_greedily_spec sorted_vars st);
      destruct (assign_greedily sorted_vars st) as [sol1 e1]
  end.
  cbn [fst snd]. intros [He Hs].
  assert (Hset : forall v, is_set sol1 v = has_negative (diag_entries Qd) v).
  { intros v. rewrite Hs. unfold sol0.
    rewrite initial_solution_clear by reflexivity.
    simpl. symmetry. now apply has_negative_perm. }
  destruct (add_quadratic_terms_spec sol1 Hcf e1) as [e' [-> He']].
  cbn [bind]. exists sol1, e'. split; [reflexivity|].
  split; [exact Hset|].
  rewrite He', He, energy_split by exact Hcf.
  rewrite <- (neg_sum_perm Hperm).
  rewrite (@neg_sum_diag_entries Qd (is_set sol1)).
  - ring.
  - intros v c Hin. rewrite Hset. now apply has_negative_diag.
Qed.

End GreedyEnergy.

(** X1.  The energy the greedy solver reports is the value of the dictionary
    under the assignment it returns. *)
Theorem solve_greedy_energy_is_value (Qd : qubo) :
  ~ In Const (dict_keys Qd) -> NoDup (dict_keys Qd) ->
  exists sol energy,
    _solve_greedy Qd = Ret (sol, energy) /\
    energy == qubo_energy Qd (is_set sol).
Proof.
  intros Hcf Hnd.
  destruct (solve_greedy_spec Hcf Hnd) as [sol [e [E [_ He]]]].
  now exists sol, e.
Qed.

Lemma solve_greedy_energy_is_value_witness :
  exists sol energy,
    _solve_greedy [(Pair 0 0, -1); (Pair 0 1, 3); (Pair 1 1, -2); (Pair 2 2, 5)]
    = Ret (sol, energy) /\
    energy == qubo_energy
                [(Pair 0 0, -1); (Pair 0 1, 3); (Pair 1 1, -2); (Pair 2 2, 5)]
                (is_set sol).
Proof.
  apply solve_greedy_energy_is_value.
  - simpl. intros [H|[H|[H|[H|[]]]]]; discriminate H.
  - repeat constructor; simpl; intuition discriminate.
Defined.

(** X2.  The greedy solver sets a variable to 1 exactly when its diagonal
    coefficient is negative. *)
Theorem solve_greedy_sets_negative_diagonals (Qd : qubo) :
  ~ In Const (dict_keys Qd) -> NoDup (dict_keys Qd) ->
  exists sol energy,
    _solve_greedy Qd = Ret (sol, energy) /\
    forall v, is_set sol v = true <-> exists c, In (Pair v v, c) Qd /\ c < 0.
Proof.
  intros Hcf Hnd.
  destruct (solve_greedy_spec Hcf Hnd) as [sol [e [E [Hset _]]]].
  exists sol, e. split; [exact E|]. intros v. rewrite Hset.
  unfold has_negative. rewrite existsb_exists. split.
  - intros [[u q] [Hu H]]. simpl in H. apply andb_true_iff in H.
    destruct H as [Huv Hneg]. apply Nat.eqb_eq in Huv. subst u.
    apply in_diag_entries in Hu. destruct Hu as [c [Hin ->]].
    exists c. split; [exact Hin|].
    rewrite Qneg_bool_zero_plus in Hneg. unfold Qneg_bool in Hneg.
    apply negb_true_iff in Hneg. apply Qnot_le_lt. intros Hle.
    apply Qle_bool_iff in Hle. congruence.
  - intros [c [Hin Hc]]. exists (v, 0 + c). split.
    + apply in_diag_entries. now exists c.
    + simpl. rewrite Nat.eqb_refl, Qneg_bool_zero_plus. unfold Qneg_bool.
      apply negb_true_iff. destruct (Qle_bool 0 c) eqn:Ele; [|reflexivity].
      apply Qle_bool_iff in Ele. exfalso. apply (Qlt_not_le _ _ Hc Ele).
Qed.

Lemma solve_greedy_sets_negative_diagonals_witness :
  exists sol energy,
    _solve_greedy [(Pair 0 0, -1); (Pair 0 1, 3); (Pair 1 1, 2)]
    = Ret (sol, energy) /\
    forall v, is_set sol v = true <->
              exists c, In (Pair v v, c) [(Pair 0 0, -1); (Pair 0 1, 3); (Pair 1 1, 2)]
                        /\ c < 0.
Proof.
  apply solve_greedy_sets_negative_diagonals.
  - simpl. intros [H|[H|[H|[]]]]; discriminate H.
  - repeat constructor; simpl; intuition discriminate.
Defined.

Section GreedyCoverage.

Lemma set_add_in (v u : nat) (s : list nat) :
  In u (set_add v s) <-> u = v \/ In u s.
Proof.
  unfold set_add. destruct (existsb (Nat.eqb v) s) eqn:E.
  - split; [tauto|]. intros [->|H]; [|exact H].
    apply existsb_exists in E. destruct E as [w [Hw Ew]].
    apply Nat.eqb_eq in Ew. now subst.
  - rewrite in_app_iff. simpl. intuition.
Qed.

(** The first loop collects every variable of every off-diagonal key. *)
Lemma collect_variables_covers (Qd : qubo) (vars : list nat) :
  collect_variables Qd = Ret vars ->
  forall a b, In (Pair a b) (dict_keys Qd) -> a <> b ->
              In a vars /\ In b vars.
Proof.
  unfold collect_variables.
  assert (H : forall ks acc vars,
             for_each ks (fun k variables =>
               ij <- unpack2 k ;;
               if (fst ij =? snd ij)%nat then Ret variables
               else Ret (set_add (snd ij) (set_add (fst ij) variables))) acc
             = Ret vars ->
             incl acc vars /\
             forall a b, In (Pair a b) ks -> a <> b -> In a vars /\ In b vars).
  { induction ks as [|k ks IH]; intros acc vs E.
    - simpl in E. inversion E; subst. split; [apply incl_refl|].
      intros a b [].
    - simpl in E. destruct k as [a0 b0|]; [|discriminate E]. simpl in E.
      destruct (a0 =? b0)%nat eqn:Eab.
      + apply IH in E. destruct E as [Hincl Hcov].
        split; [exact Hincl|]. intros a b [Hk|Hk] Hab.
        * inversion Hk; subst. apply Nat.eqb_eq in Eab. contradiction.
        * now apply Hcov.
      + apply IH in E. destruct E as [Hincl Hcov].
        split.
        * intros v Hv. apply Hincl. apply set_add_in. right.
          apply set_add_in. now right.
        * intros a b [Hk|Hk] Hab; [|now apply Hcov].
          inversion Hk; subst.
          split; apply Hincl; apply set_add_in;
            [right; apply set_add_in|]; now left. }
  intros E a b. eapply H. exact E.
Qed.

Lemma nat_dict_mem_set {V : Type} (d : dict nat V) (k k' : nat) (v : V) :
  dict_mem Nat.eqb (dict_set Nat.eqb d k v) k'
  = (k' =? k)%nat || dict_mem Nat.eqb d k'.
Proof.
  unfold dict_mem. rewrite nat_dict_get_set.
  destruct (k' =? k)%nat; reflexivity.
Qed.

Lemma initial_solution_mem (vars : list nat) (v : nat) :
  forall sol,
    dict_mem Nat.eqb
      (fold_left (fun sol var => dict_set Nat.eqb sol var 0%Z) vars sol) v
    = existsb (Nat.eqb v) vars || dict_mem Nat.eqb sol v.
Proof.
  induction vars as [|u vars IH]; intros sol; simpl; [reflexivity|].
  rewrite IH, nat_dict_mem_set.
  destruct (v =? u)%nat; simpl; [now rewrite orb_true_r | reflexivity].
Qed.

Lemma assign_greedily_mem (l : list (nat * Q)) (v : nat) :
  forall st : solution * Q,
    dict_mem Nat.eqb (fst st) v = true ->
    dict_mem Nat.eqb (fst (assign_greedily l st)) v = true.
Proof.
  unfold assign_greedily.
  induction l as [|[u c] l IH]; intros [sol e] H; simpl; [exact H|].
  destruct (Qneg_bool c); apply IH; simpl; [|exact H].
  rewrite nat_dict_mem_set. simpl in H. rewrite H. apply orb_true_r.
Qed.

Lemma dict_set_binary (sol : solution) (k : nat) (b : Z) :
  b = 0%Z \/ b = 1%Z -> binary sol -> binary (dict_set Nat.eqb sol k b).
Proof.
  intros Hb. unfold binary. induction sol as [|[k0 v0] sol IH]; simpl.
  - constructor; [exact Hb | constructor].
  - intros H. inversion H; subst. destruct (k =? k0)%nat.
    + constructor; assumption.
    + constructor; [assumption | now apply IH].
Qed.

Lemma initial_solution_binary (vars : list nat) :
  forall sol, binary sol ->
    binary (fold_left (fun sol var => dict_set Nat.eqb sol var 0%Z) vars sol).
Proof.
  induction vars as [|u vars IH]; intros sol H; simpl; [exact H|].
  apply IH, dict_set_binary; auto.
Qed.

Lemma assign_greedily_binary (l : list (nat * Q)) :
  forall st : solution * Q,
    binary (fst st) -> binary (fst (assign_greedily l st)).
Proof.
  unfold assign_greedily.
  induction l as [|[u c] l IH]; intros [sol e] H; simpl; [exact H|].
  destruct (Qneg_bool c); apply IH; simpl; [|exact H].
  apply dict_set_binary; auto.
Qed.

Lemma collect_linear_terms_returns (Qd : qubo) :
  const_free Qd -> exists lt, collect_linear_terms Qd = Ret lt.
Proof.
  unfold collect_linear_terms. generalize (@nil (nat * Q)) as acc.
  induction Qd as [|[k c] Qd IH]; intros acc Hcf.
  - eexists; reflexivity.
  - apply const_free_cons in Hcf. destruct Hcf as [Hk Hcf].
    destruct k as [a b|]; [|now elim Hk].
    cbn [for_each fst snd unpack2 bind].
    destruct (a =? b)%nat; cbn [bind]; now apply IH.
Qed.

End GreedyCoverage.

(** X3.  The greedy solver returns exactly on the dictionaries whose keys are all
    pairs: a key of any other length makes it raise. *)
Theorem solve_greedy_returns_iff_pairs_only (Qd : qubo) :
  (exists r, _solve_greedy Qd = Ret r) <-> ~ In Const (dict_keys Qd).
Proof.
  split.
  - intros [r E] Hin. rewrite (solve_greedy_raises _ Hin) in E. discriminate.
  - intros Hcf. unfold _solve_greedy.
    destruct (collect_variables_returns Hcf) as [vars ->]. cbn [bind].
    destruct (collect_linear_terms_returns Hcf) as [lt ->]. cbn [bind].
    cbv zeta.
    match goal with
    | |- context [add_quadratic_terms Qd ?sol ?e] =>
        destruct (add_quadratic_terms_spec sol Hcf e) as [e' [-> _]]
    end.
    eexists; reflexivity.
Qed.

(** X4.  On a dictionary of pair keys the assignment the greedy solver returns
    holds only the values 0 and 1, and has an entry for both variables of
    every off-diagonal key. *)
Theorem solve_greedy_covers_off_diagonal (Qd : qubo) :
  ~ In Const (dict_keys Qd) ->
  exists sol energy,
    _solve_greedy Qd = Ret (sol, energy) /\
    Forall (fun kv => snd kv = 0%Z \/ snd kv = 1%Z) sol /\
    forall a b, In (Pair a b) (dict_keys Qd) -> a <> b ->
                dict_mem Nat.eqb sol a = true /\ dict_mem Nat.eqb sol b = true.
Proof.
  intros Hcf. unfold _solve_greedy.
  destruct (collect_variables_returns Hcf) as [vars Evars].
  rewrite Evars. cbn [bind].
  destruct (collect_linear_terms_returns Hcf) as [lt ->]. cbn [bind].
  cbv zeta.
  match goal with
  | |- context [add_quadratic_terms Qd ?sol ?e] =>
      destruct (add_quadratic_terms_spec sol Hcf e) as [e' [-> _]]
  end.
  cbn [bind]. eexists _, _. split; [reflexivity|]. split.
  - apply assign_greedily_binary. simpl.
    apply initial_solution_binary. constructor.
  - intros a b Hin Hab.
    destruct (collect_variables_covers _ Evars Hin Hab) as [Ha Hb].
    split; apply assign_greedily_mem; simpl;
      rewrite initial_solution_mem; apply orb_true_iff; left;
      apply existsb_exists.
    + exists a. split; [exact Ha | apply Nat.eqb_refl].
    + exists b. split; [exact Hb | apply Nat.eqb_refl].
Qed.

Lemma solve_greedy_covers_off_diagonal_witness :
  exists sol energy,
    _solve_greedy [(Pair 0 1, 3); (Pair 2 2, 5)] = Ret (sol, energy) /\
    Forall (fun kv => snd kv = 0%Z \/ snd kv = 1%Z) sol /\
    forall a b, In (Pair a b) (dict_keys [(Pair 0 1, 3); (Pair 2 2, 5)]) ->
                a <> b ->
                dict_mem Nat.eqb sol a = true /\ dict_mem Nat.eqb sol b = true.
Proof.
  apply solve_greedy_covers_off_diagonal.
  simpl. intros [H|[H|[]]]; discriminate H.
Defined.

Section SolverChain.
Local Open Scope string_scope.

(** X5.  With the three libraries missing only the greedy solver is available,
    and [solve_qubo] is the greedy solver, whatever solver is asked for and
    whatever the samplers would return. *)
Theorem solve_qubo_only_greedy_available (backends : samplers)
  (solver_type : String.string) (Qd : qubo) :
  solve_qubo backends solver_type
    (_check_available_solvers false false false) Qd
  = _solve_greedy Qd.
Proof.
  change (_check_available_solvers false false false) with ["greedy"].
  unfold solve_qubo.
  change (available "dwave_hybrid" ["greedy"]) with false.
  change (available "dwave_qpu" ["greedy"]) with false.
  change (available "neal" ["greedy"]) with false.
  change (available "dimod_exact" ["greedy"]) with false.
  now rewrite !andb_false_r.
Qed.

(** X6.  In [auto] mode the QPU sampler is never called: the result does not
    depend on it, whichever solvers are available. *)
Theorem solve_qubo_auto_ignores_qpu (hybrid qpu qpu' neal exact : sampler)
  (dwave has_neal has_dimod : bool) (Qd : qubo) :
  solve_qubo (mk_samplers hybrid qpu neal exact) "auto"
             (_check_available_solvers dwave has_neal has_dimod) Qd
  = solve_qubo (mk_samplers hybrid qpu' neal exact) "auto"
               (_check_available_solvers dwave has_neal has_dimod) Qd.
Proof.
  destruct dwave, has_neal, has_dimod; reflexivity.
Qed.

End SolverChain.

(** ** qubo_builder.py: the TSP encoding *)

Section GroupPenalty.
Variable x : nat -> bool.

Lemma pairs_energy_first (lam : Q) (v : nat) (vars : list nat) :
  qubo_energy (map (fun ab => (Pair (fst ab) (snd ab), 2 * lam))
                   (map (pair v) vars)) x
  == if x v then 2 * lam * inject_Z (Z.of_nat (count_set x vars)) else 0.
Proof.
  destruct (x v) eqn:Ev.
  - unfold count_set. induction vars as [|w vars IH].
    + simpl. ring.
    + cbn [map qubo_energy fold_right fst snd term_value filter].
      change (fold_right _ 0 (map _ (map (pair v) vars)))
        with (qubo_energy (map (fun ab => (Pair (fst ab) (snd ab), 2 * lam))
                               (map (pair v) vars)) x).
      rewrite IH, Ev. destruct (x w); cbn [andb length].
      * rewrite Nat2Z.inj_succ. unfold Z.succ. rewrite inject_Z_plus. ring.
      * ring.
  - now apply pairs_energy_first_clear.
Qed.

(** The pair terms of a group with [k] variables set are worth
    [lambda * k * (k - 1)]. *)
Lemma pairs_energy_count (lam : Q) (vars : list nat) :
  qubo_energy (map (fun ab => (Pair (fst ab) (snd ab), 2 * lam))
                   (combinations2 vars)) x
  == lam * inject_Z (Z.of_nat (count_set x vars))
     * (inject_Z (Z.of_nat (count_set x vars)) - 1).
Proof.
  induction vars as [|v vars IH].
  - simpl. ring.
  - cbn [combinations2]. rewrite map_app, energy_app, pairs_energy_first, IH.
    unfold count_set. cbn [filter]. destruct (x v); cbn [length].
    + rewrite Nat2Z.inj_succ. unfold Z.succ. rewrite inject_Z_plus. ring.
    + ring.
Qed.

End GroupPenalty.

(** X7.  One pass through the constraint body, on a group of which the assignment
    sets [k] variables, adds [lambda * (k*k - 3*k + 1)] to the energy: [+lambda]
    for no variable, [-lambda] for one variable and also for two. *)
Theorem add_one_hot_energy (lam : Q) (vars : list nat) (d : qubo)
  (x : nat -> bool) :
  let k := inject_Z (Z.of_nat (count_set x vars)) in
  qubo_energy (add_one_hot lam vars d) x
  == qubo_energy d x + lam * (k * k - 3 * k + 1).
Proof.
  intros k. rewrite add_one_hot_as_updates, energy_apply_updates.
  unfold one_hot_updates. rewrite !energy_app, pairs_energy_count.
  rewrite diagonal_energy. fold k. simpl. ring.
Qed.

Section Numbering.

(** Two different (node, position) pairs never share a variable. *)
Lemma vget_inj (N i p i' p' : nat) :
  (i < N)%nat -> (p < N)%nat -> (i' < N)%nat -> (p' < N)%nat ->
  vget (fst (make_tsp_var_index N)) i p
  = vget (fst (make_tsp_var_index N)) i' p' ->
  i = i' /\ p = p'.
Proof.
  intros Hi Hp Hi' Hp'. rewrite !vget_eq by assumption. intros E.
  assert (Hq : ((i * N + p) / N = (i' * N + p') / N)%nat) by now rewrite E.
  rewrite !Nat.div_add_l, !(Nat.div_small _ N) in Hq by lia.
  split; [lia|]. assert (i = i') by lia. subst i'. lia.
Qed.

End Numbering.

(** X8.  The variable index is a numbering: node [i] at position [p] is variable
    [i * N + p], below [N * N], and two different (node, position) pairs
    never share a variable. *)
Theorem tsp_var_index_numbering (N i p i' p' : nat) :
  (i < N)%nat -> (p < N)%nat -> (i' < N)%nat -> (p' < N)%nat ->
  let vi := fst (make_tsp_var_index N) in
  dict_get pair_eqb vi (i, p) = Some (i * N + p)%nat /\
  (vget vi i p < N * N)%nat /\
  (vget vi i p = vget vi i' p' -> i = i' /\ p = p').
Proof.
  intros Hi Hp Hi' Hp' vi. subst vi.
  split; [now apply tsp_var_index_get|].
  split; [rewrite vget_eq by assumption; nia | now apply vget_inj].
Qed.

Lemma tsp_var_index_numbering_witness :
  let vi := fst (make_tsp_var_index 3) in
  dict_get pair_eqb vi (1, 2)%nat = Some 5%nat /\
  (vget vi 1 2 < 9)%nat /\
  (vget vi 1 2 = vget vi 2 0 -> 1 = 2 /\ 2 = 0)%nat.
Proof.
  apply (@tsp_var_index_numbering 3 1 2 2 0); lia.
Defined.

Section Sums.

(** A sum in which only the term of index [b] is not zero. *)
Lemma sumq_single (f : nat -> Q) (b n : nat) :
  sumq (fun j => if (j =? b)%nat then f j else 0) n
  == if (b <? n)%nat then f b else 0.
Proof.
  induction n as [|n IH]; simpl.
  - reflexivity.
  - rewrite IH. destruct (n =? b)%nat eqn:E.
    + apply Nat.eqb_eq in E. subst n.
      rewrite Nat.ltb_irrefl.
      replace (b <? S b)%nat with true by (symmetry; apply Nat.ltb_lt; lia).
      ring.
    + apply Nat.eqb_neq in E.
      destruct (b <? n)%nat eqn:E1.
      * replace (b <? S n)%nat with true
          by (symmetry; apply Nat.ltb_lt; apply Nat.ltb_lt in E1; lia).
        ring.
      * replace (b <? S n)%nat with false
          by (symmetry; apply Nat.ltb_ge; apply Nat.ltb_ge in E1; lia).
        ring.
Qed.

(** A loop whose every iteration adds a known amount to the energy adds
    their sum. *)
Lemma for_range_energy (x : nat -> bool) (a : nat -> Q) (n : nat)
  (body : nat -> qubo -> qubo) :
  (forall i d, (i < n)%nat ->
               qubo_energy (body i d) x == qubo_energy d x + a i) ->
  forall d, qubo_energy (for_range n body d) x == qubo_energy d x + sumq a n.
Proof.
  induction n as [|n IH]; intros Hbody d.
  - rewrite for_range_zero. simpl. ring.
  - rewrite for_range_succ, Hbody by lia.
    rewrite IH by (intros i d' Hi; apply Hbody; lia). simpl. ring.
Qed.

End Sums.

Section Objective.
Variable tm : matrix.
Variable route : list nat.
Hypothesis Hroute : Forall (fun v => (v < length route)%nat) route.

Lemma route_nth_lt (p : nat) :
  (p < length route)%nat -> (nth p route 0 < length route)%nat.
Proof.
  intros Hp. rewrite Forall_forall in Hroute. apply Hroute, nth_In, Hp.
Qed.

(** Under the assignment of a tour the variable of node [i] at position [p]
    is set exactly when the tour has [i] at [p]. *)
Lemma tour_assignment_at (i p : nat) :
  (i < length route)%nat -> (p < length route)%nat ->
  tour_assignment (fst (make_tsp_var_index (length route))) route
    (vget (fst (make_tsp_var_index (length route))) i p)
  = (i =? nth p route 0)%nat.
Proof.
  intros Hi Hp. unfold tour_assignment.
  apply eq_true_iff_eq. rewrite existsb_exists, Nat.eqb_eq. split.
  - intros [q [Hq E]]. apply in_seq in Hq. apply Nat.eqb_eq in E.
    assert (Hn : (nth q route 0 < length route)%nat)
      by (apply route_nth_lt; lia).
    assert (Hq' : (q < length route)%nat) by lia.
    destruct (vget_inj Hi Hp Hn Hq' E) as [-> ->]. reflexivity.
  - intros ->. exists p. split; [apply in_seq; lia | apply Nat.eqb_refl].
Qed.

(** The innermost loop under a tour: only [j = route[p_next]] contributes. *)
Lemma objective_inner (p i : nat) (d : qubo) :
  (p < length route)%nat -> (i < length route)%nat ->
  let p_next := ((p + 1) mod length route)%nat in
  let x := tour_assignment (fst (make_tsp_var_index (length route))) route in
  qubo_energy
    (for_range (length route) (fun j Qd =>
       if (i =? j)%nat then Qd
       else q_add Qd
              (Pair (vget (fst (make_tsp_var_index (length route))) i p)
                    (vget (fst (make_tsp_var_index (length route))) j p_next))
              (tm_at tm i j))
       d) x
  == qubo_energy d x
     + (if (i =? nth p route 0)%nat
        then (if (i =? nth p_next route 0)%nat then 0
              else tm_at tm i (nth p_next route 0%nat))
        else 0).
Proof.
  intros Hp Hi p_next x.
  assert (Hpn : (p_next < length route)%nat)
    by (apply Nat.mod_upper_bound; lia).
  rewrite for_range_energy with
    (a := fun j => if (j =? nth p_next route 0)%nat
                   then (if (i =? nth p route 0)%nat
                         then (if (i =? j)%nat then 0 else tm_at tm i j)
                         else 0)
                   else 0).
  - rewrite sumq_single.
    replace (nth p_next route 0 <? length route)%nat with true
      by (symmetry; apply Nat.ltb_lt, route_nth_lt, Hpn).
    destruct (i =? nth p route 0)%nat; reflexivity.
  - intros j d' Hj. destruct (i =? j)%nat eqn:Eij.
    + apply Nat.eqb_eq in Eij. subst j.
      destruct (i =? nth p_next route 0)%nat; destruct (i =? nth p route 0)%nat;
        ring.
    + rewrite energy_q_add. cbn [term_value]. unfold x.
      rewrite !tour_assignment_at by assumption.
      destruct (i =? nth p route 0)%nat;
        destruct (j =? nth p_next route 0)%nat; cbn [andb]; ring.
Qed.

(** The two inner loops under a tour: one step of the tour. *)
Lemma objective_step (p : nat) (d : qubo) :
  (p < length route)%nat ->
  let p_next := ((p + 1) mod length route)%nat in
  let x := tour_assignment (fst (make_tsp_var_index (length route))) route in
  qubo_energy
    (for_range (length route) (fun i Qd =>
       for_range (length route) (fun j Qd =>
         if (i =? j)%nat then Qd
         else q_add Qd
                (Pair (vget (fst (make_tsp_var_index (length route))) i p)
                      (vget (fst (make_tsp_var_index (length route))) j p_next))
                (tm_at tm i j))
         Qd) d) x
  == qubo_energy d x
     + (if (nth p route 0 =? nth p_next route 0)%nat then 0
        else tm_at tm (nth p route 0%nat) (nth p_next route 0%nat)).
Proof.
  intros Hp p_next x.
  rewrite for_range_energy with
    (a := fun i => if (i =? nth p route 0)%nat
                   then (if (i =? nth p_next route 0)%nat then 0
                         else tm_at tm i (nth p_next route 0%nat))
                   else 0).
  - rewrite sumq_single.
    replace (nth p route 0 <? length route)%nat with true
      by (symmetry; apply Nat.ltb_lt, route_nth_lt, Hp).
    reflexivity.
  - intros i d' Hi. now apply objective_inner.
Qed.

Lemma objective_energy (d : qubo) :
  qubo_energy
    (add_objective (length route)
       (fst (make_tsp_var_index (length route))) tm d)
    (tour_assignment (fst (make_tsp_var_index (length route))) route)
  == qubo_energy d
       (tour_assignment (fst (make_tsp_var_index (length route))) route)
     + tour_cost tm route.
Proof.
  unfold add_objective, tour_cost.
  apply for_range_energy. intros p d' Hp. now apply objective_step.
Qed.

End Objective.

(** X9.  On the assignment of a tour (a list of N nodes below N, node [route[p]]
    at position [p]) the objective terms are worth the travel time of the
    closed tour, a step between equal nodes counting for nothing. *)
Theorem objective_energy_is_tour_cost (tm : matrix) (route : list nat) :
  Forall (fun v => (v < length route)%nat) route ->
  let N := length route in
  let vi := fst (make_tsp_var_index N) in
  qubo_energy (add_objective N vi tm []) (tour_assignment vi route)
  == tour_cost tm route.
Proof.
  intros H N vi. unfold N, vi.
  etransitivity; [exact (objective_energy tm H [])|]. simpl. ring.
Qed.

Lemma objective_energy_is_tour_cost_witness :
  let tm := [[0; 3; 7]; [4; 0; 2]; [5; 6; 0]] in
  qubo_energy (add_objective 3 (fst (make_tsp_var_index 3)) tm [])
              (tour_assignment (fst (make_tsp_var_index 3)) [0; 2; 1]%nat)
  == tour_cost tm [0; 2; 1]%nat.
Proof.
  intros tm.
  apply (@objective_energy_is_tour_cost tm [0; 2; 1]%nat).
  repeat constructor.
Defined.

(** ** solver_simple.py: the routes of the simplified optimizer *)

Import SolverSimple.

Section FloatEntries.
Variable tm : fmatrix.

Lemma np_index_lt (m : nat) (i : Z) (r : nat) :
  np_index m i = Ret r -> (r < m)%nat.
Proof.
  unfold np_index.
  destruct ((0 <=? i)%Z && (i <? Z.of_nat m)%Z) eqn:E1.
  - intros H. inversion H. apply andb_true_iff in E1. destruct E1 as [Ha Hb].
    apply Z.leb_le in Ha. apply Z.ltb_lt in Hb. lia.
  - destruct ((- Z.of_nat m <=? i)%Z && (i <? 0)%Z) eqn:E2; [|discriminate].
    intros H. inversion H. apply andb_true_iff in E2. destruct E2 as [Ha Hb].
    apply Z.leb_le in Ha. apply Z.ltb_lt in Hb. lia.
Qed.

(** An entry read from an array without [nan] is not [nan]. *)
Lemma fmat_get_number (u v : Z) (x : fval) :
  no_nan tm -> fmat_get tm u v = Ret x -> is_number x.
Proof.
  intros Hnn. unfold fmat_get.
  destruct (np_index (length tm) u) as [r|e] eqn:Er; [|discriminate].
  destruct (np_index (length (nth r tm [])) v) as [c|e] eqn:Ec; [|discriminate].
  intros H. inversion H.
  apply np_index_lt in Er, Ec.
  unfold no_nan in Hnn. rewrite Forall_forall in Hnn.
  pose proof (Hnn _ (nth_In tm [] Er)) as Hrow.
  rewrite Forall_forall in Hrow. apply Hrow, nth_In, Ec.
Qed.

End FloatEntries.

Section NearestNeighborRoute.
Variable n : nat.
Variable tm : fmatrix.
Hypothesis Hsq : square n tm.

(** The scan of [min] ends on an element it has read; when no entry is
    [nan], its key is at most the key the scan started with and at most the
    key of every element scanned. *)
Lemma min_by_time_spec (current : Z) (l : list Z) :
  in_range n current -> Forall (in_range n) l ->
  forall best best_key,
    fmat_get tm current best = Ret best_key ->
    exists x kx,
      min_by_time tm current best best_key l = Ret x /\
      fmat_get tm current x = Ret kx /\
      (no_nan tm ->
       fleb kx best_key = true /\
       Forall (fun y => exists ky,
                 fmat_get tm current y = Ret ky /\ fleb kx ky = true) l).
Proof.
  intros Hc. induction l as [|y l IH]; intros Hl best best_key Hbest.
  - exists best, best_key. repeat split; auto.
    apply fleb_refl. eapply fmat_get_number; eassumption.
  - inversion Hl as [|? ? Hy Hl']; subst.
    destruct (fmat_get_in_range Hsq Hc Hy) as [k Ek].
    cbn [min_by_time]. rewrite Ek. cbn [bind].
    destruct (fltb k best_key) eqn:E.
    + destruct (IH Hl' y k Ek) as [x [kx [Ex [Ekx Hrest]]]].
      exists x, kx. repeat split; auto; destruct (Hrest H) as [Hle Hall].
      * eapply fleb_trans; [exact Hle | now apply fltb_fleb].
      * constructor; [|exact Hall]. exists k. split; [exact Ek | exact Hle].
    + destruct (IH Hl' best best_key Hbest) as [x [kx [Ex [Ekx Hrest]]]].
      exists x, kx. repeat split; auto; destruct (Hrest H) as [Hle Hall];
        [exact Hle|].
      constructor; [|exact Hall].
      exists k. split; [exact Ek|].
      eapply fleb_trans; [exact Hle|].
      apply fltb_false_fleb; [| |exact E]; eapply fmat_get_number; eassumption.
Qed.

(** [min(unvisited, key=...)] returns an element of [unvisited]; when no
    entry is [nan], one that is nearest to [current]. *)
Lemma nearest_spec (current : Z) (unvisited : list Z) :
  in_range n current -> Forall (in_range n) unvisited -> unvisited <> [] ->
  exists x,
    nearest tm current unvisited = Ret x /\
    In x unvisited /\
    (no_nan tm -> Forall (fun y => time_le tm current x y) unvisited).
Proof.
  intros Hc Hu Hne. destruct unvisited as [|y l]; [congruence|].
  inversion Hu as [|? ? Hy Hl]; subst.
  destruct (fmat_get_in_range Hsq Hc Hy) as [k Ek].
  destruct (min_by_time_spec Hc Hl y Ek) as [x [kx [Ex [Ekx Hrest]]]].
  assert (Enear : nearest tm current (y :: l) = Ret x).
  { cbn [nearest]. rewrite Ek. exact Ex. }
  exists x. split; [exact Enear|]. split; [eapply nearest_in; exact Enear|].
  intros Hnn. destruct (Hrest Hnn) as [Hle Hall].
  constructor.
  - exists kx, k. auto.
  - rewrite Forall_forall in *. intros z Hz.
    destruct (Hall z Hz) as [kz [Ekz Hkz]]. exists kx, kz. auto.
Qed.

Lemma remove_first_perm (x : Z) (l : list Z) :
  In x l -> Permutation l (x :: remove_first x l).
Proof.
  induction l as [|y l IH]; simpl; [contradiction|].
  intros Hin. destruct (x =? y)%Z eqn:E.
  - apply Z.eqb_eq in E. subst. reflexivity.
  - apply Z.eqb_neq in E. destruct Hin as [Hy|Hin]; [congruence|].
    rewrite perm_swap. apply perm_skip, IH, Hin.
Qed.

(** The loop appends to the route a rearrangement of [unvisited]; when no
    entry is [nan], each step of it is a nearest one. *)
Lemma nearest_neighbor_loop_spec (fuel : nat) :
  forall unvisited route current,
    in_range n current -> Forall (in_range n) unvisited ->
    (length unvisited <= fuel)%nat ->
    exists tail,
      nearest_neighbor_loop fuel tm unvisited route current
      = Ret (route ++ tail) /\
      Permutation tail unvisited /\
      (no_nan tm -> greedy_from tm current tail).
Proof.
  induction fuel as [|fuel IH]; intros unvisited route current Hc Hu Hlen.
  - destruct unvisited; [|simpl in Hlen; lia].
    exists []. rewrite app_nil_r. repeat split; constructor.
  - destruct unvisited as [|y l].
    + exists []. rewrite app_nil_r. repeat split; constructor.
    + destruct (@nearest_spec current (y :: l) Hc Hu) as [x [Ex [Hin Hmin]]];
        [discriminate|].
      cbn [nearest_neighbor_loop]. rewrite Ex. cbn [bind].
      pose proof (remove_first_perm _ _ Hin) as Hperm.
      pose proof (remove_first_length _ _ Hin) as Hl.
      assert (Hx : in_range n x).
      { rewrite Forall_forall in Hu. apply Hu, Hin. }
      assert (Hu' : Forall (in_range n) (remove_first x (y :: l))).
      { rewrite Forall_forall in *. intros z Hz.
        apply Hu. eapply remove_first_incl, Hz. }
      destruct (IH (remove_first x (y :: l)) (route ++ [x]) x Hx Hu')
        as [tail [Etail [Ptail Gtail]]]; [simpl in *; lia|].
      exists (x :: tail). rewrite Etail, <- app_assoc. split; [reflexivity|].
      assert (Pall : Permutation (x :: tail) (y :: l)).
      { rewrite Hperm. now apply perm_skip. }
      split; [exact Pall|].
      intros Hnn. cbn [greedy_from]. split; [|exact (Gtail Hnn)].
      eapply Permutation_Forall; [symmetry; exact Pall | exact (Hmin Hnn)].
Qed.

Lemma nodes_split (m : nat) :
  (1 <= m)%nat -> nodes m = 0%Z :: range_from_1 m.
Proof.
  intros Hm. unfold nodes, range_from_1.
  destruct m as [|m]; [lia|]. simpl. now rewrite Nat.sub_0_r.
Qed.

Lemma nearest_neighbor_spec :
  (1 <= n)%nat ->
  exists tail,
    nearest_neighbor tm = Ret (0%Z :: tail) /\
    tour n (0%Z :: tail) /\
    (no_nan tm -> greedy_from tm 0%Z tail).
Proof.
  intros Hn. pose proof Hsq as [Hlen _].
  unfold nearest_neighbor. rewrite Hlen.
  destruct (@nearest_neighbor_loop_spec (n - 1) (range_from_1 n) [0%Z] 0%Z)
    as [tail [E [P G]]].
  - unfold in_range. lia.
  - apply range_from_1_in_range.
  - unfold range_from_1. rewrite length_map, length_seq. lia.
  - exists tail. split; [exact E|]. split; [|exact G].
    split; [reflexivity|]. rewrite nodes_split by exact Hn.
    now apply perm_skip.
Qed.

End NearestNeighborRoute.

(** X10.  On an n-by-n matrix with at least one node [nearest_neighbor] returns a
    route that starts at the depot and visits every node exactly once; when
    no entry of the matrix is [nan], every step of the route goes to a node
    nearest among those not yet visited. *)
Theorem nearest_neighbor_is_greedy_tour (n : nat) (tm : fmatrix) :
  square n tm -> (1 <= n)%nat ->
  exists tail,
    nearest_neighbor tm = Ret (0%Z :: tail) /\
    tour n (0%Z :: tail) /\
    (no_nan tm -> greedy_from tm 0%Z tail).
Proof. intros Hsq Hn. now apply nearest_neighbor_spec. Qed.

Lemma nearest_neighbor_is_greedy_tour_witness :
  let tm := [[Fin 0; Fin 5; Fin 2]; [Fin 5; Fin 0; Fin 4];
             [Fin 2; Fin 4; Fin 0]] in
  exists tail,
    nearest_neighbor tm = Ret (0%Z :: tail) /\
    tour 3 (0%Z :: tail) /\
    (no_nan tm -> greedy_from tm 0%Z tail).
Proof.
  intros tm.
  apply (@nearest_neighbor_is_greedy_tour 3 tm).
  - split; [reflexivity | repeat constructor].
  - lia.
Defined.

(** With a [nan] entry the route need not be greedy: [min] keeps a node
    whose key is [nan], because no key compares smaller than [nan].  From
    the depot node 2 is one minute away, yet the route goes to node 1. *)
Lemma nearest_neighbor_keeps_nan_key :
  let tm := [[Fin 0; NaN; Fin 1]; [NaN; Fin 0; Fin 4];
             [Fin 1; Fin 4; Fin 0]] in
  nearest_neighbor tm = Ret [0; 1; 2]%Z /\
  ~ greedy_from tm 0%Z [1; 2]%Z.
Proof.
  intros tm. split; [reflexivity|].
  intros [H _]. inversion H as [|? ? [p [q [Ep [_ Hle]]]] _]; subst.
  vm_compute in Ep. inversion Ep; subst p. discriminate Hle.
Qed.

Section TourFacts.
Variable n : nat.

Lemma nodes_in_range : Forall (in_range n) (nodes n).
Proof.
  unfold nodes. rewrite Forall_forall. intros v Hv.
  apply in_map_iff in Hv. destruct Hv as [k [<- Hk]].
  apply in_seq in Hk. unfold in_range. lia.
Qed.

Lemma tour_in_range (route : list Z) :
  tour n route -> Forall (in_range n) route.
Proof.
  intros [_ P]. eapply Permutation_Forall; [symmetry; exact P|].
  apply nodes_in_range.
Qed.

Lemma tour_length (route : list Z) : tour n route -> length route = n.
Proof.
  intros [_ P]. rewrite (Permutation_length P).
  unfold nodes. now rewrite length_map, length_seq.
Qed.

End TourFacts.

Section OptimizedRoute.
Variable n : nat.
Variable tm : fmatrix.
Hypothesis Hsq : square n tm.
Hypothesis Hn : (2 <= n)%nat.

(** The time of a route of two nodes or more is a [numpy.float64]. *)
Lemma calculate_route_time_np (route : list Z) (t : pyfloat) :
  (2 <= length route)%nat ->
  calculate_route_time route tm = Ret t -> is_np t = true.
Proof.
  intros Hlen. unfold calculate_route_time, _calculate_route_time.
  replace (length route <? 2)%nat with false
    by (symmetry; apply Nat.ltb_ge; exact Hlen).
  destruct (for_each _ _ _) as [total|e]; cbn [bind]; [|discriminate].
  destruct (negb _); cbn [bind].
  - destruct (fmat_get _ _ _); cbn [bind]; [|discriminate].
    intros H. inversion H. reflexivity.
  - intros H. inversion H. reflexivity.
Qed.

(** The 2-opt search keeps a tour a tour and, unless the time of the tour
    is [nan], does not make it slower. *)
Lemma two_opt_improvement_tour (route : list Z) :
  tour n route ->
  exists r t t',
    two_opt_improvement route tm = Ret r /\ tour n r /\
    calculate_route_time route tm = Ret t /\
    calculate_route_time r tm = Ret t' /\
    (is_number (fv t) -> float_le t' t).
Proof.
  intros Htour. pose proof (tour_in_range Htour) as Hvalid.
  destruct (calculate_route_time_valid Hsq Hvalid) as [t Et].
  destruct (two_opt_improvement_inv Hsq Hvalid Et) as [r [t' [Er Hinv]]].
  destruct Hinv as [Hperm [Hhd [Hcalc Hle]]]. simpl in *.
  destruct Htour as [H0 P].
  exists r, t, t'. repeat split; try assumption.
  - congruence.
  - now rewrite <- Hperm.
Qed.

(** [min(strategies, key=...)]: unless the time of the first strategy is
    [nan], the time of the strategy picked is at most the time of the
    first. *)
Lemma min_strategy_le (l : list (list Z * pyfloat)) :
  forall best,
    is_number (fv (snd best)) ->
    float_le (snd (min_strategy best l)) (snd best).
Proof.
  unfold float_le.
  induction l as [|s l IH]; intros best Hbest.
  - now apply fleb_refl.
  - cbn [min_strategy]. destruct (fltb (fv (snd s)) (fv (snd best))) eqn:E.
    + eapply fleb_trans; [|apply fltb_fleb, E].
      apply IH. eapply fltb_number, E.
    + now apply IH.
Qed.

(** The strategy picked: a tour, and unless the time of the
    nearest-neighbour route is [nan], at most as slow as that route. *)
Lemma multi_strategy_optimize_tour (base : list Z) (tb : pyfloat) :
  nearest_neighbor tm = Ret base -> tour n base ->
  calculate_route_time base tm = Ret tb ->
  exists r t,
    multi_strategy_optimize tm = Ret r /\ tour n r /\
    calculate_route_time r tm = Ret t /\
    (is_number (fv tb) -> float_le t tb).
Proof.
  intros Ebase Hbase Etb. pose proof Hsq as [Hlen _].
  destruct (two_opt_improvement_tour Hbase)
    as [opt [t1 [to [Eopt [Hopt [Et1 [Eto _]]]]]]].
  unfold multi_strategy_optimize.
  rewrite Ebase. cbn [bind]. rewrite Etb. cbn [bind].
  rewrite Eopt. cbn [bind]. rewrite Eto. cbn [bind].
  destruct (3 <? length tm)%nat.
  - assert (Hrand : tour n (random_route tm)).
    { unfold random_route. rewrite Hlen.
      assert (Hnodes : nodes n = 0%Z :: range_from_1 n)
        by (apply nodes_split; lia).
      rewrite <- Hnodes. split; [|reflexivity]. now rewrite Hnodes. }
    destruct (two_opt_improvement_tour Hrand)
      as [ropt [t2 [tr [Eropt [Hropt [_ [Etr _]]]]]]].
    rewrite Eropt. cbn [bind]. rewrite Etr. cbn [bind].
    pose proof (@min_strategy_le [(opt, to); (ropt, tr)] (base, tb)) as Hmin.
    exists (fst (min_strategy (base, tb) [(opt, to); (ropt, tr)])),
           (snd (min_strategy (base, tb) [(opt, to); (ropt, tr)])).
    split; [reflexivity|].
    destruct (min_strategy_in [(opt, to); (ropt, tr)] (base, tb))
      as [H | [H | [H | []]]]; rewrite <- H in *; simpl in *; auto.
  - cbn [bind].
    pose proof (@min_strategy_le [(opt, to)] (base, tb)) as Hmin.
    exists (fst (min_strategy (base, tb) [(opt, to)])),
           (snd (min_strategy (base, tb) [(opt, to)])).
    split; [reflexivity|].
    destruct (min_strategy_in [(opt, to)] (base, tb))
      as [H | [H | []]]; rewrite <- H in *; simpl in *; auto.
Qed.

End OptimizedRoute.

(** X11.  On an n-by-n matrix with two nodes or more [optimize_route] returns;
    its baseline and its optimized route both start at the depot and visit
    every node exactly once; and when the baseline time is not [nan], the
    optimized time is at most the baseline time. *)
Theorem optimize_route_returns_tours (n : nat) (tm : fmatrix) :
  square n tm -> (2 <= n)%nat ->
  exists res,
    optimize_route tm = Ret res /\
    tour n (baseline_route res) /\
    tour n (optimized_route res) /\
    (is_number (fv (baseline_time res)) ->
     float_le (optimized_time res) (baseline_time res)).
Proof.
  intros Hsq Hn.
  destruct (@nearest_neighbor_spec n tm Hsq) as [tail [Ebase [Hbase _]]]; [lia|].
  destruct (calculate_route_time_valid Hsq (tour_in_range Hbase))
    as [tb Etb].
  destruct (multi_strategy_optimize_tour Hsq Hn Ebase Hbase Etb)
    as [opt [to [Eopt [Hopt [Eto Hle]]]]].
  assert (Hnp : is_np tb = true).
  { eapply calculate_route_time_np; [|exact Etb].
    rewrite (tour_length Hbase). exact Hn. }
  unfold optimize_route.
  rewrite Ebase. cbn [bind]. rewrite Etb. cbn [bind].
  rewrite Eopt. cbn [bind]. rewrite Eto. cbn [bind].
  unfold py_div at 1. cbn [py_sub is_np fv]. rewrite Hnp.
  rewrite orb_true_r. cbn [negb andb bind].
  unfold py_div. cbn [py_float is_np fv].
  replace (Qzero_bool 100) with false by reflexivity.
  rewrite andb_false_r. cbn [bind].
  eexists. split; [reflexivity|]. cbn [baseline_route optimized_route
    optimized_time baseline_time]. auto.
Qed.

Lemma optimize_route_returns_tours_witness :
  let tm := [[Fin 0; Fin 5; Fin 2]; [Fin 5; Fin 0; Fin 4];
             [Fin 2; Fin 4; Fin 0]] in
  exists res,
    optimize_route tm = Ret res /\
    tour 3 (baseline_route res) /\
    tour 3 (optimized_route res) /\
    (is_number (fv (baseline_time res)) ->
     float_le (optimized_time res) (baseline_time res)).
Proof.
  intros tm.
  apply (@optimize_route_returns_tours 3 tm).
  - split; [reflexivity | repeat constructor].
  - lia.
Defined.

Section ClampedImprovement.

Lemma fsub_number (q : Q) (o : fval) :
  fleb o (Fin q) = true -> is_number (fsub (Fin q) o).
Proof.
  destruct o as [x| |s]; cbn [fleb fsub]; intros H; try discriminate.
  apply round64_not_nan.
Qed.

Lemma fdiv_np_number (a : fval) (q : Q) :
  is_number a -> ~ q == 0 -> is_number (fdiv_np a (Fin q)).
Proof.
  intros Ha Hq. destruct a as [x| |s]; cbn [fdiv_np]; try discriminate.
  - rewrite (Qzero_bool_false Hq). apply round64_not_nan.
  - now elim Ha.
Qed.

Lemma fmul_100_number (a : fval) :
  is_number a -> is_number (fmul a (Fin 100)).
Proof.
  intros Ha. destruct a as [x| |s]; cbn [fmul]; try discriminate.
  - apply round64_not_nan.
  - now elim Ha.
Qed.

(** [max(a, 5.0)] of a float that is not [nan] is at least 5. *)
Lemma py_max_5 (a : pyfloat) :
  is_number (fv a) -> float_at_least 5 (py_max a (py_float 5)).
Proof.
  intros Ha. unfold py_max, float_at_least. cbn [py_float fv].
  destruct (fltb (fv a) (Fin 5)) eqn:E; cbn [fv].
  - apply Qle_refl.
  - apply fltb_false_fleb in E; [|exact Ha | discriminate].
    destruct (fv a) as [x| |s]; cbn [fleb] in E.
    + now apply Qle_bool_iff.
    + discriminate.
    + now destruct s.
Qed.

(** Where the baseline time is a positive number the report does state an
    improvement of at least 5, and the time saved is that percentage of the
    baseline time. *)
Lemma optimize_route_clamps_positive_baseline (n : nat) (tm : fmatrix) :
  square n tm -> (2 <= n)%nat -> baseline_time_positive tm ->
  exists res fraction,
    optimize_route tm = Ret res /\
    float_at_least 5 (improvement_percent res) /\
    py_div (improvement_percent res) (py_float 100) = Ret fraction /\
    time_saved_minutes res = py_mul (baseline_time res) fraction.
Proof.
  intros Hsq Hn [base [tb [qb [Ebase [Etb [Hqb Hpos]]]]]].
  destruct (@nearest_neighbor_spec n tm Hsq) as [tail [Ebase' [Hbase _]]];
    [lia|].
  rewrite Ebase in Ebase'. inversion Ebase'; subst base. clear Ebase'.
  destruct (multi_strategy_optimize_tour Hsq Hn Ebase Hbase Etb)
    as [opt [to [Eopt [Hopt [Eto Hle]]]]].
  assert (Hnp : is_np tb = true).
  { eapply calculate_route_time_np; [|exact Etb].
    rewrite (tour_length Hbase). exact Hn. }
  assert (Hnz : ~ qb == 0).
  { intros E. rewrite E in Hpos. discriminate Hpos. }
  assert (Hto : fleb (fv to) (Fin qb) = true).
  { rewrite <- Hqb. apply Hle. rewrite Hqb. discriminate. }
  unfold optimize_route.
  rewrite Ebase. cbn [bind]. rewrite Etb. cbn [bind].
  rewrite Eopt. cbn [bind]. rewrite Eto. cbn [bind].
  unfold py_div at 1. cbn [py_sub is_np fv]. rewrite Hnp, Hqb.
  rewrite orb_true_r. cbn [negb andb bind].
  unfold py_div. cbn [py_float is_np fv].
  replace (Qzero_bool 100) with false by reflexivity.
  rewrite andb_false_r. cbn [bind].
  eexists _, _. split; [reflexivity|].
  cbn [improvement_percent time_saved_minutes baseline_time].
  split; [|split; [rewrite andb_false_r; reflexivity | reflexivity]].
  apply py_max_5. cbn [py_mul fv py_float].
  apply fmul_100_number, fdiv_np_number; [|exact Hnz].
  now apply fsub_number.
Qed.

End ClampedImprovement.

(** X12.  With fewer than two rows the baseline time is Python's [0.0], and the
    improvement [(0.0 - 0.0) / 0.0] raises [ZeroDivisionError]. *)
Theorem optimize_route_raises_below_two_nodes (tm : fmatrix) :
  (length tm < 2)%nat -> optimize_route tm = Raise ZeroDivisionError.
Proof.
  intros H. destruct tm as [|row [|row' tm]]; [reflexivity | reflexivity |].
  simpl in H. lia.
Qed.

Lemma optimize_route_raises_below_two_nodes_witness :
  optimize_route [[Fin 0]] = Raise ZeroDivisionError.
Proof.
  apply (@optimize_route_raises_below_two_nodes [[Fin 0]]). simpl. lia.
Defined.
(** X13.  On two or three nodes there is nothing to optimize: the 2-opt search
    returns routes of up to three nodes as they are and the third strategy
    needs more than three nodes, so the optimized route is the baseline
    route.  The report still states an improvement of 5 percent, and a
    time saved of 5 percent of the baseline time, [baseline_time *
    (5.0 / 100)]. *)
Theorem optimize_route_reports_five_percent_for_same_route (n : nat)
  (tm : fmatrix) :
  square n tm -> (2 <= n <= 3)%nat ->
  baseline_time_positive tm ->
  exists res qb,
    optimize_route tm = Ret res /\
    optimized_route res = baseline_route res /\
    optimized_time res = baseline_time res /\
    fv (baseline_time res) = Fin qb /\
    fv (improvement_percent res) = Fin 5 /\
    fv (time_saved_minutes res)
    = fmul (Fin qb) (fdiv_np (Fin 5) (Fin 100)).
Proof.
  intros Hsq Hn [base [tb [qb [Ebase [Etb [Hqb Hpos]]]]]].
  pose proof Hsq as [Hlen _].
  destruct (@nearest_neighbor_spec n tm Hsq) as [tail [Ebase' [Hbase _]]];
    [lia|].
  rewrite Ebase in Ebase'. inversion Ebase'; subst base. clear Ebase'.
  pose proof (tour_length Hbase) as Hblen.
  assert (Hnp : is_np tb = true).
  { eapply calculate_route_time_np; [|exact Etb]. rewrite Hblen. lia. }
  assert (Hopt : two_opt_improvement (0%Z :: tail) tm = Ret (0%Z :: tail)).
  { unfold two_opt_improvement. rewrite Hblen.
    replace (n <=? 3)%nat with true by (symmetry; apply Nat.leb_le; lia).
    reflexivity. }
  assert (Hmulti : multi_strategy_optimize tm = Ret (0%Z :: tail)).
  { unfold multi_strategy_optimize.
    rewrite Ebase. cbn [bind]. rewrite Etb. cbn [bind].
    rewrite Hopt. cbn [bind]. rewrite Etb. cbn [bind]. rewrite Hlen.
    replace (3 <? n)%nat with false by (symmetry; apply Nat.ltb_ge; lia).
    cbn [bind min_strategy snd fst].
    destruct (fltb (fv tb) (fv tb)); reflexivity. }
  assert (Hnz : Qzero_bool qb = false).
  { apply Qzero_bool_false. intros E. rewrite E in Hpos. discriminate Hpos. }
  assert (Hsub : round64 (qb - qb) = Fin 0) by (apply round64_zero; ring).
  assert (Hdiv : round64 (0 / qb) = Fin 0)
    by (apply round64_zero; unfold Qdiv; ring).
  assert (Hmul : round64 (0 * 100) = Fin 0) by (now apply round64_zero).
  unfold optimize_route.
  rewrite Ebase. cbn [bind]. rewrite Etb. cbn [bind].
  rewrite Hmulti. cbn [bind]. rewrite Etb. cbn [bind].
  unfold py_div at 1. cbn [py_sub is_np fv]. rewrite Hnp, Hqb.
  cbn [orb negb andb bind fsub]. rewrite Hsub.
  cbn [fdiv_np]. rewrite Hnz, Hdiv.
  unfold py_max. cbn [py_mul py_float fv fmul]. rewrite Hmul.
  replace (fltb (Fin 0) (Fin 5)) with true by reflexivity.
  unfold py_div. cbn [py_float is_np fv orb negb andb].
  replace (Qzero_bool 100) with false by reflexivity. cbn [bind].
  eexists _, qb. split; [reflexivity|].
  cbn [optimized_route baseline_route optimized_time baseline_time
       improvement_percent time_saved_minutes py_mul fv].
  rewrite Hqb. repeat split.
Qed.

Lemma optimize_route_reports_five_percent_for_same_route_witness :
  let tm := [[Fin 0; Fin 1]; [Fin 1; Fin 0]] in
  exists res qb,
    optimize_route tm = Ret res /\
    optimized_route res = baseline_route res /\
    optimized_time res = baseline_time res /\
    fv (baseline_time res) = Fin qb /\
    fv (improvement_percent res) = Fin 5 /\
    fv (time_saved_minutes res)
    = fmul (Fin qb) (fdiv_np (Fin 5) (Fin 100)).
Proof.
  intros tm.
  apply (@optimize_route_reports_five_percent_for_same_route 2 tm).
  - split; [reflexivity | repeat constructor].
  - lia.
  - exists [0; 1]%Z, (np_float 2), 2.
    split; [reflexivity|]. split; [vm_compute; reflexivity|].
    split; reflexivity.
Defined.

(** ** quantum_solver.py: the route metrics *)

Import PyList RouteMetrics.

Section ExcLoopFacts.
Context {A St : Type}.

(** Two bodies that agree on the elements of the list give the same loop. *)
Lemma for_each_ext (f g : A -> St -> exc St) (l : list A) :
  (forall x s, In x l -> f x s = g x s) ->
  forall s, for_each l f s = for_each l g s.
Proof.
  induction l as [|x l IH]; intros H s; simpl; [reflexivity|].
  rewrite (H x s (or_introl eq_refl)).
  destruct (g x s) as [s'|e]; simpl; [|reflexivity].
  apply IH. intros y s0 Hy. apply H. now right.
Qed.

(** A loop over [l1 ++ l2] is the loop over [l1] followed by the loop over
    [l2]. *)
Lemma for_each_app (f : A -> St -> exc St) (l1 l2 : list A) (s : St) :
  for_each (l1 ++ l2) f s = bind (for_each l1 f s) (for_each l2 f).
Proof.
  revert s. induction l1 as [|x l1 IH]; intros s; simpl; [reflexivity|].
  destruct (f x s) as [s'|e]; simpl; [apply IH | reflexivity].
Qed.

End ExcLoopFacts.

(** X14.  A route that does not end at the depot is timed as the same route
    closed by the depot: appending node 0 to a route of two nodes or more
    whose last node is not 0 leaves [_calculate_route_time] as it is,
    whether it returns or raises. *)
Theorem route_time_of_closed_route (route : list Z) (tm : fmatrix) :
  (2 <= length route)%nat ->
  nth (length route - 1) route 0%Z <> 0%Z ->
  _calculate_route_time (route ++ [0%Z]) tm = _calculate_route_time route tm.
Proof.
  intros Hlen Hlast. unfold _calculate_route_time.
  rewrite length_app. cbn [length].
  replace (length route + 1 <? 2)%nat with false
    by (symmetry; apply Nat.ltb_ge; lia).
  replace (length route <? 2)%nat with false
    by (symmetry; apply Nat.ltb_ge; lia).
  replace (length route + 1 - 1)%nat with (S (length route - 1)) by lia.
  rewrite seq_S, for_each_app. cbn [Nat.add].
  rewrite (@for_each_ext nat fval
             (fun i total_time =>
                t <- fmat_get tm (nth i (route ++ [0%Z]) 0%Z)
                       (nth (i + 1) (route ++ [0%Z]) 0%Z) ;;
                Ret (fadd total_time t))
             (fun i total_time =>
                t <- fmat_get tm (nth i route 0%Z) (nth (i + 1) route 0%Z) ;;
                Ret (fadd total_time t))).
  - destruct (for_each (seq 0 (length route - 1)) _ (Fin 0)) as [total|e];
      cbn [bind for_each]; [|reflexivity].
    rewrite (app_nth1 route [0%Z] 0%Z (n := (length route - 1)%nat)) by lia.
    replace (length route - 1 + 1)%nat with (length route) by lia.
    replace (nth (length route) (route ++ [0%Z]) 0%Z) with 0%Z
      by (rewrite app_nth2, Nat.sub_diag by lia; reflexivity).
    replace (nth (S (length route - 1)) (route ++ [0%Z]) 0%Z) with 0%Z
      by (rewrite app_nth2 by lia;
          replace (S (length route - 1) - length route)%nat with 0%nat by lia;
          reflexivity).
    apply Z.eqb_neq in Hlast. rewrite Hlast. cbn [negb Z.eqb].
    destruct (fmat_get tm (nth (length route - 1) route 0%Z) 0%Z) as [t|e];
      reflexivity.
  - intros i s Hi. apply in_seq in Hi.
    rewrite !app_nth1 by lia. reflexivity.
Qed.

Lemma route_time_of_closed_route_witness :
  let tm := [[Fin 0; Fin 5; Fin 2]; [Fin 5; Fin 0; Fin 4];
             [Fin 2; Fin 4; Fin 0]] in
  _calculate_route_time ([0; 2; 1] ++ [0])%Z tm
  = _calculate_route_time [0; 2; 1]%Z tm.
Proof.
  intros tm.
  apply (@route_time_of_closed_route [0; 2; 1]%Z tm).
  - simpl. lia.
  - simpl. lia.
Defined.

(** X15.  The first node of the route is never read: the clock starts at 0 at the
    first stop after it, so the leg from the depot to the first stop does
    not count, and two routes that differ in their first node only have the
    same on-time percentage. *)
Theorem on_time_ignores_first_node (d d' : Z) (rest : list Z) (tm : fmatrix)
  (time_windows : list (Q * Q)) :
  _calculate_on_time_deliveries (d :: rest) tm time_windows
  = _calculate_on_time_deliveries (d' :: rest) tm time_windows.
Proof.
  unfold _calculate_on_time_deliveries.
  destruct time_windows as [|w ws]; [reflexivity|].
  cbn [length]. destruct (S (length rest) <? 2)%nat; [reflexivity|].
  rewrite (@for_each_ext nat on_time_state
             (on_time_step (d :: rest) tm (w :: ws))
             (on_time_step (d' :: rest) tm (w :: ws))); [reflexivity|].
  intros i s Hi. apply in_seq in Hi.
  destruct i as [|i]; [lia|].
  unfold on_time_step. cbn [nth length Nat.add]. reflexivity.
Qed.

Section OnTime.
Variable n : nat.
Variable tm : fmatrix.
Hypothesis Hsq : square n tm.
Variable route : list Z.
Hypothesis Hroute : Forall (fun v => (0 <= v < Z.of_nat n)%Z) route.
Variable time_windows : list (Q * Q).

Lemma route_node_in_range (i : nat) :
  (i < length route)%nat -> in_range n (nth i route 0%Z).
Proof.
  intros Hi.
  pose proof (proj1 (Forall_forall _ _) Hroute _ (nth_In route 0%Z Hi)) as H.
  simpl in H. unfold in_range. lia.
Qed.

(** One stop: the count grows by one at most. *)
Lemma on_time_step_count (i : nat) (st : on_time_state) :
  (i < length route)%nat ->
  exists st',
    on_time_step route tm time_windows i st = Ret st' /\
    (fst st' <= S (fst st))%nat.
Proof.
  intros Hi.
  pose proof (proj1 (Forall_forall _ _) Hroute _ (nth_In route 0%Z Hi))
    as Hnode.
  simpl in Hnode.
  pose proof (route_node_in_range Hi) as Hr.
  assert (H0 : in_range n 0%Z) by (unfold in_range; lia).
  unfold on_time_step.
  assert (Hcount : exists c,
    (if (nth i route 0 <? Z.of_nat (length time_windows))%Z
     then
       w <- list_get time_windows (0, 0) (nth i route 0%Z) ;;
       if fleb (Fin (fst w)) (snd st) && fleb (snd st) (Fin (snd w))
       then Ret (S (fst st))
       else Ret (fst st)
     else Ret (fst st)) = Ret c /\ (c <= S (fst st))%nat).
  { destruct (nth i route 0 <? Z.of_nat (length time_windows))%Z eqn:E.
    - apply Z.ltb_lt in E. unfold list_get, np_index.
      replace ((0 <=? nth i route 0)%Z
               && (nth i route 0 <? Z.of_nat (length time_windows))%Z)
        with true
        by (symmetry; apply andb_true_iff; split;
            [apply Z.leb_le | apply Z.ltb_lt]; lia).
      cbn [bind].
      destruct (fleb _ _ && fleb _ _); eexists; split;
        try reflexivity; lia.
    - eexists; split; [reflexivity | lia]. }
  destruct Hcount as [c [Ec Hc]]. rewrite Ec. cbn [bind].
  destruct (i <? length route - 1)%nat eqn:E.
  - apply Nat.ltb_lt in E.
    assert (Hnext : in_range n (nth (i + 1) route 0%Z))
      by (apply route_node_in_range; lia).
    destruct (fmat_get_in_range Hsq Hr Hnext) as [q Eq].
    rewrite Eq. cbn [bind]. eexists; split; [reflexivity | exact Hc].
  - destruct (fmat_get_in_range Hsq Hr H0) as [q Eq].
    rewrite Eq. cbn [bind]. eexists; split; [reflexivity | exact Hc].
Qed.

(** The loop: the count grows by the number of stops at most. *)
Lemma on_time_loop_count (l : list nat) :
  Forall (fun i => (i < length route)%nat) l ->
  forall st, exists st',
    for_each l (on_time_step route tm time_windows) st = Ret st' /\
    (fst st' <= fst st + length l)%nat.
Proof.
  induction l as [|i l IH]; intros Hl st.
  - exists st. split; [reflexivity | simpl; lia].
  - inversion Hl as [|? ? Hi Hl']; subst.
    destruct (on_time_step_count st Hi) as [st1 [E1 H1]].
    destruct (IH Hl' st1) as [st2 [E2 H2]].
    exists st2. cbn [for_each]. rewrite E1. cbn [bind].
    split; [exact E2 | simpl; lia].
Qed.

End OnTime.

Section Percentage.

(** Between two floats an exact result rounds to a float between them. *)
Lemma round64_between (lo hi x : Q) :
  round64 lo = Fin lo -> round64 hi = Fin hi -> lo <= x -> x <= hi ->
  exists v, round64 x = Fin v /\ lo <= v /\ v <= hi.
Proof.
  intros Hlo Hhi H1 H2.
  pose proof (round64_le H1) as L1. pose proof (round64_le H2) as L2.
  rewrite Hlo in L1. rewrite Hhi in L2.
  destruct (round64 x) as [v| |s]; cbn [fleb] in L1, L2.
  - exists v. split; [reflexivity|]. split; now apply Qle_bool_iff.
  - discriminate L1.
  - destruct s; discriminate.
Qed.

(** A count of at most [m] stops out of [max(1, m)], times [100.0], is a
    percentage. *)
Lemma percentage_bounds (c m : nat) :
  (c <= m)%nat ->
  exists p,
    fmul (int_div c (Nat.max 1 m)) (Fin 100) = Fin p /\ 0 <= p /\ p <= 100.
Proof.
  intros Hc.
  assert (Hpos : 0 < inject_Z (Z.of_nat (Nat.max 1 m))).
  { change 0 with (inject_Z 0). rewrite <- Zlt_Qlt. lia. }
  assert (H0 : 0 <= inject_Z (Z.of_nat c) / inject_Z (Z.of_nat (Nat.max 1 m))).
  { apply Qle_shift_div_l; [exact Hpos|]. rewrite Qmult_0_l.
    change 0 with (inject_Z 0). rewrite <- Zle_Qle. lia. }
  assert (H1 : inject_Z (Z.of_nat c) / inject_Z (Z.of_nat (Nat.max 1 m)) <= 1).
  { apply Qle_shift_div_r; [exact Hpos|]. rewrite Qmult_1_l.
    rewrite <- Zle_Qle. lia. }
  assert (R1 : round64 1 = Fin 1) by (vm_compute; reflexivity).
  assert (R100 : round64 100 = Fin 100) by (vm_compute; reflexivity).
  destruct (round64_between round64_0 R1 H0 H1) as [v [Ev [Hv0 Hv1]]].
  unfold int_div. rewrite Ev. cbn [fmul].
  apply (round64_between round64_0 R100).
  - apply Qmult_le_0_compat; [exact Hv0 | discriminate].
  - apply Qle_trans with (1 * 100); [|apply Qle_refl].
    apply Qmult_le_compat_r; [exact Hv1 | discriminate].
Qed.

End Percentage.

(** X16.  On an n-by-n matrix and a route of nodes between 0 and n-1 the on-time
    percentage is computed, and is a number between 0 and 100. *)
Theorem on_time_deliveries_is_percentage (n : nat) (tm : fmatrix)
  (route : list Z) (time_windows : list (Q * Q)) :
  square n tm ->
  Forall (fun v => (0 <= v < Z.of_nat n)%Z) route ->
  exists p,
    _calculate_on_time_deliveries route tm time_windows = Ret (Fin p) /\
    0 <= p /\ p <= 100.
Proof.
  intros Hsq Hroute. unfold _calculate_on_time_deliveries.
  destruct time_windows as [|w ws].
  { exists 100. split; [reflexivity | split; discriminate]. }
  destruct (length route <? 2)%nat eqn:Elen.
  { exists 100. split; [reflexivity | split; discriminate]. }
  apply Nat.ltb_ge in Elen.
  destruct (@on_time_loop_count n tm Hsq route Hroute (w :: ws)
              (seq 1 (length route - 1))) with (st := (0%nat, Fin 0))
    as [st [Est Hst]].
  { rewrite Forall_forall. intros i Hi. apply in_seq in Hi. lia. }
  rewrite Est. cbn [bind].
  rewrite length_seq in Hst. cbn [fst] in Hst.
  destruct (@percentage_bounds (fst st) (length route - 1)) as [p [Ep Hp]];
    [lia|].
  exists p. rewrite Ep. split; [reflexivity | exact Hp].
Qed.

Lemma on_time_deliveries_is_percentage_witness :
  let tm := [[Fin 0; Fin 5; Fin 2]; [Fin 5; Fin 0; Fin 4];
             [Fin 2; Fin 4; Fin 0]] in
  exists p,
    _calculate_on_time_deliveries [0; 2; 1]%Z tm
      [(0, 480); (0, 10); (0, 3)] = Ret (Fin p) /\
    0 <= p /\ p <= 100.
Proof.
  intros tm.
  apply (@on_time_deliveries_is_percentage 3 tm [0; 2; 1]%Z
           [(0, 480); (0, 10); (0, 3)]).
  - split; [reflexivity | repeat constructor].
  - repeat constructor; simpl; lia.
Defined.

(** ** qubo_builder.py: decoding a TSP solution *)

Import TspDecoder.

Section Ascending.

Lemma insert_sorted_ascending (x : nat) (l : list nat) :
  ascending l -> ascending (insert_sorted Nat.leb x l).
Proof.
  induction l as [|y l IH]; simpl.
  - intros _. split; constructor.
  - intros [Hy Hl]. destruct (y <=? x)%nat eqn:E.
    + apply Nat.leb_le in E. split; [|apply IH, Hl].
      eapply Permutation_Forall; [apply insert_sorted_perm|].
      constructor; assumption.
    + apply Nat.leb_gt in E. split; [|split; assumption].
      constructor; [lia|]. eapply Forall_impl; [|exact Hy].
      intros z Hz. simpl in Hz. lia.
Qed.

Lemma sorted_ascending (l : list nat) : ascending (sorted Nat.leb l).
Proof.
  unfold sorted.
  assert (H : forall acc, ascending acc ->
            ascending (fold_left (fun acc x => insert_sorted Nat.leb x acc) l acc)).
  { induction l as [|x l IH]; intros acc Hacc; simpl; [exact Hacc|].
    apply IH, insert_sorted_ascending, Hacc. }
  apply H. exact I.
Qed.

(** Two ascending lists with the same elements, counted with their
    repetitions, are equal. *)
Lemma ascending_unique (l : list nat) :
  forall l', ascending l -> ascending l' -> Permutation l l' -> l = l'.
Proof.
  induction l as [|a l IH]; intros l' Hl Hl' P.
  - apply Permutation_nil in P. now subst.
  - destruct l' as [|b l'].
    + symmetry in P. apply Permutation_nil in P. discriminate.
    + destruct Hl as [Ha Hl], Hl' as [Hb Hl'].
      assert (Hab : (a <= b)%nat).
      { assert (Hin : In b (a :: l))
          by (eapply Permutation_in; [symmetry; exact P | now left]).
        destruct Hin as [->|Hin]; [lia|].
        rewrite Forall_forall in Ha. now apply Ha. }
      assert (Hba : (b <= a)%nat).
      { assert (Hin : In a (b :: l'))
          by (eapply Permutation_in; [exact P | now left]).
        destruct Hin as [->|Hin]; [lia|].
        rewrite Forall_forall in Hb. now apply Hb. }
      assert (a = b) by lia. subst b.
      f_equal. apply IH; try assumption.
      eapply Permutation_cons_inv, P.
Qed.

Lemma ascending_seq (a n : nat) : ascending (seq a n).
Proof.
  revert a. induction n as [|n IH]; intros a; simpl; [exact I|].
  split; [|apply IH]. rewrite Forall_forall. intros x Hx.
  apply in_seq in Hx. lia.
Qed.

(** [sorted] of the positions 0..N-1 in any order. *)
Lemma sorted_positions (N : nat) (l : list nat) :
  Permutation l (seq 0 N) -> sorted Nat.leb l = seq 0 N.
Proof.
  intros P. apply ascending_unique.
  - apply sorted_ascending.
  - apply ascending_seq.
  - rewrite <- P. symmetry. apply sorted_perm.
Qed.

End Ascending.

Section ListFacts.
Context {A B : Type}.

Lemma NoDup_map_on (f : A -> B) (l : list A) :
  (forall x y, In x l -> In y l -> f x = f y -> x = y) ->
  NoDup l -> NoDup (map f l).
Proof.
  intros Hinj Hl. induction Hl as [|x l Hx Hl IH]; simpl; constructor.
  - rewrite in_map_iff. intros [y [E Hy]].
    assert (y = x) by (apply Hinj; [now right | now left | exact E]).
    subst. contradiction.
  - apply IH. intros a b Ha Hb. apply Hinj; now right.
Qed.

Lemma map_fst_combine (ks : list A) :
  forall vs : list B, length ks = length vs -> map fst (combine ks vs) = ks.
Proof.
  induction ks as [|k ks IH]; intros [|v vs] H; simpl in *;
    try reflexivity; try discriminate.
  f_equal. apply IH. lia.
Qed.

Lemma map_nth_seq (l : list A) (d : A) :
  map (fun p => nth p l d) (seq 0 (length l)) = l.
Proof.
  induction l as [|x l IH]; simpl; [reflexivity|].
  f_equal. rewrite <- seq_shift, map_map. exact IH.
Qed.

End ListFacts.

Section DictFacts.
Context {V : Type}.

Lemma nat_dict_get_in (d : dict nat V) (k : nat) (v : V) :
  NoDup (dict_keys d) -> In (k, v) d -> dict_get Nat.eqb d k = Some v.
Proof.
  unfold dict_keys. induction d as [|[k0 v0] d IH]; simpl; [tauto|].
  intros Hnd [E|Hin].
  - inversion E; subst. now rewrite Nat.eqb_refl.
  - inversion Hnd as [|? ? Hk0 Hnd']; subst.
    destruct (k =? k0)%nat eqn:E; [|now apply IH].
    apply Nat.eqb_eq in E. subst. exfalso. apply Hk0.
    apply in_map_iff. exists (k0, v). auto.
Qed.

Lemma pair_dict_get_in (d : dict (nat * nat) V) (k : nat * nat) (v : V) :
  NoDup (dict_keys d) -> In (k, v) d -> dict_get pair_eqb d k = Some v.
Proof.
  unfold dict_keys. induction d as [|[k0 v0] d IH]; simpl; [tauto|].
  intros Hnd [E|Hin].
  - inversion E; subst.
    now replace (pair_eqb k k) with true by (symmetry; now apply pair_eqb_eq).
  - inversion Hnd as [|? ? Hk0 Hnd']; subst.
    destruct (pair_eqb k k0) eqn:E; [|now apply IH].
    apply pair_eqb_eq in E. subst. exfalso. apply Hk0.
    apply in_map_iff. exists (k0, v). auto.
Qed.

Lemma pair_dict_get_some (d : dict (nat * nat) V) (k : nat * nat) (v : V) :
  dict_get pair_eqb d k = Some v -> In (k, v) d.
Proof.
  induction d as [|[k0 v0] d IH]; simpl; [discriminate|].
  destruct (pair_eqb k k0) eqn:E.
  - apply pair_eqb_eq in E. subst. intros H; inversion H; now left.
  - intros H. right. now apply IH.
Qed.

End DictFacts.

Section PositionToNode.
Variable sol : solution.

(** When the items set by the solution have distinct positions the
    dictionary holds one entry for each of them, in their order. *)
Lemma position_fold (l : list ((nat * nat) * nat)) :
  forall d : dict nat nat,
    NoDup (dict_keys d
           ++ map (fun kv => snd (fst kv))
                  (filter (fun kv => is_set sol (snd kv)) l)) ->
    fold_left (fun d kv =>
      match kv with
      | ((node, pos), var_idx) =>
          if is_set sol var_idx then dict_set Nat.eqb d pos node else d
      end) l d
    = d ++ map (fun kv => (snd (fst kv), fst (fst kv)))
               (filter (fun kv => is_set sol (snd kv)) l).
Proof.
  induction l as [|[[i p] v] l IH]; intros d H; simpl.
  - now rewrite app_nil_r.
  - simpl in H. destruct (is_set sol v) eqn:E; simpl in *.
    + rewrite nat_dict_set_fresh.
      * rewrite IH; [now rewrite <- app_assoc|].
        unfold dict_keys in *. rewrite map_app, <- app_assoc. exact H.
      * apply NoDup_remove_2 in H. intros Hin. apply H.
        apply in_or_app. now left.
    + apply IH, H.
Qed.

End PositionToNode.

Section RoundTrip.
Variable route : list nat.
Hypothesis Hroute : Forall (fun v => (v < length route)%nat) route.
Variable sol : solution.
Hypothesis Hsol :
  forall v, is_set sol v
            = tour_assignment (fst (make_tsp_var_index (length route))) route v.

Lemma tsp_var_index_keys (N : nat) :
  dict_keys (fst (make_tsp_var_index N)) = tsp_keys N.
Proof.
  rewrite make_tsp_var_index_eq. cbn [fst]. unfold dict_keys.
  apply map_fst_combine. unfold tsp_keys.
  rewrite length_prod, !length_seq. reflexivity.
Qed.

Lemma tsp_var_index_nodup (N : nat) :
  NoDup (dict_keys (fst (make_tsp_var_index N))).
Proof.
  rewrite tsp_var_index_keys. apply NoDup_list_prod; apply seq_NoDup.
Qed.

(** The items of the index: in range, and numbered by [vget]. *)
Lemma tsp_var_index_item (N i p v : nat) :
  In ((i, p), v) (fst (make_tsp_var_index N)) ->
  (i < N)%nat /\ (p < N)%nat /\ v = vget (fst (make_tsp_var_index N)) i p.
Proof.
  intros Hin.
  assert (Hk : In (i, p) (tsp_keys N)).
  { rewrite <- tsp_var_index_keys. unfold dict_keys.
    apply in_map_iff. exists ((i, p), v). auto. }
  unfold tsp_keys in Hk. apply in_prod_iff in Hk.
  rewrite !in_seq in Hk. repeat split; try lia.
  unfold vget, dict_get_default.
  now rewrite (@pair_dict_get_in _ _ _ _ (tsp_var_index_nodup N) Hin).
Qed.

(** The items the solution sets: node [route[p]] at position [p]. *)
Lemma set_item (i p v : nat) :
  In ((i, p), v)
     (filter (fun kv => is_set sol (snd kv))
             (fst (make_tsp_var_index (length route)))) <->
  (p < length route)%nat /\ i = nth p route 0%nat /\
  v = vget (fst (make_tsp_var_index (length route))) i p.
Proof.
  rewrite filter_In. cbn [snd]. split.
  - intros [Hin Hset]. destruct (tsp_var_index_item _ _ _ _ Hin) as [Hi [Hp Ev]].
    rewrite Hsol, Ev, (tour_assignment_at Hroute Hi Hp) in Hset.
    apply Nat.eqb_eq in Hset. auto.
  - intros [Hp [Ei Ev]].
    assert (Hi : (i < length route)%nat).
    { subst i. rewrite Forall_forall in Hroute. apply Hroute, nth_In, Hp. }
    split.
    + apply pair_dict_get_some. rewrite Ev, vget_eq by assumption.
      now apply tsp_var_index_get.
    + rewrite Hsol, Ev, (tour_assignment_at Hroute Hi Hp), Ei.
      apply Nat.eqb_refl.
Qed.

Lemma set_positions :
  let F := filter (fun kv => is_set sol (snd kv))
                  (fst (make_tsp_var_index (length route))) in
  NoDup (map (fun kv => snd (fst kv)) F) /\
  Permutation (map (fun kv => snd (fst kv)) F) (seq 0 (length route)).
Proof.
  intros F.
  assert (Hnd : NoDup (map (fun kv : nat * nat * nat => snd (fst kv)) F)).
  { apply NoDup_map_on.
    - intros [[i p] v] [[i' p'] v'] Hx Hy E. cbn [fst snd] in E. subst p'.
      apply set_item in Hx, Hy.
      destruct Hx as [_ [-> ->]], Hy as [_ [-> ->]]. reflexivity.
    - apply NoDup_filter.
      eapply NoDup_map_inv. apply (tsp_var_index_nodup (length route)). }
  split; [exact Hnd|].
  apply NoDup_Permutation; [exact Hnd | apply seq_NoDup|].
  intros p. rewrite in_map_iff, in_seq. split.
  - intros [[[i p'] v] [E Hin]]. cbn [fst snd] in E. subst p'.
    apply set_item in Hin. lia.
  - intros Hp.
    exists ((nth p route 0%nat, p),
            vget (fst (make_tsp_var_index (length route)))
                 (nth p route 0%nat) p).
    split; [reflexivity|]. apply set_item. repeat split. lia.
Qed.

Lemma extract_tsp_solution_of_tour : _extract_tsp_solution sol
  (fst (make_tsp_var_index (length route))) = route.
Proof.
  destruct set_positions as [Hnd Hperm].
  unfold _extract_tsp_solution, position_to_node. cbv zeta.
  rewrite position_fold by exact Hnd. cbn [app].
  unfold dict_keys. rewrite map_map. cbn [fst].
  rewrite (@sorted_positions _ _ Hperm).
  rewrite <- (map_nth_seq route 0%nat) at 2.
  apply map_ext_in. intros p Hp. apply in_seq in Hp.
  unfold dict_get_default. rewrite nat_dict_get_in with (v := nth p route 0%nat).
  - reflexivity.
  - unfold dict_keys. rewrite map_map. exact Hnd.
  - apply in_map_iff.
    exists ((nth p route 0%nat, p),
            vget (fst (make_tsp_var_index (length route)))
                 (nth p route 0%nat) p).
    split; [reflexivity|]. apply set_item. repeat split. lia.
Qed.

End RoundTrip.

(** X17.  Decoding inverts encoding: on a solution that sets exactly the
    variables of a route (node [route[p]] at position [p], every node below
    the length of the route) [_extract_tsp_solution] returns that route. *)
Theorem extract_tsp_solution_round_trip (route : list nat) (sol : solution) :
  let vi := fst (make_tsp_var_index (length route)) in
  Forall (fun v => (v < length route)%nat) route ->
  (forall v, is_set sol v = tour_assignment vi route v) ->
  _extract_tsp_solution sol vi = route.
Proof.
  intros vi Hroute Hsol. now apply extract_tsp_solution_of_tour.
Qed.

Lemma extract_tsp_solution_round_trip_witness :
  _extract_tsp_solution [(2%nat, 1%Z); (3%nat, 1%Z); (7%nat, 1%Z)]
    (fst (make_tsp_var_index 3)) = [1; 2; 0]%nat.
Proof.
  apply (@extract_tsp_solution_round_trip [1; 2; 0]%nat
           [(2%nat, 1%Z); (3%nat, 1%Z); (7%nat, 1%Z)]).
  - repeat constructor.
  - intros v.
    destruct v as [|[|[|[|[|[|[|[|v]]]]]]]]; reflexivity.
Defined.

(** ** qubo_builder.py: the energy of a tour *)

Section Counting.

Lemma length_filter_perm {A : Type} (f : A -> bool) (l l' : list A) :
  Permutation l l' -> length (filter f l) = length (filter f l').
Proof.
  induction 1 as [|a l l' _ IH|a b l|l l' l'' _ IH1 _ IH2]; simpl.
  - reflexivity.
  - destruct (f a); simpl; now rewrite IH.
  - destruct (f a), (f b); reflexivity.
  - now rewrite IH1.
Qed.

Lemma length_filter_map {A B : Type} (f : B -> bool) (g : A -> B)
  (l : list A) :
  length (filter f (map g l)) = length (filter (fun a => f (g a)) l).
Proof.
  induction l as [|a l IH]; simpl; [reflexivity|].
  destruct (f (g a)); simpl; now rewrite IH.
Qed.

(** A node occurs once among the nodes [s, ..., s+N-1] it belongs to. *)
Lemma count_in_seq (i : nat) (N : nat) :
  forall s, (s <= i < s + N)%nat ->
            length (filter (fun a => (i =? a)%nat) (seq s N)) = 1%nat.
Proof.
  induction N as [|N IH]; intros s H; [lia|].
  cbn [seq filter]. destruct (i =? s)%nat eqn:E.
  - apply Nat.eqb_eq in E. subst s. cbn [length]. f_equal.
    assert (Hnone : forall M t, (i < t)%nat ->
              length (filter (fun a => (i =? a)%nat) (seq t M)) = 0%nat).
    { induction M as [|M IHM]; intros t Ht; [reflexivity|].
      cbn [seq filter].
      replace (i =? t)%nat with false by (symmetry; apply Nat.eqb_neq; lia).
      apply IHM. lia. }
    apply Hnone. lia.
  - apply Nat.eqb_neq in E. apply IH. lia.
Qed.

End Counting.

Section TourOneHot.
Variable route : list nat.
Hypothesis Hperm : Permutation route (seq 0 (length route)).

Lemma perm_route_lt : Forall (fun v => (v < length route)%nat) route.
Proof.
  eapply Permutation_Forall; [symmetry; exact Hperm|].
  rewrite Forall_forall. intros v Hv. apply in_seq in Hv. lia.
Qed.

(** The assignment of a tour that visits every node once is one-hot. *)
Lemma tour_assignment_one_hot :
  one_hot (fst (make_tsp_var_index (length route))) (length route)
    (tour_assignment (fst (make_tsp_var_index (length route))) route) = true.
Proof.
  pose proof perm_route_lt as Hlt.
  unfold one_hot, count_set. rewrite andb_true_iff, !forallb_forall.
  split; intros k Hk; apply in_seq in Hk; apply Nat.eqb_eq;
    rewrite length_filter_map.
  - (* node k: its positions *)
    rewrite (filter_ext_in _ (fun p => (k =? nth p route 0)%nat)).
    + rewrite <- (length_filter_map (fun a => (k =? a)%nat)
                    (fun p => nth p route 0%nat)).
      rewrite map_nth_seq, (length_filter_perm _ Hperm).
      apply count_in_seq. lia.
    + intros p Hp. apply in_seq in Hp.
      apply (tour_assignment_at Hlt); lia.
  - (* position k: its nodes *)
    rewrite (filter_ext_in _ (fun i => (nth k route 0 =? i)%nat)).
    + apply count_in_seq. split; [lia|]. cbn [Nat.add].
      rewrite Forall_forall in Hlt. apply Hlt, nth_In. lia.
    + intros i Hi. apply in_seq in Hi.
      rewrite (tour_assignment_at Hlt) by lia. apply Nat.eqb_sym.
Qed.

End TourOneHot.

(** X18.  What the encoding is for: on the assignment of a tour that visits each
    of the N nodes once the assignment is one-hot and the energy of the
    QUBO is the travel time of the closed tour minus [2 * N * lambda], so
    that among tours a lower energy is a shorter tour. *)
Theorem tsp_energy_of_tour (lam : Q) (tm : matrix) (route : list nat) :
  Permutation route (seq 0 (shape0 tm)) ->
  let vi := snd (build_time_dependent_tsp_qubo lam tm) in
  one_hot vi (shape0 tm) (tour_assignment vi route) = true /\
  qubo_energy (fst (build_time_dependent_tsp_qubo lam tm))
              (tour_assignment vi route)
  == tour_cost tm route - inject_Z (2 * Z.of_nat (shape0 tm)) * lam.
Proof.
  intros Hperm vi. subst vi.
  assert (Hlen : length route = shape0 tm).
  { rewrite (Permutation_length Hperm). apply length_seq. }
  unfold build_time_dependent_tsp_qubo. cbn [fst snd].
  rewrite <- Hlen in *.
  pose proof (tour_assignment_one_hot Hperm) as Hhot.
  split; [exact Hhot|].
  rewrite constraints_energy by exact Hhot.
  apply Qplus_inj_r.
  etransitivity; [exact (objective_energy tm (perm_route_lt Hperm) [])|].
  simpl. ring.
Qed.

Lemma tsp_energy_of_tour_witness :
  let tm := [[0; 3; 7]; [4; 0; 2]; [5; 6; 0]] in
  let vi := snd (build_time_dependent_tsp_qubo 100 tm) in
  one_hot vi 3 (tour_assignment vi [0; 2; 1]%nat) = true /\
  qubo_energy (fst (build_time_dependent_tsp_qubo 100 tm))
              (tour_assignment vi [0; 2; 1]%nat)
  == tour_cost tm [0; 2; 1]%nat - inject_Z (2 * Z.of_nat 3) * 100.
Proof.
  intros tm.
  apply (@tsp_energy_of_tour 100 tm [0; 2; 1]%nat).
  apply perm_skip. apply perm_swap.
Defined.

(** ** qubo_builder.py: decoding a VRP solution *)

Section Legs.

Lemma legs_snoc (r : list nat) (a b : nat) :
  legs (r ++ [a] ++ [b]) = legs (r ++ [a]) ++ [(a, b)].
Proof.
  unfold legs. induction r as [|x r IH]; [reflexivity|].
  destruct r as [|y r]; [reflexivity|].
  cbn [app tl combine] in *. f_equal. exact IH.
Qed.

Lemma tl_snoc (r : list nat) (a b : nat) :
  tl (r ++ [a] ++ [b]) = tl (r ++ [a]) ++ [b].
Proof.
  destruct r as [|x r]; [reflexivity|]. simpl. now rewrite <- app_assoc.
Qed.

End Legs.

Section WalkSound.
Variable route_edges : list (nat * nat).

Lemma next_node_in (current j : nat) :
  next_node route_edges current = Some j -> In (current, j) route_edges.
Proof.
  unfold next_node. destruct (find _ route_edges) as [[i j']|] eqn:E;
    [|discriminate].
  intros H; inversion H; subst. apply find_some in E.
  destruct E as [Hin Hi]. apply Nat.eqb_eq in Hi. simpl in Hi. now subst.
Qed.

(** What the walk keeps: the route ends on the current node, starts at the
    depot, does not come back to it, and walks along edges of the list. *)
Lemma walk_sound (fuel : nat) :
  forall pre current r,
    walk fuel route_edges (current, pre ++ [current]) = Some r ->
    hd_error (pre ++ [current]) = Some 0%nat ->
    ~ In 0%nat (tl (pre ++ [current])) ->
    Forall (fun e => In e route_edges) (legs (pre ++ [current])) ->
    hd_error r = Some 0%nat /\ ~ In 0%nat (tl r) /\
    (length (pre ++ [current]) <= length r)%nat /\
    Forall (fun e => In e route_edges) (legs r).
Proof.
  induction fuel as [|fuel IH]; intros pre current r Hw Hhd Hno Hlegs.
  - discriminate.
  - cbn [walk] in Hw. unfold walk_step in Hw. cbn [fst snd] in Hw.
    destruct (next_node route_edges current) as [j|] eqn:En.
    + destruct (j =? 0)%nat eqn:Ej.
      * inversion Hw; subst. auto.
      * apply Nat.eqb_neq in Ej. apply next_node_in in En.
        rewrite <- app_assoc in Hw.
        destruct (IH (pre ++ [current]) j r) as [H1 [H2 [H3 H4]]].
        -- rewrite <- app_assoc. exact Hw.
        -- rewrite <- app_assoc. destruct pre; exact Hhd.
        -- rewrite <- app_assoc, tl_snoc. intros Hin.
           apply in_app_or in Hin. destruct Hin as [Hin|[Hin|[]]]; auto.
        -- rewrite <- app_assoc, legs_snoc. apply Forall_app. split; auto.
        -- repeat split; auto. rewrite !length_app in *. simpl in *. lia.
    + inversion Hw; subst. auto.
Qed.

End WalkSound.

Section GroupByVehicle.
Variable sol : solution.
Variable vi : vrp_var_index.

(** Every edge filed under a vehicle is one the solution selects for it. *)
Lemma group_by_vehicle_selected (k : nat) (e : nat * nat) :
  In e (dict_get_default Nat.eqb (group_by_vehicle sol vi) k []) ->
  selected_edge sol vi k e.
Proof.
  unfold group_by_vehicle.
  assert (H : forall (l : list (nat * nat * nat * nat))
                     (vr : dict nat (list (nat * nat))),
    incl l vi ->
    (forall k e, In e (dict_get_default Nat.eqb vr k []) ->
                 selected_edge sol vi k e) ->
    forall k e,
      In e (dict_get_default Nat.eqb
              (fold_left (fun vr kv =>
                 match kv with
                 | ((i, j, k), var_idx) =>
                     if is_set sol var_idx
                     then dict_set Nat.eqb vr k
                            (dict_get_default Nat.eqb vr k [] ++ [(i, j)])
                     else vr
                 end) l vr) k []) ->
      selected_edge sol vi k e).
  { induction l as [|[[[i j] k0] v] l IH]; intros vr Hl Hvr k1 e1; simpl.
    - apply Hvr.
    - apply IH.
      + intros x Hx. apply Hl. now right.
      + destruct (is_set sol v) eqn:Ev; [|exact Hvr].
        intros k2 e2. unfold dict_get_default at 1.
        rewrite nat_dict_get_set. destruct (k2 =? k0)%nat eqn:Ek.
        * apply Nat.eqb_eq in Ek. subst k2. intros Hin.
          apply in_app_or in Hin. destruct Hin as [Hin|[<-|[]]].
          -- now apply Hvr.
          -- exists v. split; [apply Hl; now left | exact Ev].
        * apply Hvr. }
  apply H; [apply incl_refl|]. intros k0 e0 [].
Qed.

End GroupByVehicle.

(** X19.  Whatever [_extract_vrp_solution] returns is made of vehicle routes:
    each starts at the depot, has a second node, never comes back to the
    depot, and follows edges that the solution selects for one vehicle. *)
Theorem extract_vrp_solution_sound (fuel : nat) (sol : solution)
  (vi : vrp_var_index) (routes : list (list nat)) :
  extract_vrp_solution fuel sol vi = Some routes ->
  Forall (vehicle_route sol vi) routes.
Proof.
  unfold extract_vrp_solution. cbv zeta.
  generalize (sorted Nat.leb (dict_keys (group_by_vehicle sol vi))) as ks.
  intros ks. revert routes.
  assert (H : forall (acc : option (list (list nat))) routes,
    (forall rs, acc = Some rs -> Forall (vehicle_route sol vi) rs) ->
    fold_left (fun acc k =>
      match acc with
      | None => None
      | Some routes =>
          let route_edges :=
            dict_get_default Nat.eqb (group_by_vehicle sol vi) k [] in
          match route_edges with
          | [] => Some routes
          | _ =>
              match walk fuel route_edges (0%nat, [0%nat]) with
              | None => None
              | Some route =>
                  if (1 <? length route)%nat then Some (routes ++ [route])
                  else Some routes
              end
          end
      end) ks acc = Some routes ->
    Forall (vehicle_route sol vi) routes).
  { induction ks as [|k ks IH]; intros acc routes Hacc; simpl.
    - apply Hacc.
    - apply IH. intros rs. destruct acc as [rs0|]; [|discriminate].
      specialize (Hacc rs0 eq_refl).
      destruct (dict_get_default Nat.eqb (group_by_vehicle sol vi) k [])
        as [|e0 es] eqn:Ees.
      + intros E; inversion E; subst. exact Hacc.
      + destruct (walk fuel (e0 :: es) (0%nat, [0%nat])) as [r|] eqn:Ew;
          [|discriminate].
        destruct (1 <? length r)%nat eqn:Elen;
          intros E; inversion E; subst; [|exact Hacc].
        apply Forall_app. split; [exact Hacc|]. constructor; [|constructor].
        apply Nat.ltb_lt in Elen.
        assert (Hno : ~ In 0%nat (tl ([] ++ [0%nat]))) by (simpl; tauto).
        assert (Hl0 : Forall (fun e => In e (e0 :: es)) (legs ([] ++ [0%nat])))
          by constructor.
        destruct (@walk_sound (e0 :: es) fuel [] 0%nat r Ew eq_refl Hno Hl0)
          as [H1 [H2 [_ H4]]].
        repeat split; auto. exists k.
        eapply Forall_impl; [|exact H4]. intros e He.
        apply group_by_vehicle_selected. rewrite Ees. exact He. }
  intros routes. apply H. intros rs E. inversion E. constructor.
Qed.

Lemma extract_vrp_solution_sound_witness :
  Forall (vehicle_route [(0%nat, 1%Z); (3%nat, 1%Z); (4%nat, 1%Z)]
                        (fst (make_vrp_var_index 3 1)))
         [[0; 1; 2]%nat].
Proof.
  apply (@extract_vrp_solution_sound 5
           [(0%nat, 1%Z); (3%nat, 1%Z); (4%nat, 1%Z)]
           (fst (make_vrp_var_index 3 1)) [[0; 1; 2]%nat]).
  reflexivity.
Defined.

Section WalkComplete.
Variable route_edges : list (nat * nat).

(** The walk along a chain it follows returns the chain. *)
Lemma walk_follows (s : list nat) :
  forall fuel pre current,
    follows route_edges current s -> (length s < fuel)%nat ->
    walk fuel route_edges (current, pre ++ [current])
    = Some (pre ++ [current] ++ s).
Proof.
  induction s as [|y s IH]; intros fuel pre current Hf Hfuel;
    (destruct fuel as [|fuel]; [simpl in Hfuel; lia|]);
    cbn [walk]; unfold walk_step; cbn [fst snd].
  - destruct Hf as [-> | ->]; cbn [Nat.eqb]; now rewrite app_nil_r.
  - destruct Hf as [-> [Hy Hf]]. apply Nat.eqb_neq in Hy. rewrite Hy.
    rewrite (IH fuel (pre ++ [current]) y Hf) by (simpl in Hfuel; lia).
    now rewrite <- !app_assoc.
Qed.

Hypothesis Hfirst : NoDup (map fst route_edges).

(** With one edge out of every node the first successor is the only one. *)
Lemma next_node_unique (a b : nat) :
  In (a, b) route_edges -> next_node route_edges a = Some b.
Proof.
  unfold next_node. revert Hfirst.
  induction route_edges as [|[i j] es IH]; simpl; [tauto|].
  intros Hnd Hin. inversion Hnd as [|? ? Hi Hnd']; subst.
  destruct (i =? a)%nat eqn:E.
  - apply Nat.eqb_eq in E. subst i. destruct Hin as [Hin|Hin].
    + now inversion Hin.
    + exfalso. apply Hi. apply in_map_iff. exists (a, b). auto.
  - apply Nat.eqb_neq in E. destruct Hin as [Hin|Hin].
    + inversion Hin. congruence.
    + now apply IH.
Qed.

Lemma follows_closed (s : list nat) :
  forall current,
    incl (legs (current :: s ++ [0%nat])) route_edges -> ~ In 0%nat s ->
    follows route_edges current s.
Proof.
  induction s as [|y s IH]; intros current Hincl Hno.
  - right. apply next_node_unique, Hincl. now left.
  - cbn [follows]. split; [|split].
    + apply next_node_unique, Hincl. now left.
    + intros ->. apply Hno. now left.
    + apply IH.
      * intros e He. apply Hincl. right. exact He.
      * intros Hin. apply Hno. now right.
Qed.

End WalkComplete.

Section LegsOrigins.

Lemma legs_cons (a b : nat) (l : list nat) :
  legs (a :: b :: l) = (a, b) :: legs (b :: l).
Proof. reflexivity. Qed.

(** The origins of the legs of a route are its nodes but the last. *)
Lemma legs_origins (c : list nat) (x : nat) : map fst (legs (c ++ [x])) = c.
Proof.
  induction c as [|a c IH]; [reflexivity|].
  destruct c as [|b c]; [reflexivity|].
  cbn [app] in *. rewrite legs_cons. cbn [map fst]. f_equal. exact IH.
Qed.

End LegsOrigins.

(** X20.  A closed tour is decoded to itself: when the edges of a vehicle are, in
    any order, the legs of a tour that leaves the depot, visits the nodes
    of [r] without repetition and comes back, the walk returns the depot
    followed by [r], as soon as it is given more than [len(r)] iterations. *)
Theorem walk_decodes_closed_tour (r : list nat)
  (route_edges : list (nat * nat)) (fuel : nat) :
  NoDup (0%nat :: r) ->
  Permutation route_edges (legs (0%nat :: r ++ [0%nat])) ->
  (length r < fuel)%nat ->
  walk fuel route_edges (0%nat, [0%nat]) = Some (0%nat :: r).
Proof.
  intros Hnd Hperm Hfuel.
  assert (Hfirst : NoDup (map fst route_edges)).
  { eapply Permutation_NoDup; [symmetry; apply Permutation_map, Hperm|].
    change (0%nat :: r ++ [0%nat]) with ((0%nat :: r) ++ [0%nat]).
    now rewrite legs_origins. }
  apply (@walk_follows route_edges r fuel [] 0%nat); [|exact Hfuel].
  apply follows_closed; [exact Hfirst | |].
  - intros e He. eapply Permutation_in; [symmetry; exact Hperm | exact He].
  - now inversion Hnd.
Qed.

Lemma walk_decodes_closed_tour_witness :
  walk 3 [(0, 2); (1, 0); (2, 1)]%nat (0%nat, [0%nat]) = Some [0; 2; 1]%nat.
Proof.
  apply (@walk_decodes_closed_tour [2; 1]%nat [(0, 2); (1, 0); (2, 1)]%nat 3).
  - repeat constructor; simpl; intuition discriminate.
  - apply Permutation_sym.
    change (legs (0%nat :: [2; 1]%nat ++ [0%nat]))
      with [(0, 2); (2, 1); (1, 0)]%nat.
    apply perm_skip. apply perm_swap.
  - simpl. lia.
Defined.

(** ** qubo_builder.py: time windows and capacities *)

Import TspConstraints.

Section WindowErrors.
Variable lam : Q.
Variable tm : matrix.
Variable time_windows : list (Q * Q).
Variable vi : tsp_var_index.

Lemma list_get_nat {A : Type} (l : list A) (d : A) (i : nat) :
  (i < length l)%nat -> list_get l d (Z.of_nat i) = Ret (nth i l d).
Proof.
  intros Hi. unfold list_get, np_index.
  replace ((0 <=? Z.of_nat i)%Z && (Z.of_nat i <? Z.of_nat (length l))%Z)
    with true
    by (symmetry; apply andb_true_iff; split;
        [apply Z.leb_le | apply Z.ltb_lt]; lia).
  cbn [bind]. now rewrite Nat2Z.id.
Qed.

Lemma list_get_past_end {A : Type} (l : list A) (d : A) :
  list_get l d (Z.of_nat (length l)) = Raise IndexError.
Proof.
  unfold list_get, np_index.
  replace (Z.of_nat (length l) <? Z.of_nat (length l))%Z with false
    by (symmetry; apply Z.ltb_ge; lia).
  replace (Z.of_nat (length l) <? 0)%Z with false
    by (symmetry; apply Z.ltb_ge; lia).
  now rewrite !andb_false_r.
Qed.

(** With a positive entry in the matrix the loop over the positions
    returns. *)
Lemma window_loop_returns (w : Q * Q) (i : nat) (l : list nat) :
  positive_entries tm <> [] ->
  forall Qd, exists Qd',
    for_each l (fun p Qd =>
      window_penalty lam vi tm (fst w) (snd w) i p Qd) Qd = Ret Qd'.
Proof.
  intros Hpos. induction l as [|p l IH]; intros Qd.
  - now exists Qd.
  - cbn [for_each]. unfold window_penalty at 1.
    destruct (positive_entries tm) as [|q qs]; [congruence|].
    cbn [np_min bind].
    destruct (Qlt_bool _ (fst w)); [cbn [bind]; apply IH|].
    destruct (Qlt_bool (snd w) _); cbn [bind]; apply IH.
Qed.

End WindowErrors.

(** X21.  A matrix without a positive entry (all the stops at one place) and
    time windows for two nodes or more: the estimate of the arrival time
    takes the minimum of an empty selection, and the builder raises
    [ValueError]. *)
Theorem time_windows_on_zero_matrix_raise (lam : Q) (tm : matrix)
  (time_windows : list (Q * Q)) (capacity_constraints : list Q) :
  positive_entries tm = [] ->
  (2 <= shape0 tm)%nat -> (2 <= length time_windows)%nat ->
  build_time_dependent_tsp_qubo_with lam tm time_windows capacity_constraints
  = Raise ValueError.
Proof.
  intros Hpos HN Htw. unfold build_time_dependent_tsp_qubo_with. cbv zeta.
  generalize (fst (build_time_dependent_tsp_qubo lam tm)) as Qd.
  generalize (snd (build_time_dependent_tsp_qubo lam tm)) as vi.
  intros vi Qd.
  destruct time_windows as [|w0 [|w1 ws]]; try (simpl in Htw; lia).
  unfold _add_time_window_constraints.
  destruct (shape0 tm) as [|[|N]]; try lia.
  cbn [seq for_each Nat.eqb bind].
  rewrite (@list_get_nat _ (w0 :: w1 :: ws) (0, 0) 1) by (simpl; lia).
  cbn [bind nth]. unfold window_penalty at 1. rewrite Hpos. reflexivity.
Qed.

Lemma time_windows_on_zero_matrix_raise_witness :
  build_time_dependent_tsp_qubo_with 100 [[0; 0]; [0; 0]]
    [(0, 480); (60, 180)] [] = Raise ValueError.
Proof.
  apply (@time_windows_on_zero_matrix_raise 100 [[0; 0]; [0; 0]]
           [(0, 480); (60, 180)] []).
  - reflexivity.
  - simpl. lia.
  - simpl. lia.
Defined.

(** X22.  Fewer time windows than nodes: the loop reads [time_windows[i]] for
    every node but the depot, and the builder raises [IndexError] at the
    first node without a window. *)
Theorem time_windows_shorter_than_matrix_raise (lam : Q) (tm : matrix)
  (time_windows : list (Q * Q)) (capacity_constraints : list Q) :
  positive_entries tm <> [] ->
  (0 < length time_windows < shape0 tm)%nat ->
  build_time_dependent_tsp_qubo_with lam tm time_windows capacity_constraints
  = Raise IndexError.
Proof.
  intros Hpos Htw. unfold build_time_dependent_tsp_qubo_with. cbv zeta.
  generalize (fst (build_time_dependent_tsp_qubo lam tm)) as Qd.
  generalize (snd (build_time_dependent_tsp_qubo lam tm)) as vi.
  intros vi Qd.
  destruct time_windows as [|w0 ws] eqn:Etw; [simpl in Htw; lia|].
  rewrite <- Etw in *. clear Etw w0 ws.
  unfold _add_time_window_constraints.
  replace (shape0 tm)
    with (length time_windows + S (shape0 tm - length time_windows - 1))%nat
    at 1 by lia.
  rewrite seq_app, for_each_app. cbn [seq Nat.add].
  destruct (@for_each_invariant nat qubo (fun _ => True)
              (fun i Qd =>
                 if (i =? 0)%nat then Ret Qd
                 else
                   w <- list_get time_windows (0, 0) (Z.of_nat i) ;;
                   for_each (seq 0 (shape0 tm)) (fun p Qd =>
                     window_penalty lam vi tm (fst w) (snd w) i p Qd) Qd)
              (seq 0 (length time_windows))) with (s := Qd)
    as [Qd1 [E1 _]].
  - intros i s Hi _. apply in_seq in Hi.
    destruct (i =? 0)%nat; [now exists s|].
    rewrite list_get_nat by lia. cbn [bind].
    destruct (@window_loop_returns lam tm vi (nth i time_windows (0, 0)) i
                (seq 0 (shape0 tm)) Hpos s) as [Qd' E].
    exists Qd'. split; [exact E | exact I].
  - exact I.
  - rewrite E1. cbn [bind for_each].
    replace (length time_windows =? 0)%nat with false
      by (symmetry; apply Nat.eqb_neq; lia).
    rewrite list_get_past_end. reflexivity.
Qed.

Lemma time_windows_shorter_than_matrix_raise_witness :
  build_time_dependent_tsp_qubo_with 100 [[0; 3]; [4; 0]] [(0, 480)] []
  = Raise IndexError.
Proof.
  apply (@time_windows_shorter_than_matrix_raise 100 [[0; 3]; [4; 0]]
           [(0, 480)] []).
  - discriminate.
  - simpl. lia.
Defined.

Section PenaltySigns.

Lemma Qlt_bool_lt (a b : Q) : Qlt_bool a b = true -> a < b.
Proof.
  unfold Qlt_bool. intros H. apply negb_true_iff in H.
  apply Qnot_le_lt. intros Hle. apply Qle_bool_iff in Hle. congruence.
Qed.

Lemma Qlt_bool_ge (a b : Q) : b <= a -> Qlt_bool a b = false.
Proof.
  unfold Qlt_bool. intros H. apply negb_false_iff. now apply Qle_bool_iff.
Qed.

(** A penalty [lambda * (b - a) / 60] for [a < b] is not negative. *)
Lemma penalty_nonneg (lam a b : Q) :
  0 <= lam -> a < b -> 0 <= lam * (b - a) / 60.
Proof.
  intros Hlam Hab. unfold Qdiv.
  apply Qmult_le_0_compat; [|discriminate].
  apply Qmult_le_0_compat; [exact Hlam|].
  apply Qlt_le_weak. unfold Qminus. now rewrite <- Qlt_minus_iff.
Qed.

(** Adding a penalty that is not negative to a diagonal entry does not
    lower the energy of any assignment. *)
Lemma energy_diag_penalty (x : nat -> bool) (Qd : qubo) (v : nat) (c : Q) :
  0 <= c -> qubo_energy Qd x <= qubo_energy (q_add Qd (Pair v v) c) x.
Proof.
  intros Hc. rewrite energy_q_add. cbn [term_value].
  rewrite <- (Qplus_0_r (qubo_energy Qd x)) at 1.
  apply Qplus_le_compat; [apply Qle_refl|].
  destruct (x v && x v); [exact Hc | apply Qle_refl].
Qed.

End PenaltySigns.

Section WindowEnergy.
Variable lam : Q.
Hypothesis Hlam : 0 <= lam.
Variable tm : matrix.
Hypothesis Hpos : positive_entries tm <> [].
Variable time_windows : list (Q * Q).
Variable vi : tsp_var_index.
Variable x : nat -> bool.
Variable e0 : Q.

Lemma window_penalty_energy (w : Q * Q) (i p : nat) (Qd : qubo) :
  e0 <= qubo_energy Qd x ->
  exists Qd',
    window_penalty lam vi tm (fst w) (snd w) i p Qd = Ret Qd' /\
    e0 <= qubo_energy Qd' x.
Proof.
  intros HQd. unfold window_penalty.
  destruct (positive_entries tm) as [|q qs]; [congruence|].
  cbn [np_min bind]. cbv zeta.
  destruct (Qlt_bool _ (fst w)) eqn:E1.
  - eexists. split; [reflexivity|].
    eapply Qle_trans; [exact HQd|].
    apply energy_diag_penalty, penalty_nonneg; [exact Hlam|].
    now apply Qlt_bool_lt.
  - destruct (Qlt_bool (snd w) _) eqn:E2.
    + eexists. split; [reflexivity|].
      eapply Qle_trans; [exact HQd|].
      apply energy_diag_penalty, penalty_nonneg; [exact Hlam|].
      now apply Qlt_bool_lt.
    + exists Qd. split; [reflexivity | exact HQd].
Qed.

Lemma time_window_constraints_energy (N : nat) (Qd : qubo) :
  (N <= length time_windows)%nat ->
  e0 <= qubo_energy Qd x ->
  exists Qd',
    _add_time_window_constraints lam Qd vi tm time_windows N = Ret Qd' /\
    e0 <= qubo_energy Qd' x.
Proof.
  intros HN HQd. unfold _add_time_window_constraints.
  apply for_each_invariant with (P := fun Qd => e0 <= qubo_energy Qd x);
    [|exact HQd].
  intros i s Hi Hs. apply in_seq in Hi.
  destruct (i =? 0)%nat; [now exists s|].
  rewrite list_get_nat by lia. cbn [bind].
  apply for_each_invariant with (P := fun Qd => e0 <= qubo_energy Qd x);
    [|exact Hs].
  intros p s' _ Hs'. now apply window_penalty_energy.
Qed.

Lemma capacity_constraints_energy (capacity_constraints : list Q) (N : nat)
  (Qd : qubo) :
  e0 <= qubo_energy Qd x ->
  e0 <= qubo_energy
          (_add_capacity_constraints lam Qd vi capacity_constraints N) x.
Proof.
  intros HQd. unfold _add_capacity_constraints. cbv zeta.
  apply for_range_invariant with (P := fun Qd => e0 <= qubo_energy Qd x);
    [|exact HQd].
  intros p s _ Hs.
  apply for_range_invariant with (P := fun Qd => e0 <= qubo_energy Qd x);
    [|exact Hs].
  intros i s' _ Hs'.
  destruct (Qlt_bool 100 _) eqn:E; [|exact Hs'].
  eapply Qle_trans; [exact Hs'|].
  apply energy_diag_penalty. apply Qlt_bool_lt in E.
  unfold Qdiv. apply Qmult_le_0_compat; [|discriminate].
  apply Qmult_le_0_compat; [exact Hlam|].
  apply Qlt_le_weak. unfold Qminus. now rewrite <- Qlt_minus_iff.
Qed.

End WindowEnergy.

(** X23.  The optional constraints are penalties: with a penalty weight that is
    not negative, a window for every node and a positive entry in the
    matrix, the builder returns, with the same variable index as without
    them and a QUBO whose energy is, on every assignment, at least the
    energy of the QUBO built without them. *)
Theorem optional_constraints_only_raise_energy (lam : Q) (tm : matrix)
  (time_windows : list (Q * Q)) (capacity_constraints : list Q) :
  0 <= lam ->
  positive_entries tm <> [] ->
  (shape0 tm <= length time_windows)%nat ->
  exists Qd,
    build_time_dependent_tsp_qubo_with lam tm time_windows
      capacity_constraints
    = Ret (Qd, snd (build_time_dependent_tsp_qubo lam tm)) /\
    forall x,
      qubo_energy (fst (build_time_dependent_tsp_qubo lam tm)) x
      <= qubo_energy Qd x.
Proof.
  intros Hlam Hpos Htw. unfold build_time_dependent_tsp_qubo_with. cbv zeta.
  generalize (fst (build_time_dependent_tsp_qubo lam tm)) as Qd0.
  generalize (snd (build_time_dependent_tsp_qubo lam tm)) as vi.
  intros vi Qd0.
  assert (H1 : exists Qd1,
    match time_windows with
    | [] => Ret Qd0
    | _ :: _ =>
        _add_time_window_constraints lam Qd0 vi tm time_windows (shape0 tm)
    end = Ret Qd1 /\
    forall x, qubo_energy Qd0 x <= qubo_energy Qd1 x).
  { destruct time_windows as [|w ws] eqn:Etw.
    - exists Qd0. split; [reflexivity | intros x; apply Qle_refl].
    - rewrite <- Etw in *.
      assert (Hret : exists Qd1,
        _add_time_window_constraints lam Qd0 vi tm time_windows (shape0 tm)
        = Ret Qd1).
      { destruct (@time_window_constraints_energy lam Hlam tm Hpos
                    time_windows vi (fun _ => false)
                    (qubo_energy Qd0 (fun _ => false)) (shape0 tm) Qd0 Htw
                    (Qle_refl _)) as [Qd1 [E _]].
        now exists Qd1. }
      destruct Hret as [Qd1 E1]. exists Qd1. split; [exact E1|].
      intros x.
      destruct (@time_window_constraints_energy lam Hlam tm Hpos
                  time_windows vi x (qubo_energy Qd0 x) (shape0 tm) Qd0 Htw
                  (Qle_refl _)) as [Qd1' [E1' Hle]].
      rewrite E1 in E1'. inversion E1'; subst. exact Hle. }
  destruct H1 as [Qd1 [E1 Hle1]]. rewrite E1. cbn [bind].
  eexists. split; [reflexivity|]. intros x.
  destruct capacity_constraints as [|c cs]; [apply Hle1|].
  apply capacity_constraints_energy; [exact Hlam | apply Hle1].
Qed.

Lemma optional_constraints_only_raise_energy_witness :
  exists Qd,
    build_time_dependent_tsp_qubo_with 100 [[0; 3]; [4; 0]]
      [(0, 480); (60, 180)] [150; 20]
    = Ret (Qd, snd (build_time_dependent_tsp_qubo 100 [[0; 3]; [4; 0]])) /\
    forall x,
      qubo_energy (fst (build_time_dependent_tsp_qubo 100 [[0; 3]; [4; 0]])) x
      <= qubo_energy Qd x.
Proof.
  apply (@optional_constraints_only_raise_energy 100 [[0; 3]; [4; 0]]
           [(0, 480); (60, 180)] [150; 20]).
  - discriminate.
  - discriminate.
  - simpl. lia.
Defined.

(** X24.  Capacities of at most 100 (the limit written in the function; a node
    without an entry counts for 1) add nothing: the dictionary comes back
    as it went in. *)
Theorem capacity_constraints_within_limit (lam : Q) (Qd : qubo)
  (vi : tsp_var_index) (capacity_constraints : list Q) (N : nat) :
  Forall (fun c => c <= 100) capacity_constraints ->
  _add_capacity_constraints lam Qd vi capacity_constraints N = Qd.
Proof.
  intros Hcc. unfold _add_capacity_constraints. cbv zeta.
  apply for_range_invariant with (P := fun Qd' => Qd' = Qd); [|reflexivity].
  intros p s _ ->.
  apply for_range_invariant with (P := fun Qd' => Qd' = Qd); [|reflexivity].
  intros i s _ ->.
  rewrite Qlt_bool_ge; [reflexivity|].
  destruct (i <? length capacity_constraints)%nat eqn:E; [|discriminate].
  apply Nat.ltb_lt in E. rewrite Forall_forall in Hcc.
  apply Hcc, nth_In, E.
Qed.

Lemma capacity_constraints_within_limit_witness :
  _add_capacity_constraints 100 [(Pair 0 0, 7)]
    (fst (make_tsp_var_index 2)) [100; 20] 2 = [(Pair 0 0, 7)].
Proof.
  apply (@capacity_constraints_within_limit 100 [(Pair 0 0, 7)]
           (fst (make_tsp_var_index 2)) [100; 20] 2).
  repeat constructor; discriminate.
Defined.

(** ** traffic_simulator.py: distances, incidents and scenarios *)

Import MoreTrafficProps.
Local Open Scope string_scope.
Local Open Scope R_scope.

Section Distance.

Lemma sin_sqr_half_swap (x y : R) :
  sin ((y - x) / 2) * sin ((y - x) / 2)
  = sin ((x - y) / 2) * sin ((x - y) / 2).
Proof.
  replace ((x - y) / 2) with (- ((y - x) / 2)) by lra.
  rewrite sin_neg. ring.
Qed.

Lemma haversine_distance_sym (c1 c2 : coord) :
  haversine_distance c1 c2 = haversine_distance c2 c1.
Proof.
  destruct c1 as [[lat1|] [lon1|]], c2 as [[lat2|] [lon2|]];
    try reflexivity.
  unfold haversine_distance. cbn [fst snd np_radians lift1 np_sub lift2
    np_div_const np_sin np_cos np_square np_mul np_add].
  rewrite (sin_sqr_half_swap (lat1 * (PI / 180)) (lat2 * (PI / 180))).
  rewrite (sin_sqr_half_swap (lon1 * (PI / 180)) (lon2 * (PI / 180))).
  rewrite (Rmult_comm (cos (lat1 * (PI / 180)))).
  reflexivity.
Qed.

Lemma haversine_distance_same (lat lon : R) :
  haversine_distance (Num lat, Num lon) (Num lat, Num lon) = Num 0.
Proof.
  unfold haversine_distance. cbn [fst snd np_radians lift1 np_sub lift2
    np_div_const np_sin np_cos np_square np_mul np_add].
  replace ((lat * (PI / 180) - lat * (PI / 180)) / 2) with 0 by lra.
  replace ((lon * (PI / 180) - lon * (PI / 180)) / 2) with 0 by lra.
  rewrite sin_0.
  replace (0 * 0 + cos (lat * (PI / 180)) * cos (lat * (PI / 180)) * (0 * 0))
    with 0 by ring.
  unfold np_sqrt. destruct (Rlt_dec 0 0) as [H|_]; [lra|].
  rewrite sqrt_0. unfold np_arcsin.
  destruct (Rlt_dec 0 (-1)) as [H|_]; [lra|].
  destruct (Rlt_dec 1 0) as [H|_]; [lra|].
  rewrite asin_0. cbn [lift1 np_mul_const]. f_equal. ring.
Qed.

End Distance.

(** X25.  The distance does not depend on the direction, whatever the
    coordinates, and a place given by two numbers is at distance 0 from
    itself. *)
Theorem haversine_distance_symmetric_and_zero (c1 c2 : coord) (lat lon : R) :
  haversine_distance c1 c2 = haversine_distance c2 c1 /\
  haversine_distance (Num lat, Num lon) (Num lat, Num lon) = Num 0.
Proof.
  split; [apply haversine_distance_sym | apply haversine_distance_same].
Qed.

Section NoIncident.
Variable coords : list coord.
Variable current_time : datetime.
Variable weather : String.string.

(** The matrix reads the simulator through the edge multipliers only. *)
Lemma travel_time_matrix_ext (sim1 sim2 : simulator) :
  (forall e, get_edge_multiplier sim1 e current_time
             = get_edge_multiplier sim2 e current_time) ->
  travel_time_matrix sim1 coords current_time weather
  = travel_time_matrix sim2 coords current_time weather.
Proof.
  intros H. unfold travel_time_matrix.
  apply map_ext. intros i. apply map_ext. intros j.
  destruct (i =? j)%nat; [reflexivity|].
  unfold travel_time. now rewrite H.
Qed.

Lemma entry_out_of_range (sim : simulator) (i j : nat) :
  (length coords <= i)%nat \/ (length coords <= j)%nat ->
  entry (travel_time_matrix sim coords current_time weather) i j = Nan.
Proof.
  intros H. unfold entry.
  destruct (Nat.lt_ge_cases i (length coords)) as [Hi|Hi].
  - destruct H as [H|H]; [lia|].
    apply nth_overflow.
    pose proof (travel_time_matrix_columns sim coords current_time weather)
      as Hcols.
    rewrite Forall_forall in Hcols. rewrite Hcols; [exact H|].
    apply nth_In. now rewrite travel_time_matrix_rows.
  - rewrite (nth_overflow (travel_time_matrix _ _ _ _))
      by (now rewrite travel_time_matrix_rows).
    now destruct j.
Qed.

End NoIncident.

(** X26.  Without a registered incident the matrix is symmetric, for every list
    of coordinates and at every time: the entry from [i] to [j] is the
    entry from [j] to [i]. *)
Theorem travel_time_matrix_symmetric (sim : simulator) (coords : list coord)
  (current_time : datetime) (weather : String.string) (i j : nat) :
  incidents sim = [] ->
  entry (travel_time_matrix sim coords current_time weather) i j
  = entry (travel_time_matrix sim coords current_time weather) j i.
Proof.
  intros Hsim.
  destruct (Nat.lt_ge_cases i (length coords)) as [Hi|Hi];
    [|rewrite !entry_out_of_range by auto; reflexivity].
  destruct (Nat.lt_ge_cases j (length coords)) as [Hj|Hj];
    [|rewrite !entry_out_of_range by auto; reflexivity].
  rewrite !travel_time_matrix_entry by assumption.
  rewrite (Nat.eqb_sym j i). destruct (i =? j)%nat; [reflexivity|].
  unfold travel_time, get_edge_multiplier. rewrite Hsim. cbn [dict_get].
  now rewrite haversine_distance_sym.
Qed.

Lemma travel_time_matrix_symmetric_witness :
  entry (travel_time_matrix new_simulator equator_coords 0%Z "rain") 0 1
  = entry (travel_time_matrix new_simulator equator_coords 0%Z "rain") 1 0.
Proof.
  apply (@travel_time_matrix_symmetric new_simulator equator_coords 0%Z
           "rain" 0 1).
  reflexivity.
Defined.

Section IncidentScope.

Lemma pair_eqb_refl (e : edge_id) : pair_eqb e e = true.
Proof. now apply pair_eqb_eq. Qed.

Lemma edge_dict_get_set {V : Type} (d : dict edge_id V) (e e' : edge_id)
  (v : V) :
  dict_get pair_eqb (dict_set pair_eqb d e v) e'
  = if pair_eqb e' e then Some v else dict_get pair_eqb d e'.
Proof.
  induction d as [|[e0 v0] d IH]; simpl.
  - reflexivity.
  - destruct (pair_eqb e e0) eqn:E0; simpl.
    + apply pair_eqb_eq in E0. subst e0.
      destruct (pair_eqb e' e); reflexivity.
    + destruct (pair_eqb e' e0) eqn:E1; [|exact IH].
      apply pair_eqb_eq in E1. subst e0.
      destruct (pair_eqb e' e) eqn:E2; [|reflexivity].
      apply pair_eqb_eq in E2. subst e'.
      rewrite pair_eqb_refl in E0. discriminate.
Qed.

End IncidentScope.

(** X27.  An incident is local to its edge and to its two hours: registering one
    on edge [e] leaves the multiplier of every other edge (the reverse edge
    among them) as it was, and sets the multiplier of [e] to
    [incident_multipliers[type] * severity] from the clock reading of the
    registration to two hours later, and to 1 outside. *)
Theorem incident_is_local (clock : nat -> datetime) (sim : simulator)
  (e e' : edge_id) (incident_type : String.string) (severity : R)
  (t : datetime) :
  let start := clock (clock_reads sim) in
  get_edge_multiplier (add_incident clock sim e incident_type severity) e' t
  = if pair_eqb e' e
    then (if ((start <=? t) && (t <=? start + 2 * microseconds_per_hour))%Z
          then incident_multipliers incident_type * severity
          else 1)
    else get_edge_multiplier sim e' t.
Proof.
  intros start. unfold get_edge_multiplier, add_incident, now.
  cbn [incidents fst snd]. rewrite edge_dict_get_set.
  destruct (pair_eqb e' e); reflexivity.
Qed.

Section FreshIncidents.
Variable clock : nat -> datetime.
Hypothesis Hclock : ticking clock.

Lemma ticking_lt (m n : nat) : (m < n)%nat -> (clock m < clock n)%Z.
Proof.
  induction n as [|n IH]; [lia|]. intros H.
  pose proof (Hclock n).
  destruct (Nat.eq_dec m n) as [->|Hne]; [assumption|].
  assert (clock m < clock n)%Z by (apply IH; lia). lia.
Qed.

(** An incident that has not started yet does not count. *)
Lemma get_edge_multiplier_before_start (sim : simulator) (e : edge_id)
  (t : datetime) :
  starts_after t sim -> get_edge_multiplier sim e t = 1.
Proof.
  intros H. unfold get_edge_multiplier.
  destruct (dict_get pair_eqb (incidents sim) e) as [inc|] eqn:E;
    [|reflexivity].
  destruct (dict_get_in _ _ E) as [e0 Hin].
  unfold starts_after in H. rewrite Forall_forall in H.
  specialize (H _ Hin). cbn [snd] in H.
  replace (start_time inc <=? t)%Z with false
    by (symmetry; apply Z.leb_gt; exact H).
  reflexivity.
Qed.

(** Registering an incident after [t] was read keeps every start after
    [t]. *)
Lemma add_incident_starts_after (m : nat) (sim : simulator) (e : edge_id)
  (incident_type : String.string) (severity : R) :
  (m < clock_reads sim)%nat /\ starts_after (clock m) sim ->
  (m < clock_reads (add_incident clock sim e incident_type severity))%nat /\
  starts_after (clock m) (add_incident clock sim e incident_type severity).
Proof.
  intros [Hm Hsim]. unfold add_incident, now. cbn [fst snd incidents clock_reads].
  split; [lia|]. unfold starts_after in *. cbn [incidents].
  set (inc := mk_incident _ _ _ _ _).
  assert (Hinc : (clock m < start_time inc)%Z) by (apply ticking_lt, Hm).
  clearbody inc.
  induction (incidents sim) as [|[e0 v0] d IH]; simpl.
  - constructor; [exact Hinc | constructor].
  - inversion Hsim; subst. destruct (pair_eqb e e0).
    + constructor; assumption.
    + constructor; [assumption | now apply IH].
Qed.

End FreshIncidents.

(** X28.  The incidents a scenario registers are not active in the matrix of the
    same call.  [current_time] is read from the clock before the incidents
    are registered, and each incident starts at a later reading: on a clock
    that never returns the same reading twice and a simulator without
    incidents, the incident and the storm scenario return the matrix of the
    simulator without any incident, at their weather. *)
Theorem new_incidents_are_not_yet_active (clock : nat -> datetime)
  (sim : simulator) (coords : list coord) (scenario : String.string) :
  ticking clock ->
  incidents sim = [] ->
  scenario = "incident" \/ scenario = "storm" ->
  exists res sim',
    simulate_scenario clock sim coords scenario = Ret (res, sim') /\
    result_weather res = (if String.eqb scenario "storm"
                          then "storm" else "rain") /\
    result_time_matrix res
    = travel_time_matrix sim coords (clock (clock_reads sim))
        (result_weather res).
Proof.
  intros Hclock Hsim Hsc.
  set (m := clock_reads sim).
  set (sim0 := mk_simulator (incidents sim) (S m)).
  assert (H0 : (m < clock_reads sim0)%nat /\ starts_after (clock m) sim0).
  { split; [simpl; lia|]. unfold starts_after. simpl. rewrite Hsim.
    constructor. }
  assert (Hone : forall sim1 e,
            starts_after (clock m) sim1 ->
            get_edge_multiplier sim1 e (clock m)
            = get_edge_multiplier sim e (clock m)).
  { intros sim1 e H1. rewrite get_edge_multiplier_before_start by exact H1.
    unfold get_edge_multiplier. now rewrite Hsim. }
  unfold simulate_scenario, now. fold m. fold sim0. cbn [fst snd].
  destruct Hsc as [-> | ->].
  - cbn [String.eqb Ascii.eqb Bool.eqb bind].
    cbn -[travel_time_matrix add_incident].
    eexists _, _. split; [reflexivity|]. cbn [result_weather result_time_matrix].
    split; [reflexivity|].
    apply travel_time_matrix_ext. intros e. apply Hone.
    apply add_incident_starts_after; [exact Hclock|].
    apply add_incident_starts_after; [exact Hclock | exact H0].
  - cbn -[travel_time_matrix add_incident for_range].
    eexists _, _. split; [reflexivity|]. cbn [result_weather result_time_matrix].
    split; [reflexivity|].
    apply travel_time_matrix_ext. intros e. apply Hone.
    apply (@for_range_invariant simulator
             (fun s => (m < clock_reads s)%nat /\ starts_after (clock m) s));
      [|exact H0].
    intros i s _ Hs. now apply add_incident_starts_after.
Qed.

Lemma new_incidents_are_not_yet_active_witness :
  exists res sim',
    simulate_scenario Z.of_nat new_simulator equator_coords "storm"
    = Ret (res, sim') /\
    result_weather res = "storm" /\
    result_time_matrix res
    = travel_time_matrix new_simulator equator_coords 0%Z
        (result_weather res).
Proof.
  apply (@new_incidents_are_not_yet_active Z.of_nat new_simulator
           equator_coords "storm").
  - intros n. lia.
  - reflexivity.
  - now right.
Defined.

Section PeakHour.
Local Open Scope Z_scope.

Lemma replace_hour_minute_hour (t : datetime) :
  hour_of (replace_hour_minute t 8 30) = 8.
Proof.
  unfold hour_of, replace_hour_minute, microseconds_per_day,
    microseconds_per_hour, microseconds_per_minute.
  pose proof (Z.mod_pos_bound t 60000000 ltac:(lia)) as Hr.
  set (r := t mod 60000000) in *. set (q := t / 86400000000).
  assert (E : (q * 86400000000 + 8 * 3600000000 + 30 * 60000000 + r)
              / 3600000000 = q * 24 + 8).
  { symmetry. apply Z.div_unique_pos with (r := 30 * 60000000 + r); lia. }
  rewrite E. symmetry. apply Z.mod_unique_pos with (q := q); lia.
Qed.

Lemma replace_hour_minute_weekday (t : datetime) :
  weekday_of (replace_hour_minute t 8 30) = weekday_of t.
Proof.
  unfold weekday_of, replace_hour_minute, microseconds_per_day,
    microseconds_per_hour, microseconds_per_minute.
  pose proof (Z.mod_pos_bound t 60000000 ltac:(lia)) as Hr.
  set (r := t mod 60000000) in *. set (q := t / 86400000000).
  assert (E : (q * 86400000000 + 8 * 3600000000 + 30 * 60000000 + r)
              / 86400000000 = q).
  { symmetry.
    apply Z.div_unique_pos with (r := 8 * 3600000000 + 30 * 60000000 + r);
      lia. }
  now rewrite E.
Qed.

End PeakHour.

(** X29.  The peak scenario runs at 8 o'clock of the day the clock shows: the
    call returns, the time it reports has hour 8 and the weekday of the
    clock reading, the weather is clear, and the time multiplier is the
    peak factor 1.4, times 0.8 at the weekend. *)
Theorem peak_scenario_runs_at_eight (clock : nat -> datetime)
  (sim : simulator) (coords : list coord) :
  exists res sim',
    simulate_scenario clock sim coords "peak" = Ret (res, sim') /\
    hour_of (result_current_time res) = 8%Z /\
    weekday_of (result_current_time res)
    = weekday_of (clock (clock_reads sim)) /\
    result_weather res = "clear" /\
    get_time_multiplier (hour_of (result_current_time res))
      (weekday_of (result_current_time res)) (result_weather res)
    = if (5 <=? weekday_of (clock (clock_reads sim)))%Z
      then 1.4 * 0.8 else 1.4.
Proof.
  unfold simulate_scenario, now.
  cbn -[travel_time_matrix replace_hour_minute].
  eexists _, _. split; [reflexivity|].
  cbn [result_current_time result_weather].
  rewrite replace_hour_minute_hour, replace_hour_minute_weekday.
  repeat split.
  unfold get_time_multiplier, peak_factor, weather_impact.
  cbn [Z.leb Z.compare Pos.compare Pos.compare_cont andb String.eqb
       Ascii.eqb Bool.eqb].
  destruct (5 <=? weekday_of (clock (clock_reads sim)))%Z; lra.
Qed.

(** ** solver_simple.py: the simplified traffic simulator *)

Section Fill.
Context {A B : Type}.





End Fill.

Section SimpleMatrix.
Import SimpleTrafficSimulator.







(** A place whose longitude is infinite, which [json] reads from
    [Infinity], is not rejected before the distances are computed:
    [math.sin] raises [ValueError] on it, and so does the matrix. *)
Lemma infinite_longitude_raises (scenario : String.string) :
  compute_travel_time_matrix [(PNum 0, PNum 0); (PNum 0, PInf false)]
    scenario
  = Raise ValueError.
Proof. reflexivity. Qed.



End SimpleMatrix.
